(** * ProtographLDPC: construction of LDPC parity-check graphs

    A shallow embedding of [libs/RegularLDPC.py] and [libs/ProtographLDPC.py].

    - Python integers that denote sizes and indices are [nat]; where
      the source mixes them with floats they are injected in [Z].
    - Python floats are IEEE binary64 values ([spec_float] with
      precision 53 and maximal exponent 1024); [/] between two integers
      is the correctly rounded quotient, as in CPython.
    - The process-wide random generator is a tape of raw draws that is
      threaded through every call; a rejection loop that uses up the
      tape without accepting a draw ends in [Starved].
    - Python exceptions are values of type [exn]. *)

From Stdlib Require Import ZArith List Lia Bool Arith String SpecFloat.
From stdpp Require Import base gmap list strings.

Local Open Scope nat_scope.

(** ** Exceptions and outcomes *)

Inductive exn : Type :=
  | ZeroDivisionError
  | OverflowError
  | IndexError
  | KeyError
  | ValueError
  | TypeError
  | AttributeError
  | RuntimeError (msg : string)
  | InvalidStructure.

(** The three messages raised by the two source files. *)
Definition InvalidConstruction : exn := RuntimeError "Invalid construction method".
Definition InvalidProtograph : exn :=
  RuntimeError "Invalid protograph value for given lift factor".
Definition InvalidArguments : exn := RuntimeError "invalid input provided".

Inductive outcome (A : Type) : Type :=
  | Done (a : A)
  | Raise (e : exn)
  | Starved.
Arguments Done {A} a.
Arguments Raise {A} e.
Arguments Starved {A}.

(** A computation that may consume random draws. *)
Definition rnd (A : Type) : Type := list nat -> outcome (A * list nat).

Definition ret {A} (a : A) : rnd A := fun tape => Done (a, tape).
Definition raise {A} (e : exn) : rnd A := fun _ => Raise e.
Definition bind {A B} (m : rnd A) (k : A -> rnd B) : rnd B :=
  fun tape =>
    match m tape with
    | Done (a, tape') => k a tape'
    | Raise e => Raise e
    | Starved => Starved
    end.
Definition starve {A} : rnd A := fun _ => Starved.
Definition lift {A} (o : outcome A) : rnd A :=
  fun tape =>
    match o with
    | Done a => Done (a, tape)
    | Raise e => Raise e
    | Starved => Starved
    end.

#[global] Instance rnd_ret : MRet rnd := @ret.
#[global] Instance rnd_bind : MBind rnd := fun A B k m => bind m k.

(** [for x in xs: s = body(x, s)] *)
Fixpoint for_each {A S} (xs : list A) (body : A -> S -> rnd S) (s : S) : rnd S :=
  match xs with
  | [] => ret s
  | x :: xs' => s' ← body x s; for_each xs' body s'
  end.

(** [range(n)] *)
Definition range (n : nat) : list nat := seq 0 n.

(** ** The random source *)

(** [random._randbelow(m)] for [m > 0]: the next raw draw, reduced to [0, m). *)
Definition randbelow (m : nat) : rnd nat :=
  fun tape =>
    match tape with
    | [] => Starved
    | x :: tape' => Done (x mod m, tape')
    end.

(** [x = random.choice(range(m)); while bad(x): x = random.choice(range(m))];
    [random.choice] of an empty range raises [IndexError]. *)
Fixpoint choice_until (m : nat) (bad : nat -> bool) (tape : list nat)
  : outcome (nat * list nat) :=
  if m =? 0 then Raise IndexError else
  match tape with
  | [] => Starved
  | x :: tape' =>
      if bad (x mod m) then choice_until m bad tape' else Done (x mod m, tape')
  end.

(** [x[i], x[j] = x[j], x[i]] *)
Definition swap (x : list nat) (i j : nat) : list nat :=
  match x !! i, x !! j with
  | Some a, Some b => <[j := a]> (<[i := b]> x)
  | _, _ => x
  end.

(** [random.shuffle(x)]:
    [for i in reversed(range(1, len(x))): j = randbelow(i + 1); swap x[i], x[j]] *)
Definition shuffle (x : list nat) : rnd (list nat) :=
  for_each (rev (seq 1 (length x - 1)))
    (fun i x => j ← randbelow (i + 1); ret (swap x i j)) x.

(** [random.sample(population, k)] by selection from a pool:
    [for i in range(k): j = randbelow(n - i); result[i] = pool[j];
     pool[j] = pool[n - i - 1]]; [ValueError] when [k] exceeds the population. *)
Definition sample_step (n : nat) (i : nat) (st : list nat * list nat)
  : rnd (list nat * list nat) :=
  let '(pool, result) := st in
  j ← randbelow (n - i);
  ret (<[j := nth (n - i - 1) pool 0]> pool, result ++ [nth j pool 0]).

Definition sample (population : list nat) (k : nat) : rnd (list nat) :=
  let n := length population in
  if n <? k then raise ValueError else
  st ← for_each (range k) (sample_step n) (population, []);
  ret (snd st).

(** ** Python floats *)

Module Float64.
Local Open Scope Z_scope.

Definition prec : Z := 53.
Definition emax : Z := 1024.

Definition is_infinity (x : spec_float) : bool :=
  match x with S754_infinity _ => true | _ => false end.

Definition checked (x : spec_float) : outcome spec_float :=
  if is_infinity x then Raise OverflowError else Done x.

(** [float(z)] for an integer [z]: nearest double, [OverflowError] beyond the range. *)
Definition of_int (z : Z) : outcome spec_float :=
  checked (binary_normalize prec emax z 0 false).

(** [a / b] for integers: the correctly rounded quotient. *)
Definition truediv (a b : Z) : outcome spec_float :=
  if b =? 0 then Raise ZeroDivisionError else
  if a =? 0 then Done (S754_zero (b <? 0)) else
  let '(mz, ez, lz) := SFdiv_core_binary prec emax (Z.abs a) 0 (Z.abs b) 0 in
  checked (binary_round_aux prec emax (xorb (a <? 0) (b <? 0)) mz ez lz).

(** [x * z] for a float [x] and an integer [z]. *)
Definition mul_int (x : spec_float) (z : Z) : outcome spec_float :=
  match of_int z with
  | Done y => Done (SFmul prec emax x y)
  | Raise e => Raise e
  | Starved => Starved
  end.

(** [x + z] for a float [x] and an integer [z]. *)
Definition add_int (x : spec_float) (z : Z) : outcome spec_float :=
  match of_int z with
  | Done y => Done (SFadd prec emax x y)
  | Raise e => Raise e
  | Starved => Starved
  end.

(** [int(x)]: truncation towards zero. *)
Definition to_int (x : spec_float) : outcome Z :=
  match x with
  | S754_zero _ => Done 0
  | S754_finite s m e =>
      let a := if 0 <=? e then Zpos m * 2 ^ e else Zpos m / 2 ^ (- e) in
      Done (if s then - a else a)
  | S754_infinity _ => Raise OverflowError
  | S754_nan => Raise ValueError
  end.
End Float64.

Definition obind {A B} (o : outcome A) (k : A -> outcome B) : outcome B :=
  match o with
  | Done a => k a
  | Raise e => Raise e
  | Starved => Starved
  end.

#[global] Instance outcome_ret : MRet outcome := @Done.
#[global] Instance outcome_bind : MBind outcome := fun A B k o => obind o k.

(** [int(a / b)] on sizes. *)
Definition int_div (a b : nat) : outcome nat :=
  obind (Float64.truediv (Z.of_nat a) (Z.of_nat b)) (fun x =>
  obind (Float64.to_int x) (fun z => Done (Z.to_nat z))).

(** [int((a / b) * c)] on sizes. *)
Definition int_div_mul (a b c : nat) : outcome nat :=
  obind (Float64.truediv (Z.of_nat a) (Z.of_nat b)) (fun x =>
  obind (Float64.mul_int x (Z.of_nat c)) (fun y =>
  obind (Float64.to_int y) (fun z => Done (Z.to_nat z)))).

(** [int(a / b + j)] on sizes. *)
Definition int_div_add (a b j : nat) : outcome nat :=
  obind (Float64.truediv (Z.of_nat a) (Z.of_nat b)) (fun x =>
  obind (Float64.add_int x (Z.of_nat j)) (fun y =>
  obind (Float64.to_int y) (fun z => Done (Z.to_nat z)))).

(** ** Tanner graphs as dictionaries

    The dictionary [tanner_graph] maps a check-node index to the list of
    variable-node indices it is connected to. *)

Abbreviation graph := (gmap nat (list nat)).

(** [for i in range(h): tanner_graph[i] = []] *)
Fixpoint empty_rows (h : nat) : graph :=
  match h with
  | 0 => ∅
  | S h' => <[h' := []]> (empty_rows h')
  end.

(** [row.count(x)] *)
Definition count (row : list nat) (x : nat) : nat := count_occ Nat.eq_dec row x.

(** [tanner_graph.get(i)] followed by a list method: a missing key gives
    [None], on which the method lookup fails. *)
Definition get_row (g : graph) (i : nat) : rnd (list nat) :=
  match g !! i with
  | Some row => ret row
  | None => raise AttributeError
  end.

(** ** TannerGraph.py

    Modelled from the spec: the base class [TannerGraph] and the helper
    functions of [libs/TannerGraph.py], which both source files import
    but which is not among them.  An object carries the dictionary and
    the attributes [width] and [height], unset ([None]) until a caller
    sets them. *)

Module TannerGraph.

Record t : Type := Build {
  tanner_graph : graph;
  width : option nat;
  height : option nat
}.

(** Modelled from the spec: [TannerGraph(None)], a graph without rows. *)
Definition empty : t := Build ∅ None None.

(** Modelled from the spec: [len(graph)], the number of check nodes. *)
Definition len (g : t) : nat := size (tanner_graph g).

(** Modelled from the spec: [addRow], one more check node with an empty
    adjacency sequence. *)
Definition addRow (g : t) : t :=
  Build (<[len g := []]> (tanner_graph g)) (width g) (height g).

(** Modelled from the spec: [make_graph(rows, width, height)], the empty
    graph of the cyclic constructions. *)
Definition make_graph (rows w h : nat) : t :=
  Build (empty_rows rows) (Some w) (Some h).

(** Modelled from the spec: [put(key, value)], which replaces the adjacency
    sequence of one check node by the sequence it is given, a row computed
    beforehand: the row written is the sequence as it stands at the call. *)
Definition put (g : t) (key : nat) (value : list nat) : t :=
  Build (<[key := value]> (tanner_graph g)) (width g) (height g).

(** Modelled from the spec: [right_shift_row(row, width)], every index
    advanced by one modulo [width].  The caller drops the result, so the
    function acts on the list object it is given. *)
Definition right_shift_row (row : list nat) (w : nat) : list nat :=
  map (fun x => (x + 1) mod w) row.

(** Modelled from the spec: one edge of [insert] (the splice): the edge
    [(i, x)] of the submatrix lands in row [i + r0] as [x + c0]; a
    duplicate is an error. *)
Definition insert_edge (r0 c0 i x : nat) (g : graph) : rnd graph :=
  match g !! (i + r0) with
  | None => raise KeyError
  | Some row =>
      if bool_decide (x + c0 ∈ row) then raise InvalidStructure
      else ret (<[i + r0 := row ++ [x + c0]]> g)
  end.

(** Modelled from the spec: [insert(submatrix, [r0, c0])]. *)
Definition insert (g : t) (sub : graph) (location : nat * nat) : rnd t :=
  let '(r0, c0) := location in
  g' ← for_each (map_to_list sub)
         (fun '(i, row) acc => for_each row (insert_edge r0 c0 i) acc)
         (tanner_graph g);
  ret (Build g' (width g) (height g)).

(** Modelled from the spec: [permute_rows], a drawn permutation applied
    to the order of the check nodes. *)
Definition permute_rows (g : t) : rnd t :=
  perm ← shuffle (range (len g));
  ret (Build (map_seq 0 (map (fun src => default [] (tanner_graph g !! src)) perm))
             (width g) (height g)).

(** Modelled from the spec: [permute_columns], a drawn permutation applied
    to every variable-node index. *)
Definition permute_columns (g : t) : rnd t :=
  match width g with
  | None => raise TypeError
  | Some w =>
      perm ← shuffle (range w);
      ret (Build (map (fun x => nth x perm x) <$> tanner_graph g) (width g) (height g))
  end.

(** Modelled from the spec: [transpose(tanner_graph, new_height)].  Row [j]
    of the result lists the keys of the argument whose row contains [j]. *)
Definition transpose (g : graph) (new_height : nat) : graph :=
  list_to_map
    (map (fun j => (j, (map fst (filter (fun kv : nat * list nat => j ∈ kv.2)
                                        (map_to_list g)))))
         (range new_height)).

End TannerGraph.

(** ** Identity.py

    Modelled from the spec: the permutation structure of
    [libs/Identity.py], which is not among the source files: row [i]
    holds the single column the permutation selects for it. *)

Module Identity.

(** Modelled from the spec: [Identity(perm)]. *)
Definition init (perm : list nat) : TannerGraph.t :=
  TannerGraph.Build (map_seq 0 ((fun x => [x]) <$> perm))
    (Some (length perm)) (Some (length perm)).

(** Modelled from the spec: [overlaps], true iff some row holds the same
    column in both structures. *)
Definition overlaps (self other : TannerGraph.t) : bool :=
  existsb (fun '(i, b) =>
             match TannerGraph.tanner_graph self !! i with
             | Some a => existsb (fun x => bool_decide (x ∈ a)) b
             | None => false
             end)
          (map_to_list (TannerGraph.tanner_graph other)).

(** The rows of [g], moved by an offset. *)
Definition shifted (g : graph) (r0 c0 : nat) : graph :=
  list_to_map (map (fun '(i, row) => (r0 + i, map (Nat.add c0) row)) (map_to_list g)).

(** Modelled from the spec: [absorb_nonoverlapping(other, [r0, c0])], the
    union of both edge sets. *)
Definition absorb_nonoverlapping (self other : TannerGraph.t) (offset : nat * nat)
  : TannerGraph.t :=
  let '(r0, c0) := offset in
  TannerGraph.Build
    (union_with (fun a b => Some (a ++ b))
       (TannerGraph.tanner_graph self)
       (shifted (TannerGraph.tanner_graph other) r0 c0))
    (TannerGraph.width self) (TannerGraph.height self).

End Identity.

(** ** RegularLDPC.py *)

Module RegularLDPC.

(** *** The two populate constructions

    The source spells the construction out twice ("duplicate code
    included for easier reading"); [populate] is that code, with the
    number of rows of the dictionary, the entries per row and the modulus
    of the index pool left open. *)

Record state : Type := State {
  st_graph : graph;
  available_indices : list nat;
  placed_entries : nat
}.

(** [for i in range(k - 1, -1, -1): available_indices.append(i % m)] *)
Definition fill_available (k m : nat) : outcome (list nat) :=
  if (0 <? k) && (m =? 0) then Raise ZeroDivisionError
  else Done (map (fun i => i mod m) (rev (range k))).

(** [l = 0
     while l < len(available_indices) and row.count(available_indices[l]) == 1:
         l += 1] *)
Fixpoint scan (row : list nat) (available : list nat) : nat :=
  match available with
  | [] => 0
  | a :: rest => if count row a =? 1 then S (scan row rest) else 0
  end.

(** One pass through the body of the inner [for j] loop, for row [i]. *)
Definition place (m k i : nat) (st : state) : rnd state :=
  row ← get_row (st_graph st) i;
  let avail := available_indices st in
  let l := scan row avail in
  if l + placed_entries st =? k then
    (* every pool entry is already in the row: any free index of [0, m) *)
    random_index ← choice_until m (fun x => count row x =? 1);
    ret (State (<[i := row ++ [random_index]]> (st_graph st))
               avail (placed_entries st))
  else
    random_index ← choice_until (length avail)
      (fun x => negb (count row (nth x avail 0) =? 0) && (1 <? length avail));
    ret (State (<[i := row ++ [nth random_index avail 0]]> (st_graph st))
               (delete random_index avail) (S (placed_entries st))).

Definition populate (rows per_row m k : nat) : rnd graph :=
  let tanner_graph := empty_rows rows in
  avail ← lift (fill_available k m);
  st ← for_each (range rows)
         (fun i st => for_each (range per_row) (fun _ st => place m k i st) st)
         (State tanner_graph avail 0);
  ret (st_graph st).

(** [method == "populate-rows"] *)
Definition populate_rows (n r c : nat) : rnd graph :=
  height ← lift (int_div (n * c) r);
  populate height r n (n * c).

(** [method == "populate-columns"] *)
Definition populate_columns (n r c : nat) : rnd graph :=
  height ← lift (int_div (n * c) r);
  g ← populate n c height (n * c);
  ret (TannerGraph.transpose g height).

(** *** Gallager's construction *)

(** [self.map[i].append(codeword_indices[i * r + j])] *)
Definition assign (codeword_indices : list nat) (r i j : nat) (g : graph) : rnd graph :=
  match g !! i, codeword_indices !! (i * r + j) with
  | None, _ => raise KeyError
  | _, None => raise IndexError
  | Some row, Some x => ret (<[i := row ++ [x]]> g)
  end.

(** [SubGraph.__init__]; the result is the attribute [map]. *)
Definition SubGraph (n r : nat) : rnd graph :=
  rows ← lift (int_div n r);
  codeword_indices ← shuffle (range n);
  for_each (range rows)
    (fun i g => for_each (range r) (assign codeword_indices r i) g)
    (empty_rows rows).

(** [merged[int(i * n / r + j)] = submatrices[i].map[j]]: the right-hand
    side is evaluated first. *)
Definition merge_row (n r i : nat) (sub : graph) (j : nat) (merged : graph) : rnd graph :=
  match sub !! j with
  | Some row =>
      key ← lift (int_div_add (i * n) r j);
      ret (<[key := row]> merged)
  | None => raise KeyError
  end.

(** [for i in range(len(submatrices)): for j in range(int(n / r)): ...] *)
Definition merge (submatrices : list graph) (n r : nat) : rnd graph :=
  for_each (range (length submatrices))
    (fun i merged =>
       rows ← lift (int_div n r);
       match submatrices !! i with
       | Some sub => for_each (range rows) (merge_row n r i sub) merged
       | None => raise IndexError
       end)
    ∅.

(** [method == "gallager"]; [n % r] is evaluated first. *)
Definition gallager (n r c : nat) : rnd graph :=
  if r =? 0 then raise ZeroDivisionError else
  submatrices ← for_each (range c)
                  (fun _ acc => sub ← SubGraph n r; ret (acc ++ [sub])) [];
  merge submatrices n r.

Definition get_parity_check_graph (n r c : nat) (method : string) : rnd graph :=
  if String.eqb method "gallager" then gallager n r c
  else if String.eqb method "populate-rows" then populate_rows n r c
  else if String.eqb method "populate-columns" then populate_columns n r c
  else raise InvalidConstruction.

(** *** The code object *)

Record t : Type := Build {
  width : nat;
  height : nat;
  n : nat;
  c : nat;
  r : nat;
  construction : string;
  tanner_graph : graph
}.

(** [RegularLDPC.__init__(args, construction)] *)
Definition init (args : list nat) (construction : string) : rnd t :=
  match args with
  | [] => raise IndexError
  | [a0; a1; a2] =>
      r ← lift (int_div_mul a0 a1 a2);
      g ← get_parity_check_graph a0 r a2 construction;
      ret (Build a0 a1 a0 a2 r construction g)
  | _ => raise InvalidArguments
  end.

End RegularLDPC.


(** ** Protograph

    Modelled from the spec: the protograph handed to the lift is a dense
    matrix of multiplicities with accessors [get(row, col)], [width] and
    [height]; its class is not among the source files.  The lift passes
    the block coordinates as floats. *)

Module Protograph.

Record t : Type := Build {
  width : nat;
  height : nat;
  entries : list (list nat)
}.

Definition index (x : spec_float) : outcome nat :=
  z ← Float64.to_int x; mret (Z.to_nat z).

Definition get (p : t) (row col : spec_float) : outcome nat :=
  i ← index row;
  j ← index col;
  match entries p !! i with
  | None => Raise IndexError
  | Some r =>
      match r !! j with
      | None => Raise IndexError
      | Some v => Done v
      end
  end.

End Protograph.

(** ** ProtographLDPC.py *)

Module ProtographLDPC.

(** What [submatrix] returns: an object of class [TannerGraph] (or of its
    subclass [Identity]) or a [RegularLDPC] code. *)
Inductive code : Type :=
  | Graph (g : TannerGraph.t)
  | Regular (x : RegularLDPC.t).

Definition graph_of (x : code) : graph :=
  match x with
  | Graph g => TannerGraph.tanner_graph g
  | Regular x => RegularLDPC.tanner_graph x
  end.

(** *** construct_cyclic_submatrix

    The loop carries the graph and the list [first_row_indices].
    [right_shift_row] is called for its effect on the list [new], after
    [put] has written the row; the next pass copies the shifted list. *)

(** [new = first_row_indices.copy()
     graph.put(i, new)
     right_shift_row(new, graph.width)
     first_row_indices = new] *)
Definition cyclic_step (w : nat) (st : TannerGraph.t * list nat) (i : nat)
  : TannerGraph.t * list nat :=
  let '(graph, first_row_indices) := st in
  let new := first_row_indices in
  let graph := TannerGraph.put graph i new in
  let new := TannerGraph.right_shift_row new w in
  (graph, new).

Definition construct_cyclic_submatrix (first_row_indices : list nat)
  (graph : TannerGraph.t) : rnd TannerGraph.t :=
  match TannerGraph.width graph with
  | None => raise TypeError
  | Some w => ret (foldl (cyclic_step w) (graph, first_row_indices) (range w)).1
  end.

(** *** submatrix *)

(** [while True:
       trial_permutation = Identity(random.sample(range(factor), factor))
       if not start.overlaps(trial_permutation):
           start = start.absorb_nonoverlapping(trial_permutation, [0, 0])
           break]
    Every rejected trial of a positive size uses draws, so the loop is
    cut off after as many rounds as the tape has draws left, plus one. *)
Fixpoint absorb_trial (rounds : nat) (factor : nat) (start : TannerGraph.t)
  : rnd TannerGraph.t :=
  match rounds with
  | 0 => starve
  | S rounds' =>
      perm ← sample (range factor) factor;
      let trial_permutation := Identity.init perm in
      if Identity.overlaps start trial_permutation
      then absorb_trial rounds' factor start
      else ret (Identity.absorb_nonoverlapping start trial_permutation (0, 0))
  end.

Definition absorb_fresh (factor : nat) (start : TannerGraph.t) : rnd TannerGraph.t :=
  fun tape => absorb_trial (S (length tape)) factor start tape.

Definition permutation (factor num_ones_per_row : nat) : rnd TannerGraph.t :=
  perm ← sample (range factor) factor;
  let start := Identity.init perm in
  if num_ones_per_row =? 1 then ret start
  else for_each (range (num_ones_per_row - 1)) (fun _ => absorb_fresh factor) start.

Definition quasi_cyclic (factor num_ones_per_row : nat) : rnd TannerGraph.t :=
  let qc_graph := TannerGraph.make_graph factor factor factor in
  first_row ← sample (range factor) num_ones_per_row;
  construct_cyclic_submatrix first_row qc_graph.

Definition permuted_quasi_cyclic (factor num_ones_per_row : nat) : rnd TannerGraph.t :=
  let g := TannerGraph.make_graph factor factor factor in
  g ← construct_cyclic_submatrix (range num_ones_per_row) g;
  g ← TannerGraph.permute_rows g;
  TannerGraph.permute_columns g.

Definition submatrix (submatrix_construction : string) (factor num_ones_per_row : nat)
  : rnd code :=
  if String.eqb submatrix_construction "permutation" then
    g ← permutation factor num_ones_per_row; ret (Graph g)
  else if String.eqb submatrix_construction "regular" then
    x ← RegularLDPC.init [factor; factor; num_ones_per_row] "populate-rows";
    ret (Regular x)
  else if String.eqb submatrix_construction "quasi-cyclic" then
    g ← quasi_cyclic factor num_ones_per_row; ret (Graph g)
  else if String.eqb submatrix_construction "permuted-quasi-cyclic" then
    g ← permuted_quasi_cyclic factor num_ones_per_row; ret (Graph g)
  else raise InvalidConstruction.

(** *** expanded_protograph *)

(** [range(0, stop, step)]; a zero step is a [ValueError]. *)
Definition range_step (stop step : nat) : outcome (list nat) :=
  if step =? 0 then Raise ValueError
  else Done (map (fun i => i * step) (range ((stop + step - 1) / step))).

(** [protograph.get(r / factor, c / factor)] *)
Definition entry (protograph : Protograph.t) (factor r c : nat) : outcome nat :=
  x ← Float64.truediv (Z.of_nat r) (Z.of_nat factor);
  y ← Float64.truediv (Z.of_nat c) (Z.of_nat factor);
  Protograph.get protograph x y.

(** The body of the two nested loops, for the block at [(r, c)]. *)
Definition block (protograph : Protograph.t) (factor : nat) (construction : string)
    (r c : nat) (expanded : TannerGraph.t) : rnd TannerGraph.t :=
  v ← lift (entry protograph factor r c);
  if factor <? v then raise InvalidProtograph
  else if v =? 0 then ret expanded
  else
    sub ← submatrix construction factor v;
    TannerGraph.insert expanded (graph_of sub) (r, c).

Definition expanded_protograph (protograph : Protograph.t) (factor : nat)
    (construction : string) : rnd graph :=
  let expanded :=
    Nat.iter (Protograph.height protograph * factor) TannerGraph.addRow
      TannerGraph.empty in
  row_starts ← lift (range_step (TannerGraph.len expanded) factor);
  expanded ← for_each row_starts
    (fun r expanded =>
       col_starts ← lift (range_step (Protograph.width protograph * factor) factor);
       for_each col_starts (block protograph factor construction r) expanded)
    expanded;
  ret (TannerGraph.tanner_graph expanded).

(** *** The code object *)

Record t : Type := Build {
  construction : string;
  protograph : Protograph.t;
  factor : nat;
  maximum_allowable_protograph_node : nat;
  width : nat;
  height : nat;
  tanner_graph : graph
}.

(** [ProtographLDPC.__init__(protograph, factor, construction)] *)
Definition init (protograph : Protograph.t) (factor : nat) (construction : string)
  : rnd t :=
  g ← expanded_protograph protograph factor construction;
  ret (Build construction protograph factor factor
         (Protograph.width protograph * factor)
         (Protograph.height protograph * factor) g).

End ProtographLDPC.

(** * Vocabulary of the claims *)

(** The names each dispatcher knows. *)
Definition regular_constructions : list string :=
  ["gallager"; "populate-rows"; "populate-columns"]%string.
Definition submatrix_constructions : list string :=
  ["permutation"; "regular"; "quasi-cyclic"; "permuted-quasi-cyclic"]%string.

(** The protograph's matrix has the declared shape. *)
Definition well_formed (p : Protograph.t) : Prop :=
  length (Protograph.entries p) = Protograph.height p /\
  Forall (fun r => length r = Protograph.width p) (Protograph.entries p).

(** The multiplicity at block position [(i, j)]. *)
Definition cell (p : Protograph.t) (i j : nat) : option nat :=
  match Protograph.entries p !! i with
  | Some r => r !! j
  | None => None
  end.

(** The sizes are integers that doubles hold exactly. *)
Definition small (p : Protograph.t) (f : nat) : Prop :=
  (Z.of_nat (Protograph.height p) < 2 ^ 53)%Z /\
  (Z.of_nat (Protograph.width p) < 2 ^ 53)%Z /\
  (Z.of_nat f < 2 ^ 53)%Z.

(** A row of weight [r] without a repeated index. *)
Definition row_regular (r : nat) (g : graph) : Prop :=
  forall i row, g !! i = Some row -> length row = r /\ NoDup row.

(** * Reasoning about computations *)

(** Partial correctness without exceptions: on every tape the run either
    ends in a result that satisfies [P] or uses the tape up. *)
Definition ensures {A} (m : rnd A) (P : A -> Prop) : Prop :=
  forall tape,
    match m tape with
    | Done (a, _) => P a
    | Raise _ => False
    | Starved => True
    end.

(** Some sequence of draws makes the run return a result that satisfies [P],
    leaving whatever follows on the tape untouched. *)
Definition can_finish {A} (m : rnd A) (P : A -> Prop) : Prop :=
  exists prefix a, P a /\ forall rest, m (prefix ++ rest) = Done (a, rest).

Section Rules.
Context {A B : Type}.

Lemma ensures_ret (a : A) (P : A -> Prop) : P a -> ensures (ret a) P.
Proof. intros H tape. exact H. Qed.

Lemma ensures_bind (m : rnd A) (k : A -> rnd B) (P : A -> Prop) (Q : B -> Prop) :
  ensures m P -> (forall a, P a -> ensures (k a) Q) -> ensures (m ≫= k) Q.
Proof.
  intros Hm Hk tape. unfold mbind, rnd_bind, bind.
  specialize (Hm tape). destruct (m tape) as [[a tape']| |]; auto.
  apply Hk, Hm.
Qed.

Lemma ensures_ret_bind (a : A) (k : A -> rnd B) (Q : B -> Prop) :
  ensures (k a) Q -> ensures (ret a ≫= k) Q.
Proof. intros H tape. exact (H tape). Qed.

Lemma can_finish_ret_bind (a : A) (k : A -> rnd B) (Q : B -> Prop) :
  can_finish (k a) Q -> can_finish (ret a ≫= k) Q.
Proof. intros H. exact H. Qed.

Lemma ensures_lift_bind (o : outcome A) (a : A) (k : A -> rnd B) (Q : B -> Prop) :
  o = Done a -> ensures (k a) Q -> ensures (lift o ≫= k) Q.
Proof. intros -> H tape. exact (H tape). Qed.

Lemma can_finish_lift_bind (o : outcome A) (a : A) (k : A -> rnd B) (Q : B -> Prop) :
  o = Done a -> can_finish (k a) Q -> can_finish (lift o ≫= k) Q.
Proof. intros -> H. exact H. Qed.

Lemma ensures_weaken (m : rnd A) (P Q : A -> Prop) :
  ensures m P -> (forall a, P a -> Q a) -> ensures m Q.
Proof.
  intros Hm HPQ tape. specialize (Hm tape).
  destruct (m tape) as [[a tape']| |]; auto.
Qed.

Lemma ensures_lift (o : outcome A) (a : A) (P : A -> Prop) :
  o = Done a -> P a -> ensures (lift o) P.
Proof. intros -> H tape. exact H. Qed.

Lemma can_finish_ret (a : A) (P : A -> Prop) : P a -> can_finish (ret a) P.
Proof. intros H. exists [], a. split; [exact H | reflexivity]. Qed.

Lemma can_finish_bind (m : rnd A) (k : A -> rnd B) (P : A -> Prop) (Q : B -> Prop) :
  can_finish m P -> (forall a, P a -> can_finish (k a) Q) -> can_finish (m ≫= k) Q.
Proof.
  intros (p1 & a & Ha & Hm) Hk.
  destruct (Hk a Ha) as (p2 & b & Hb & Hkb).
  exists (p1 ++ p2), b. split; [exact Hb |].
  intros rest. unfold mbind, rnd_bind, bind.
  rewrite <- app_assoc, Hm. apply Hkb.
Qed.

Lemma can_finish_weaken (m : rnd A) (P Q : A -> Prop) :
  can_finish m P -> (forall a, P a -> Q a) -> can_finish m Q.
Proof. intros (p & a & Ha & Hm) HPQ. exists p, a. auto. Qed.

Lemma can_finish_lift (o : outcome A) (a : A) (P : A -> Prop) :
  o = Done a -> P a -> can_finish (lift o) P.
Proof. intros -> H. exists [], a. split; [exact H | reflexivity]. Qed.
End Rules.

Section Loops.
Context {S : Type}.

Lemma ensures_for_seq (body : nat -> S -> rnd S) (I : nat -> S -> Prop) len :
  forall a s,
    I a s ->
    (forall i s, a <= i < a + len -> I i s -> ensures (body i s) (I (1 + i))) ->
    ensures (for_each (seq a len) body s) (I (a + len)).
Proof.
  induction len as [|len IH]; intros a s Hs Hbody; simpl.
  - rewrite Nat.add_0_r. now apply ensures_ret.
  - eapply ensures_bind.
    + apply Hbody; [lia | exact Hs].
    + intros s' Hs'. replace (a + Datatypes.S len) with (Datatypes.S a + len) by lia.
      apply IH; [exact Hs' |]. intros i s'' Hi. apply Hbody. lia.
Qed.

Lemma ensures_for_range (body : nat -> S -> rnd S) (I : nat -> S -> Prop) len s :
  I 0 s ->
  (forall i s, i < len -> I i s -> ensures (body i s) (I (1 + i))) ->
  ensures (for_each (range len) body s) (I len).
Proof.
  intros H0 Hb. apply (ensures_for_seq body I len 0 s H0).
  intros i s' Hi. apply Hb. lia.
Qed.

Lemma can_finish_for_seq (body : nat -> S -> rnd S) (I : nat -> S -> Prop) len :
  forall a s,
    I a s ->
    (forall i s, a <= i < a + len -> I i s -> can_finish (body i s) (I (1 + i))) ->
    can_finish (for_each (seq a len) body s) (I (a + len)).
Proof.
  induction len as [|len IH]; intros a s Hs Hbody; simpl.
  - rewrite Nat.add_0_r. now apply can_finish_ret.
  - eapply can_finish_bind.
    + apply Hbody; [lia | exact Hs].
    + intros s' Hs'. replace (a + Datatypes.S len) with (Datatypes.S a + len) by lia.
      apply IH; [exact Hs' |]. intros i s'' Hi. apply Hbody. lia.
Qed.

Lemma can_finish_for_range (body : nat -> S -> rnd S) (I : nat -> S -> Prop) len s :
  I 0 s ->
  (forall i s, i < len -> I i s -> can_finish (body i s) (I (1 + i))) ->
  can_finish (for_each (range len) body s) (I len).
Proof.
  intros H0 Hb. apply (can_finish_for_seq body I len 0 s H0).
  intros i s' Hi. apply Hb. lia.
Qed.
End Loops.

(** The rejection loop accepts only draws that are not [bad]. *)
Lemma ensures_choice_until m bad :
  0 < m -> ensures (choice_until m bad) (fun x => x < m /\ bad x = false).
Proof.
  intros Hm tape. induction tape as [|x tape IH]; simpl.
  - destruct (Nat.eqb_spec m 0); [lia | exact I].
  - destruct (Nat.eqb_spec m 0); [lia |].
    destruct (bad (x mod m)) eqn:Hbad; [exact IH |].
    split; [apply Nat.mod_upper_bound; lia | exact Hbad].
Qed.

Lemma can_finish_choice_until m bad (P : nat -> Prop) x :
  x < m -> bad x = false -> P x -> can_finish (choice_until m bad) P.
Proof.
  intros Hx Hbad HP. exists [x], x. split; [exact HP |].
  intros rest. simpl. destruct (Nat.eqb_spec m 0); [lia |].
  rewrite Nat.mod_small by lia. now rewrite Hbad.
Qed.

(** * Exact float arithmetic on small integers

    Integers below [2^53] are doubles; on them the quotient of an exact
    division, the product and the sum are computed without rounding. *)

Module Float64Facts.
Import Float64.
Local Open Scope Z_scope.

Lemma digits2_pos_size p : digits2_pos p = Pos.size p.
Proof. induction p; simpl; congruence. Qed.

Lemma Zdigits2_bounds z : 0 < z -> 2 ^ (Zdigits2 z - 1) <= z < 2 ^ Zdigits2 z.
Proof.
  destruct z as [|p|p]; try lia. intros _.
  change (Zdigits2 (Z.pos p)) with (Z.pos (digits2_pos p)). rewrite digits2_pos_size.
  pose proof (Pos.size_le p) as Hle. pose proof (Pos.size_gt p) as Hgt.
  split.
  - assert (2 ^ Z.pos (Pos.size p) <= 2 * Z.pos p) as H.
    { change (2 * Z.pos p) with (Z.pos p~0). rewrite <- Pos2Z.inj_pow. now apply Pos2Z.pos_le_pos. }
    replace (Z.pos (Pos.size p)) with (Z.succ (Z.pos (Pos.size p) - 1)) in H by lia.
    rewrite Z.pow_succ_r in H by lia. lia.
  - rewrite <- Pos2Z.inj_pow. now apply Pos2Z.pos_lt_pos.
Qed.

Lemma Zdigits2_unique z d : 2 ^ (d - 1) <= z < 2 ^ d -> 0 < z -> Zdigits2 z = d.
Proof.
  intros [Hlo Hhi] Hz. pose proof (Zdigits2_bounds z Hz) as [Hlo' Hhi'].
  assert (0 < Zdigits2 z) as Hd by (destruct z; simpl; lia).
  assert (0 < d) as Hd'.
  { destruct d as [|d|d]; [change (2 ^ 0) with 1 in Hhi; lia | lia |].
    rewrite Z.pow_neg_r in Hhi by lia. lia. }
  destruct (Z.lt_trichotomy (Zdigits2 z) d) as [H|[H|H]]; [|assumption|].
  - exfalso. assert (2 ^ Zdigits2 z <= 2 ^ (d - 1)) by (apply Z.pow_le_mono_r; lia). lia.
  - exfalso. assert (2 ^ d <= 2 ^ (Zdigits2 z - 1)) by (apply Z.pow_le_mono_r; lia). lia.
Qed.

Lemma Zdigits2_shift q k : 0 < q -> 0 <= k -> Zdigits2 (q * 2 ^ k) = Zdigits2 q + k.
Proof.
  intros Hq Hk. pose proof (Zdigits2_bounds q Hq) as [Hlo Hhi].
  assert (0 < Zdigits2 q) as Hd by (destruct q; simpl; lia).
  assert (0 < 2 ^ k) by (apply Z.pow_pos_nonneg; lia).
  apply Zdigits2_unique; [| nia].
  replace (Zdigits2 q + k - 1) with ((Zdigits2 q - 1) + k) by lia.
  rewrite !Z.pow_add_r by lia. nia.
Qed.

Lemma Zdigits2_le x y : 0 < x <= y -> Zdigits2 x <= Zdigits2 y.
Proof.
  intros [Hx Hxy]. pose proof (Zdigits2_bounds x Hx) as [Hlo _].
  pose proof (Zdigits2_bounds y ltac:(lia)) as [_ Hhi].
  destruct (Z_le_gt_dec (Zdigits2 x) (Zdigits2 y)) as [|Hgt]; [assumption | exfalso].
  assert (2 ^ Zdigits2 y <= 2 ^ (Zdigits2 x - 1)).
  { apply Z.pow_le_mono_r; [lia |]. lia. }
  lia.
Qed.

Lemma shr_1_double z :
  shr_1 (Build_shr_record (2 * z) false false) = Build_shr_record z false false.
Proof. destruct z; reflexivity. Qed.

Lemma iter_shr_1_exact p : forall z,
  SpecFloat.iter_pos shr_1 p (Build_shr_record (z * 2 ^ Z.pos p) false false)
  = Build_shr_record z false false.
Proof.
  induction p as [p IH|p IH|]; intros z; cbn [SpecFloat.iter_pos].
  - replace (z * 2 ^ Z.pos p~1) with (2 * ((z * 2 ^ Z.pos p) * 2 ^ Z.pos p)).
    + now rewrite shr_1_double, !IH.
    + assert (Z.pos p~1 = Z.pos p + Z.pos p + 1) as -> by lia.
      rewrite !Z.pow_add_r by lia. ring.
  - replace (z * 2 ^ Z.pos p~0) with ((z * 2 ^ Z.pos p) * 2 ^ Z.pos p).
    + now rewrite !IH.
    + assert (Z.pos p~0 = Z.pos p + Z.pos p) as -> by lia.
      rewrite !Z.pow_add_r by lia. ring.
  - replace (z * 2 ^ 1) with (2 * z) by ring. apply shr_1_double.
Qed.

Lemma shr_exact z e n :
  0 <= n ->
  shr (Build_shr_record (z * 2 ^ n) false false) e n
  = (Build_shr_record z false false, e + n).
Proof.
  intros Hn. destruct n as [|p|p]; [| | lia].
  - cbn [shr]. now rewrite Z.mul_1_r, Z.add_0_r.
  - cbn [shr]. now rewrite iter_shr_1_exact.
Qed.

(** The double that holds the integer [q] exactly, for [0 <= q < 2^53]. *)
Definition canon (q : Z) : spec_float :=
  if q =? 0 then S754_zero false
  else S754_finite false (Z.to_pos (q * 2 ^ (prec - Zdigits2 q))) (Zdigits2 q - prec).

Lemma Zdigits2_small q : 0 < q < 2 ^ 53 -> 1 <= Zdigits2 q <= 53.
Proof.
  intros [Hq Hlt]. pose proof (Zdigits2_bounds q Hq) as [Hlo Hhi].
  split; [destruct q; simpl; lia |].
  destruct (Z_le_gt_dec (Zdigits2 q) 53) as [|Hgt]; [assumption | exfalso].
  assert (2 ^ 53 <= 2 ^ (Zdigits2 q - 1)) by (apply Z.pow_le_mono_r; lia). lia.
Qed.

Lemma fexp_small d : 1 <= d -> fexp prec emax d = d - 53.
Proof. intros Hd. unfold fexp, emin, prec, emax. lia. Qed.

Lemma round_exact q k :
  0 < q < 2 ^ 53 -> 53 - Zdigits2 q <= k ->
  binary_round_aux prec emax false (q * 2 ^ k) (- k) loc_Exact = canon q.
Proof.
  intros Hq Hk. pose proof (Zdigits2_small q Hq) as Hd.
  set (d := Zdigits2 q) in *.
  assert (0 <= k) as Hk0 by lia.
  unfold binary_round_aux, shr_fexp.
  rewrite Zdigits2_shift by lia. fold d.
  replace (d + k + - k) with d by lia. rewrite fexp_small by lia.
  cbn [shr_record_of_loc].
  replace (q * 2 ^ k) with ((q * 2 ^ (53 - d)) * 2 ^ (d - 53 - - k)).
  2:{ rewrite <- Z.mul_assoc, <- Z.pow_add_r by lia. f_equal. f_equal. lia. }
  rewrite shr_exact by lia.
  cbn [shr_m loc_of_shr_record round_nearest_even].
  rewrite Zdigits2_shift by lia. fold d.
  replace (- k + (d - 53 - - k)) with (d - 53) by lia.
  replace (d + (53 - d) + (d - 53)) with d by lia.
  rewrite fexp_small by lia. rewrite Z.sub_diag.
  cbn [shr shr_m].
  assert (0 < q * 2 ^ (53 - d)) as Hpos.
  { apply Z.mul_pos_pos; [lia | apply Z.pow_pos_nonneg; lia]. }
  unfold canon. destruct (Z.eqb_spec q 0); [lia |]. fold d. unfold prec, emax.
  destruct (q * 2 ^ (53 - d)) as [|m|m] eqn:Hm; try lia.
  destruct (Z.leb_spec (d - 53) (1024 - 53)); [| lia].
  reflexivity.
Qed.

Lemma canon_finite q :
  0 < q < 2 ^ 53 ->
  exists m, canon q = S754_finite false m (Zdigits2 q - 53)
            /\ Z.pos m = q * 2 ^ (53 - Zdigits2 q).
Proof.
  intros Hq. pose proof (Zdigits2_small q Hq) as Hd.
  unfold canon, prec. destruct (Z.eqb_spec q 0); [lia |].
  assert (0 < q * 2 ^ (53 - Zdigits2 q)) as Hpos.
  { apply Z.mul_pos_pos; [lia | apply Z.pow_pos_nonneg; lia]. }
  exists (Z.to_pos (q * 2 ^ (53 - Zdigits2 q))). split; [reflexivity |].
  now rewrite Z2Pos.id.
Qed.

Lemma to_int_canon q : 0 <= q < 2 ^ 53 -> to_int (canon q) = Done q.
Proof.
  intros Hq. destruct (Z.eq_dec q 0) as [->|Hne]; [reflexivity |].
  destruct (canon_finite q) as (m & -> & Hm); [lia |].
  pose proof (Zdigits2_small q ltac:(lia)) as Hd.
  cbn [to_int]. rewrite Hm. f_equal.
  destruct (Z.leb_spec 0 (Zdigits2 q - 53)).
  - replace (Zdigits2 q - 53) with 0 by lia.
    replace (53 - Zdigits2 q) with 0 by lia. simpl. lia.
  - replace (- (Zdigits2 q - 53)) with (53 - Zdigits2 q) by lia.
    apply Z.div_mul. apply Z.pow_nonzero; lia.
Qed.

Lemma pos_iter_xO p d : Z.pos (Pos.iter xO p d) = Z.pos p * 2 ^ Z.pos d.
Proof.
  induction d as [|d IH] using Pos.peano_ind.
  - simpl. lia.
  - rewrite Pos.iter_succ, Pos2Z.inj_xO, IH, Pos2Z.inj_succ, Z.pow_succ_r by lia. ring.
Qed.

Lemma checked_canon q : checked (canon q) = Done (canon q).
Proof. unfold canon. now destruct (q =? 0). Qed.

Lemma normalize_canon q :
  0 <= q < 2 ^ 53 -> binary_normalize prec emax q 0 false = canon q.
Proof.
  intros Hq. destruct q as [|p|p]; [reflexivity | | lia].
  pose proof (Zdigits2_small (Z.pos p) ltac:(lia)) as Hd.
  cbn [binary_normalize]. unfold binary_round, shl_align.
  change (Z.pos (digits2_pos p)) with (Zdigits2 (Z.pos p)).
  rewrite Z.add_0_r, fexp_small, Z.sub_0_r by lia.
  destruct (Zdigits2 (Z.pos p) - 53) as [|e|e] eqn:He; [| lia |].
  - rewrite <- (round_exact (Z.pos p) 0) by lia.
    now rewrite Z.mul_1_r.
  - rewrite pos_iter_xO.
    rewrite <- (round_exact (Z.pos p) (Z.pos e)) by lia. reflexivity.
Qed.

Lemma of_int_canon q : 0 <= q < 2 ^ 53 -> of_int q = Done (canon q).
Proof.
  intros Hq. unfold of_int. rewrite normalize_canon by exact Hq. apply checked_canon.
Qed.

Lemma truediv_exact q b :
  0 <= q < 2 ^ 53 -> 0 < b -> truediv (q * b) b = Done (canon q).
Proof.
  intros Hq Hb. unfold truediv.
  destruct (Z.eqb_spec b 0); [lia |].
  destruct (Z.eqb_spec (q * b) 0) as [Hz|Hnz].
  { assert (q = 0) as -> by nia. destruct (Z.ltb_spec b 0); [lia | reflexivity]. }
  assert (0 < q) as Hq0 by nia.
  pose proof (Zdigits2_small q ltac:(lia)) as Hd.
  assert (0 < q * b) as Hqb by nia.
  rewrite !Z.abs_eq by lia.
  destruct (Z.ltb_spec (q * b) 0); [lia |]. destruct (Z.ltb_spec b 0); [lia |].
  unfold SFdiv_core_binary.
  rewrite !Z.add_0_r, Z.sub_0_r.
  set (e' := Z.min (fexp prec emax (Zdigits2 (q * b) - Zdigits2 b)) 0).
  assert (e' <= 0) as He' by (unfold e'; lia).
  assert (53 - Zdigits2 q <= - e') as Hk.
  { pose proof (Zdigits2_bounds q Hq0) as [_ Hq1].
    pose proof (Zdigits2_bounds b Hb) as [_ Hb1].
    pose proof (Zdigits2_bounds (q * b) Hqb) as [Hqb1 _].
    assert (0 < Zdigits2 b) by (destruct b; simpl; lia).
    assert (Zdigits2 (q * b) <= Zdigits2 q + Zdigits2 b).
    { destruct (Z_le_gt_dec (Zdigits2 (q * b)) (Zdigits2 q + Zdigits2 b));
        [assumption | exfalso].
      assert (2 ^ (Zdigits2 q + Zdigits2 b) <= 2 ^ (Zdigits2 (q * b) - 1))
        by (apply Z.pow_le_mono_r; lia).
      rewrite Z.pow_add_r in * by lia. nia. }
    unfold e', fexp, emin, prec, emax. lia. }
  replace (0 - e') with (- e') by lia.
  assert ((match - e' with
           | 0 => q * b
           | Z.pos _ => Z.shiftl (q * b) (- e')
           | Z.neg _ => 0
           end) = (q * 2 ^ (- e')) * b) as ->.
  { destruct (- e') as [|s|s] eqn:Hs; [simpl; ring | | lia].
    rewrite Z.shiftl_mul_pow2 by lia. ring. }
  destruct (Z.div_eucl (q * 2 ^ (- e') * b) b) as [q' r'] eqn:Hdiv.
  assert (q' = q * 2 ^ (- e')) as ->.
  { change q' with (fst (q', r')). rewrite <- Hdiv.
    change (fst (Z.div_eucl ?x ?y)) with (x / y). apply Z.div_mul. lia. }
  assert (r' = 0) as ->.
  { change r' with (snd (q * 2 ^ (- e'), r')). rewrite <- Hdiv.
    change (snd (Z.div_eucl ?x ?y)) with (x mod y). apply Z.mod_mul. lia. }
  assert (new_location b 0 = loc_Exact) as ->.
  { unfold new_location. now destruct (Z.even b). }
  cbn [xorb]. rewrite <- (Z.opp_involutive e') at 2.
  rewrite round_exact by lia. apply checked_canon.
Qed.

Lemma SFmul_canon a b :
  0 <= a -> 0 <= b -> a * b < 2 ^ 53 ->
  SFmul prec emax (canon a) (canon b) = canon (a * b).
Proof.
  intros Ha Hb Hab.
  destruct (Z.eq_dec a 0) as [->|Hna].
  { unfold canon at 1. cbn [Z.eqb Z.mul]. unfold canon. now destruct (b =? 0). }
  destruct (Z.eq_dec b 0) as [->|Hnb].
  { rewrite Z.mul_0_r. unfold canon at 2. cbn [Z.eqb]. unfold canon.
    destruct (Z.eqb_spec a 0); [lia | reflexivity]. }
  assert (0 < a < 2 ^ 53) as Ha' by nia. assert (0 < b < 2 ^ 53) as Hb' by nia.
  destruct (canon_finite a Ha') as (ma & -> & Hma).
  destruct (canon_finite b Hb') as (mb & -> & Hmb).
  pose proof (Zdigits2_small a Ha') as Hda. pose proof (Zdigits2_small b Hb') as Hdb.
  pose proof (Zdigits2_small (a * b) ltac:(nia)) as Hdab.
  cbn [SFmul xorb]. rewrite Pos2Z.inj_mul, Hma, Hmb.
  set (k := (53 - Zdigits2 a) + (53 - Zdigits2 b)).
  replace (a * 2 ^ (53 - Zdigits2 a) * (b * 2 ^ (53 - Zdigits2 b)))
    with ((a * b) * 2 ^ k).
  2:{ unfold k. rewrite Z.pow_add_r by lia. ring. }
  replace (Zdigits2 a - 53 + (Zdigits2 b - 53)) with (- k) by (unfold k; lia).
  apply round_exact; [nia |]. unfold k.
  pose proof (Zdigits2_le b (a * b) ltac:(nia)). lia.
Qed.

Lemma SFadd_canon a b :
  0 <= a -> 0 <= b -> a + b < 2 ^ 53 ->
  SFadd prec emax (canon a) (canon b) = canon (a + b).
Proof.
  intros Ha Hb Hab.
  destruct (Z.eq_dec a 0) as [->|Hna].
  { rewrite Z.add_0_l. unfold canon at 1. cbn [Z.eqb]. unfold canon.
    now destruct (b =? 0). }
  destruct (Z.eq_dec b 0) as [->|Hnb].
  { rewrite Z.add_0_r. unfold canon at 2. cbn [Z.eqb]. unfold canon.
    destruct (Z.eqb_spec a 0); [lia | reflexivity]. }
  assert (0 < a < 2 ^ 53) as Ha' by lia. assert (0 < b < 2 ^ 53) as Hb' by lia.
  destruct (canon_finite a Ha') as (ma & -> & Hma).
  destruct (canon_finite b Hb') as (mb & -> & Hmb).
  pose proof (Zdigits2_small a Ha') as Hda. pose proof (Zdigits2_small b Hb') as Hdb.
  pose proof (Zdigits2_small (a + b) ltac:(lia)) as Hdab.
  pose proof (Zdigits2_le a (a + b) ltac:(lia)) as Hle1.
  pose proof (Zdigits2_le b (a + b) ltac:(lia)) as Hle2.
  cbn [SFadd cond_Zopp].
  set (ea := Zdigits2 a - 53) in *. set (eb := Zdigits2 b - 53) in *.
  set (ez := Z.min ea eb).
  assert (forall m e x, Z.pos m = x * 2 ^ (- e) -> ez <= e -> e <= 0 ->
            Z.pos (fst (shl_align m e ez)) = x * 2 ^ (- ez)) as Halign.
  { intros m e x Hm Hez He. unfold shl_align.
    destruct (ez - e) as [|d|d] eqn:Hd; cbn [fst].
    - replace ez with e by lia. exact Hm.
    - lia.
    - rewrite pos_iter_xO, Hm, <- Z.mul_assoc, <- Z.pow_add_r by lia.
      f_equal. f_equal. lia. }
  rewrite (Halign ma ea a), (Halign mb eb b);
    try (unfold ez; lia);
    try (unfold ea; replace (- (Zdigits2 a - 53)) with (53 - Zdigits2 a) by lia; assumption);
    try (unfold eb; replace (- (Zdigits2 b - 53)) with (53 - Zdigits2 b) by lia; assumption).
  rewrite <- Z.mul_add_distr_r.
  assert (0 < (a + b) * 2 ^ (- ez)) as Hpos.
  { apply Z.mul_pos_pos; [lia | apply Z.pow_pos_nonneg; unfold ez; lia]. }
  destruct ((a + b) * 2 ^ (- ez)) as [|s|s] eqn:Hs; try lia.
  cbn [binary_normalize]. unfold binary_round, shl_align.
  change (Z.pos (digits2_pos s)) with (Zdigits2 (Z.pos s)).
  rewrite <- Hs, Zdigits2_shift by (unfold ez; lia).
  replace (Zdigits2 (a + b) + - ez + ez) with (Zdigits2 (a + b)) by lia.
  rewrite fexp_small by lia.
  destruct (Zdigits2 (a + b) - 53 - ez) as [|d|d] eqn:Hd; try (unfold ez in *; lia).
  - cbv beta iota. rewrite <- Hs. rewrite <- (Z.opp_involutive ez) at 2.
    apply round_exact; unfold ez; lia.
  - cbv beta iota. rewrite <- Hs. rewrite <- (Z.opp_involutive ez) at 2.
    apply round_exact; unfold ez; lia.
Qed.

End Float64Facts.

Lemma int_div_exact q b :
  0 < b -> (Z.of_nat q < 2 ^ 53)%Z -> int_div (q * b) b = Done q.
Proof.
  intros Hb Hq. unfold int_div.
  rewrite Nat2Z.inj_mul, Float64Facts.truediv_exact by lia. cbn [obind].
  rewrite Float64Facts.to_int_canon by lia. cbn [obind].
  now rewrite Nat2Z.id.
Qed.

Lemma int_div_mul_exact q b c :
  0 < b -> (Z.of_nat (q * c) < 2 ^ 53)%Z -> (Z.of_nat q < 2 ^ 53)%Z ->
  (Z.of_nat c < 2 ^ 53)%Z ->
  int_div_mul (q * b) b c = Done (q * c).
Proof.
  intros Hb Hqc Hq Hc. unfold int_div_mul.
  rewrite Nat2Z.inj_mul, Float64Facts.truediv_exact by lia. cbn [obind].
  unfold Float64.mul_int. rewrite Float64Facts.of_int_canon by lia.
  rewrite Float64Facts.SFmul_canon by lia. cbn [obind].
  rewrite Float64Facts.to_int_canon by lia. cbn [obind].
  now rewrite <- Nat2Z.inj_mul, Nat2Z.id.
Qed.

Lemma int_div_add_exact q b j :
  0 < b -> (Z.of_nat (q + j) < 2 ^ 53)%Z ->
  int_div_add (q * b) b j = Done (q + j).
Proof.
  intros Hb Hq. unfold int_div_add.
  rewrite Nat2Z.inj_mul, Float64Facts.truediv_exact by lia. cbn [obind].
  unfold Float64.add_int. rewrite Float64Facts.of_int_canon by lia.
  rewrite Float64Facts.SFadd_canon by lia. cbn [obind].
  rewrite Float64Facts.to_int_canon by lia. cbn [obind].
  now rewrite <- Nat2Z.inj_add, Nat2Z.id.
Qed.

(** * The populate constructions *)

Lemma lookup_empty_rows h i :
  empty_rows h !! i = if decide (i < h) then Some [] else None.
Proof.
  induction h as [|h IH]; simpl.
  - rewrite lookup_empty. now destruct (decide (i < 0)); [lia|].
  - destruct (decide (h = i)) as [->|Hne].
    + rewrite lookup_insert_eq. destruct (decide (i < S i)); [reflexivity | lia].
    + rewrite lookup_insert_ne by exact Hne. rewrite IH.
      destruct (decide (i < h)), (decide (i < S h)); try reflexivity; lia.
Qed.

Lemma count_NoDup row x :
  NoDup row -> count row x = if decide (x ∈ row) then 1 else 0.
Proof.
  intros Hnd. unfold count. destruct (decide (x ∈ row)) as [Hin|Hin].
  - apply NoDup_ListNoDup in Hnd. apply list_elem_of_In in Hin.
    pose proof (proj1 (NoDup_count_occ Nat.eq_dec row) Hnd x) as Hle.
    apply (count_occ_In Nat.eq_dec) in Hin. lia.
  - apply count_occ_not_In. now rewrite <- list_elem_of_In.
Qed.

(** A duplicate-free list of indices below [m] that is shorter than [m]
    misses some index. *)
Lemma free_index (row : list nat) m :
  NoDup row -> length row < m -> exists x, x < m /\ x ∉ row.
Proof.
  intros Hnd Hlen.
  destruct (decide (Forall (fun x => x ∈ row) (seq 0 m))) as [Hall|Hnot].
  - exfalso. assert (length (seq 0 m) <= length row) as Hle.
    { apply submseteq_length, NoDup_submseteq; [apply NoDup_seq |].
      intros x Hx. rewrite Forall_forall in Hall. now apply Hall. }
    rewrite length_seq in Hle. lia.
  - apply not_Forall_Exists in Hnot; [| intros x; apply _].
    apply Exists_exists in Hnot as (x & Hx & Hfree).
    exists x. split; [| exact Hfree].
    apply elem_of_seq in Hx. lia.
Qed.

Module PopulateFacts.
Import RegularLDPC.

Lemma scan_le row avail : scan row avail <= length avail.
Proof.
  induction avail as [|a rest IH]; simpl; [lia |].
  destruct (count row a =? 1); lia.
Qed.

Lemma scan_stops row avail :
  scan row avail < length avail -> count row (nth (scan row avail) avail 0) <> 1.
Proof.
  induction avail as [|a rest IH]; simpl; [lia |].
  destruct (Nat.eqb_spec (count row a) 1) as [Heq|Hne]; simpl.
  - intros H. apply IH. lia.
  - intros _. exact Hne.
Qed.

Section Invariant.
Variables rows per_row m k : nat.
Hypothesis fits : per_row <= m.

(** While slot [j] of row [i] is about to be filled. *)
Record inv (i j : nat) (st : state) : Prop := Inv {
  inv_budget : length (available_indices st) + placed_entries st = k;
  inv_pool : Forall (fun a => a < m) (available_indices st);
  inv_dom : forall i', is_Some (st_graph st !! i') <-> i' < rows;
  inv_rows : forall i' row, st_graph st !! i' = Some row ->
    NoDup row /\ Forall (fun x => x < m) row /\
    length row = if decide (i' < i) then per_row
                 else if decide (i' = i) then j else 0
}.

Lemma inv_next_row i st : inv i per_row st -> inv (S i) 0 st.
Proof.
  intros [Hb Hp Hd Hr]. split; auto.
  intros i' row Hrow. destruct (Hr i' row Hrow) as (Hnd & Hlt & Hlen).
  repeat split; auto. rewrite Hlen.
  repeat case_decide; try reflexivity; lia.
Qed.

(** Appending a fresh index to row [i] keeps the invariant. *)
Lemma inv_append i j st row x avail' placed' :
  inv i j st -> st_graph st !! i = Some row ->
  x < m -> x ∉ row ->
  length avail' + placed' = k -> Forall (fun a => a < m) avail' ->
  inv i (S j) (State (<[i := row ++ [x]]> (st_graph st)) avail' placed').
Proof.
  intros [Hb Hp Hd Hr] Hrow Hx Hfresh Hb' Hp'. split; simpl; auto.
  - intros i'. destruct (decide (i = i')) as [<-|Hne].
    + rewrite lookup_insert_eq. rewrite <- Hd, Hrow. split; eauto.
    + rewrite lookup_insert_ne by exact Hne. apply Hd.
  - intros i' row'. destruct (decide (i = i')) as [<-|Hne].
    + rewrite lookup_insert_eq. intros [= <-].
      destruct (Hr i row Hrow) as (Hnd & Hlt & Hlen).
      repeat split.
      * apply NoDup_app. repeat split; auto.
        -- intros y Hy Hy'. apply list_elem_of_singleton in Hy'. now subst.
        -- apply NoDup_singleton.
      * apply Forall_app. split; [exact Hlt | now constructor].
      * rewrite length_app, Hlen. simpl.
        repeat case_decide; try lia.
    + rewrite lookup_insert_ne by exact Hne. intros Hrow'.
      destruct (Hr i' row' Hrow') as (Hnd & Hlt & Hlen).
      repeat split; auto. rewrite Hlen.
      repeat case_decide; try reflexivity; lia.
Qed.

Lemma ensures_place i j st :
  i < rows -> j < per_row -> inv i j st ->
  ensures (place m k i st) (inv i (S j)).
Proof.
  intros Hi Hj Hinv. pose proof Hinv as [Hb Hp Hd Hr].
  unfold place, get_row.
  destruct (st_graph st !! i) as [row|] eqn:Hrow.
  2:{ exfalso. apply Hd in Hi. rewrite Hrow in Hi. now destruct Hi. }
  destruct (Hr i row Hrow) as (Hnd & Hlt & Hlen).
  assert (length row = j) as Hlenj.
  { rewrite Hlen. repeat case_decide; try lia. }
  apply ensures_ret_bind.
  destruct (Nat.eqb_spec (scan row (available_indices st) + placed_entries st) k)
    as [Hfull|Hsome].
  - eapply ensures_bind; [apply ensures_choice_until; lia |].
    intros x [Hx Hbad]. apply ensures_ret.
    apply inv_append; auto.
    rewrite count_NoDup in Hbad by exact Hnd.
    case_decide; [discriminate | assumption].
  - pose proof (scan_le row (available_indices st)) as Hle.
    pose proof (scan_stops row (available_indices st)) as Hstop.
    set (avail := available_indices st) in *.
    assert (0 < length avail) as Hne by lia.
    eapply ensures_bind; [apply ensures_choice_until; exact Hne |].
    intros x [Hx Hbad]. apply ensures_ret.
    assert (nth x avail 0 ∈ avail) as Hmem.
    { apply list_elem_of_In, nth_In. exact Hx. }
    apply inv_append; auto.
    + rewrite Forall_forall in Hp. now apply Hp.
    + apply andb_false_iff in Hbad as [Hfree|Hone].
      * apply negb_false_iff, Nat.eqb_eq in Hfree.
        rewrite count_NoDup in Hfree by exact Hnd.
        case_decide; [discriminate | assumption].
      * apply Nat.ltb_ge in Hone.
        assert (x = 0) as -> by lia.
        assert (scan row avail = 0) as Hz by lia.
        rewrite Hz in Hstop. specialize (Hstop Hne).
        rewrite count_NoDup in Hstop by exact Hnd.
        case_decide; [congruence | assumption].
    + rewrite length_delete by (apply lookup_lt_is_Some_2; exact Hx). lia.
    + apply Forall_delete. exact Hp.
Qed.

Lemma can_finish_place i j st :
  i < rows -> j < per_row -> inv i j st ->
  can_finish (place m k i st) (inv i (S j)).
Proof.
  intros Hi Hj Hinv. pose proof Hinv as [Hb Hp Hd Hr].
  unfold place, get_row.
  destruct (st_graph st !! i) as [row|] eqn:Hrow.
  2:{ exfalso. apply Hd in Hi. rewrite Hrow in Hi. now destruct Hi. }
  destruct (Hr i row Hrow) as (Hnd & Hlt & Hlen).
  assert (length row = j) as Hlenj.
  { rewrite Hlen. repeat case_decide; try lia. }
  apply can_finish_ret_bind.
  destruct (Nat.eqb_spec (scan row (available_indices st) + placed_entries st) k)
    as [Hfull|Hsome].
  - destruct (free_index row m Hnd) as (x & Hx & Hfree); [lia |].
    eapply can_finish_bind.
    + apply (can_finish_choice_until m _ (fun y => y = x) x); auto.
      rewrite count_NoDup by exact Hnd. now rewrite decide_False.
    + intros ? ->. apply can_finish_ret. apply inv_append; auto.
  - pose proof (scan_le row (available_indices st)) as Hle.
    pose proof (scan_stops row (available_indices st)) as Hstop.
    set (avail := available_indices st) in *.
    assert (scan row avail < length avail) as Hl by lia.
    specialize (Hstop Hl).
    rewrite count_NoDup in Hstop by exact Hnd.
    assert (nth (scan row avail) avail 0 ∉ row) as Hfree.
    { case_decide; [congruence | assumption]. }
    eapply can_finish_bind.
    + apply (can_finish_choice_until _ _ (fun y => y = scan row avail)
               (scan row avail)); auto.
      rewrite count_NoDup by exact Hnd. now rewrite decide_False.
    + intros ? ->. apply can_finish_ret. apply inv_append; auto.
      * rewrite Forall_forall in Hp. apply Hp.
        apply list_elem_of_In, nth_In. exact Hl.
      * rewrite length_delete by (apply lookup_lt_is_Some_2; exact Hl). lia.
      * apply Forall_delete. exact Hp.
Qed.
End Invariant.
End PopulateFacts.

Module PopulateResult.
Import RegularLDPC PopulateFacts.

(** What the placement loop leaves behind: [rows] rows of [per_row] distinct
    indices below [m]. *)
Definition regular_rows (rows per_row m : nat) (g : graph) : Prop :=
  (forall i, is_Some (g !! i) <-> i < rows) /\
  (forall i row, g !! i = Some row ->
     length row = per_row /\ NoDup row /\ Forall (fun x => x < m) row).

Lemma fill_available_ok k m :
  k = 0 \/ 0 < m ->
  exists avail, fill_available k m = Done avail /\ length avail = k /\
                Forall (fun a => a < m) avail.
Proof.
  intros Hkm. unfold fill_available.
  destruct ((0 <? k) && (m =? 0)) eqn:Hbad.
  - apply andb_true_iff in Hbad as [Hk Hm].
    apply Nat.ltb_lt in Hk. apply Nat.eqb_eq in Hm. lia.
  - eexists. split; [reflexivity |]. split.
    + unfold range. now rewrite length_map, length_rev, length_seq.
    + apply Forall_map, Forall_forall. intros i Hi. simpl.
      apply list_elem_of_In, in_rev, in_seq in Hi.
      apply Nat.mod_upper_bound. lia.
Qed.

Lemma inv_start rows per_row m k avail :
  length avail = k -> Forall (fun a => a < m) avail ->
  inv rows per_row m k 0 0 (State (empty_rows rows) avail 0).
Proof.
  intros Hlen Hpool. split; simpl; auto.
  - lia.
  - intros i. rewrite lookup_empty_rows. case_decide; split; intros H'; try done.
  - intros i row. rewrite lookup_empty_rows. case_decide; [| done].
    intros [= <-]. repeat split; [constructor | constructor |].
    simpl. repeat case_decide; lia.
Qed.

Lemma inv_end rows per_row m k st :
  inv rows per_row m k rows 0 st -> regular_rows rows per_row m (st_graph st).
Proof.
  intros [Hb Hp Hd Hr]. split; [exact Hd |].
  intros i row Hrow. destruct (Hr i row Hrow) as (Hnd & Hlt & Hlen).
  assert (i < rows) as Hi by (apply Hd; eauto).
  repeat split; auto. rewrite Hlen. case_decide; [reflexivity | lia].
Qed.

Lemma ensures_populate rows per_row m k :
  rows = 0 \/ per_row <= m -> k = 0 \/ 0 < m ->
  ensures (populate rows per_row m k) (regular_rows rows per_row m).
Proof.
  intros Hfit Hkm. unfold populate.
  destruct (fill_available_ok k m Hkm) as (avail & Hfill & Hlen & Hpool).
  apply (ensures_lift_bind _ _ _ _ Hfill).
  apply (ensures_bind _ _ (fun st => inv rows per_row m k rows 0 st));
    [| intros st Hst; apply ensures_ret, (inv_end _ _ _ _ _ Hst)].
  apply (ensures_for_range _ (fun i st => inv rows per_row m k i 0 st)).
  { now apply inv_start. }
  intros i st Hi Hinv. destruct Hfit as [-> | Hfit]; [lia |].
  eapply ensures_weaken; [| intros st'; now apply inv_next_row].
  apply (ensures_for_range _ (fun j st => inv rows per_row m k i j st)); [exact Hinv |].
  intros j st' Hj Hinv'. now apply ensures_place.
Qed.

Lemma can_finish_populate rows per_row m k :
  rows = 0 \/ per_row <= m -> k = 0 \/ 0 < m ->
  can_finish (populate rows per_row m k) (regular_rows rows per_row m).
Proof.
  intros Hfit Hkm. unfold populate.
  destruct (fill_available_ok k m Hkm) as (avail & Hfill & Hlen & Hpool).
  apply (can_finish_lift_bind _ _ _ _ Hfill).
  apply (can_finish_bind _ _ (fun st => inv rows per_row m k rows 0 st));
    [| intros st Hst; apply can_finish_ret, (inv_end _ _ _ _ _ Hst)].
  apply (can_finish_for_range _ (fun i st => inv rows per_row m k i 0 st)).
  { now apply inv_start. }
  intros i st Hi Hinv. destruct Hfit as [-> | Hfit]; [lia |].
  eapply can_finish_weaken; [| intros st'; now apply inv_next_row].
  apply (can_finish_for_range _ (fun j st => inv rows per_row m k i j st)); [exact Hinv |].
  intros j st' Hj Hinv'. now apply can_finish_place.
Qed.

(** The row count of the populate-rows construction when [r] divides [n]. *)
Lemma height_exact n r c :
  0 < r -> n mod r = 0 -> (Z.of_nat (n * c) < 2 ^ 53)%Z ->
  int_div (n * c) r = Done (n * c / r).
Proof.
  intros Hr Hmod Hbound.
  assert (n = n / r * r) as Hn.
  { pose proof (Nat.div_mod_eq n r). lia. }
  assert (n * c = (n / r * c) * r) as Hnc by (rewrite Hn at 1; lia).
  assert (n * c / r = n / r * c) as Hq.
  { rewrite Hnc. apply Nat.div_mul. lia. }
  rewrite Hq. rewrite Hnc at 1. apply int_div_exact; [exact Hr |].
  assert (n / r * c <= n * c) by nia. lia.
Qed.

Lemma populate_rows_with_height n r c h :
  int_div (n * c) r = Done h -> h = 0 \/ r <= n ->
  ensures (populate_rows n r c) (regular_rows h r n) /\
  can_finish (populate_rows n r c) (regular_rows h r n).
Proof.
  intros Hh Hfit. unfold populate_rows.
  assert (n * c = 0 \/ 0 < n) as Hkm by lia.
  split.
  - apply (ensures_lift_bind _ _ _ _ Hh). now apply ensures_populate.
  - apply (can_finish_lift_bind _ _ _ _ Hh). now apply can_finish_populate.
Qed.

Lemma populate_rows_spec n r c :
  0 < r -> n mod r = 0 -> (Z.of_nat (n * c) < 2 ^ 53)%Z ->
  ensures (populate_rows n r c) (regular_rows (n * c / r) r n) /\
  can_finish (populate_rows n r c) (regular_rows (n * c / r) r n).
Proof.
  intros Hr Hmod Hbound.
  apply populate_rows_with_height; [now apply height_exact |].
  destruct (Nat.eq_dec n 0) as [-> | Hn]; [left; now rewrite Nat.mul_0_l, Nat.Div0.div_0_l |].
  right. pose proof (Nat.div_mod_eq n r).
  destruct (n / r) eqn:Hq; nia.
Qed.

End PopulateResult.

(** * Results, whatever else may happen

    [returns m P]: whenever the run returns, the result satisfies [P]. *)
Definition returns {A} (m : rnd A) (P : A -> Prop) : Prop :=
  forall tape a rest, m tape = Done (a, rest) -> P a.

Section ReturnRules.
Context {A B : Type}.

Lemma returns_ret (a : A) (P : A -> Prop) : P a -> returns (ret a) P.
Proof. intros H tape a' rest [= <- _]. exact H. Qed.

Lemma returns_raise (e : exn) (P : A -> Prop) : returns (raise e) P.
Proof. intros tape a rest [=]. Qed.

Lemma returns_starve (P : A -> Prop) : returns starve P.
Proof. intros tape a rest [=]. Qed.

Lemma returns_any (m : rnd A) : returns m (fun _ => True).
Proof. intros tape a rest _. exact I. Qed.

Lemma returns_bind (m : rnd A) (k : A -> rnd B) (P : A -> Prop) (Q : B -> Prop) :
  returns m P -> (forall a, P a -> returns (k a) Q) -> returns (m ≫= k) Q.
Proof.
  intros Hm Hk tape b rest. unfold mbind, rnd_bind, bind.
  destruct (m tape) as [[a tape']| |] eqn:Hrun; [| discriminate | discriminate].
  apply Hk. exact (Hm _ _ _ Hrun).
Qed.

Lemma returns_ret_bind (a : A) (k : A -> rnd B) (Q : B -> Prop) :
  returns (k a) Q -> returns (ret a ≫= k) Q.
Proof. intros H. exact H. Qed.

Lemma returns_lift_bind (o : outcome A) (a : A) (k : A -> rnd B) (Q : B -> Prop) :
  o = Done a -> returns (k a) Q -> returns (lift o ≫= k) Q.
Proof. intros -> H. exact H. Qed.

Lemma returns_weaken (m : rnd A) (P Q : A -> Prop) :
  returns m P -> (forall a, P a -> Q a) -> returns m Q.
Proof. intros Hm HPQ tape a rest Hrun. exact (HPQ _ (Hm _ _ _ Hrun)). Qed.

Lemma returns_lift (o : outcome A) (P : A -> Prop) :
  (forall a, o = Done a -> P a) -> returns (lift o) P.
Proof.
  intros H tape a rest. unfold lift. destruct o; [| discriminate | discriminate].
  intros [= <- _]. now apply H.
Qed.

Lemma ensures_returns (m : rnd A) (P : A -> Prop) : ensures m P -> returns m P.
Proof. intros H tape a rest Hrun. specialize (H tape). now rewrite Hrun in H. Qed.
End ReturnRules.

Section ReturnLoops.
Context {X S : Type}.

(** A loop invariant that every pass keeps holds when the loop returns. *)
Lemma returns_for_each (xs : list X) (body : X -> S -> rnd S) (I : S -> Prop) :
  (forall x s, x ∈ xs -> I s -> returns (body x s) I) ->
  forall s, I s -> returns (for_each xs body s) I.
Proof.
  induction xs as [|x xs IH]; intros Hbody s Hs; simpl.
  - now apply returns_ret.
  - eapply returns_bind.
    + apply Hbody; [left | exact Hs].
    + intros s' Hs'. apply IH; [| exact Hs'].
      intros y s'' Hy. apply Hbody. now right.
Qed.
End ReturnLoops.

Module PopulateKeys.
Import RegularLDPC.

(** The placement loop never adds or removes a key. *)
Lemma returns_place_keys m k i st (keys : nat -> Prop) :
  (forall i', is_Some (st_graph st !! i') <-> keys i') ->
  returns (place m k i st)
    (fun st' => forall i', is_Some (st_graph st' !! i') <-> keys i').
Proof.
  intros Hkeys. unfold place, get_row.
  destruct (st_graph st !! i) as [row|] eqn:Hrow; [| apply returns_raise].
  assert (forall v i', is_Some (<[i := v]> (st_graph st) !! i') <-> keys i') as Hins.
  { intros v i'. destruct (decide (i = i')) as [<-|Hne].
    - rewrite lookup_insert_eq, <- Hkeys, Hrow. split; eauto.
    - rewrite lookup_insert_ne by exact Hne. apply Hkeys. }
  apply returns_ret_bind.
  destruct (_ =? k).
  - eapply returns_bind; [apply returns_any |]. intros x _.
    apply returns_ret. simpl. apply Hins.
  - eapply returns_bind; [apply returns_any |]. intros x _.
    apply returns_ret. simpl. apply Hins.
Qed.

Lemma returns_populate_keys rows per_row m k :
  returns (populate rows per_row m k)
    (fun g => forall i, is_Some (g !! i) <-> i < rows).
Proof.
  unfold populate.
  eapply returns_bind; [apply returns_any |]. intros avail _.
  eapply returns_bind.
  - apply (returns_for_each _ _
             (fun st => forall i, is_Some (st_graph st !! i) <-> i < rows)).
    + intros i st _ Hst.
      apply (returns_for_each _ _
               (fun st => forall i, is_Some (st_graph st !! i) <-> i < rows));
        [| exact Hst].
      intros j st' _ Hst'. now apply returns_place_keys.
    + intros i. simpl. rewrite lookup_empty_rows.
      case_decide; split; intros H'; done.
  - intros st Hst. now apply returns_ret.
Qed.

(** A dictionary whose keys are [0 .. h-1] has [h] entries. *)
Lemma size_keys (g : graph) h :
  (forall i, is_Some (g !! i) <-> i < h) -> size g = h.
Proof.
  intros Hkeys. rewrite <- size_dom.
  assert (dom g = set_seq 0 h) as ->.
  { apply set_eq. intros i. rewrite elem_of_dom, elem_of_set_seq, Hkeys. lia. }
  apply size_set_seq.
Qed.

End PopulateKeys.

(** * The cyclic submatrix *)

Module CyclicFacts.
Import ProtographLDPC.

(** The list the loop has shifted [a] times. *)
Definition shifted_by (w : nat) (L : list nat) (a : nat) : list nat :=
  Nat.iter a (fun row => TannerGraph.right_shift_row row w) L.

(** After [i] passes the rows below [i] are written, row [j] with the seed
    shifted [j] times, and the list in hand is the seed shifted [i] times. *)
Record cyclic_inv (w : nat) (L : list nat) (g : TannerGraph.t) (i : nat)
  (st : TannerGraph.t * list nat) : Prop := {
  cyc_width : TannerGraph.width st.1 = TannerGraph.width g;
  cyc_height : TannerGraph.height st.1 = TannerGraph.height g;
  cyc_rows : forall j,
    TannerGraph.tanner_graph st.1 !! j =
      if decide (j < i) then Some (shifted_by w L j)
      else TannerGraph.tanner_graph g !! j;
  cyc_first : st.2 = shifted_by w L i
}.

Lemma cyclic_inv_step w L g i st :
  cyclic_inv w L g i st -> cyclic_inv w L g (S i) (cyclic_step w st i).
Proof.
  destruct st as [graph first]. intros [Hw Hh Hrows Hfirst].
  cbn [fst snd] in *. subst first.
  split; cbn [cyclic_step fst snd TannerGraph.put TannerGraph.tanner_graph
              TannerGraph.width TannerGraph.height]; auto.
  intros j. destruct (decide (i = j)) as [<- | Hne].
  - rewrite lookup_insert_eq. now rewrite decide_True by lia.
  - rewrite lookup_insert_ne, Hrows by exact Hne.
    repeat case_decide; try reflexivity; lia.
Qed.

Lemma cyclic_inv_loop w L g i :
  cyclic_inv w L g i (foldl (cyclic_step w) (g, L) (seq 0 i)).
Proof.
  induction i as [|i IH].
  - split; cbn; auto.
  - rewrite seq_S, foldl_app. cbn [foldl]. now apply cyclic_inv_step.
Qed.

(** What the function returns: row [j] below the width is the seed
    shifted [j] times, every other row is untouched. *)
Lemma construct_cyclic_submatrix_rows L g w :
  TannerGraph.width g = Some w ->
  exists g',
    construct_cyclic_submatrix L g
      = ret (TannerGraph.Build g' (TannerGraph.width g) (TannerGraph.height g)) /\
    (forall j, j < w -> g' !! j = Some (shifted_by w L j)) /\
    (forall j, w <= j -> g' !! j = TannerGraph.tanner_graph g !! j).
Proof.
  intros Hw. unfold construct_cyclic_submatrix. rewrite Hw.
  pose proof (cyclic_inv_loop w L g w) as [Hwidth Hheight Hrows _].
  unfold range. destruct (foldl _ _ _) as [[g' w' h'] first]. cbn [fst snd] in *.
  cbn in Hwidth, Hheight, Hrows. subst w' h'.
  exists g'. split; [now rewrite Hw |].
  split; intros j Hj; rewrite Hrows.
  - now rewrite decide_True by exact Hj.
  - now rewrite decide_False by lia.
Qed.

Lemma length_shifted_by w L a : length (shifted_by w L a) = length L.
Proof.
  induction a as [|a IH]; [reflexivity |].
  change (shifted_by w L (S a))
    with (TannerGraph.right_shift_row (shifted_by w L a) w).
  unfold TannerGraph.right_shift_row. now rewrite length_map.
Qed.

Lemma shifted_by_below w L a :
  0 < w -> Forall (fun x => x < w) L -> Forall (fun x => x < w) (shifted_by w L a).
Proof.
  intros Hw HL. induction a as [|a IH]; [exact HL |].
  change (shifted_by w L (S a))
    with (TannerGraph.right_shift_row (shifted_by w L a) w).
  unfold TannerGraph.right_shift_row.
  apply Forall_map, Forall_forall. intros x _. apply Nat.mod_upper_bound. lia.
Qed.

Lemma shift_inj w x y :
  x < w -> y < w -> (x + 1) mod w = (y + 1) mod w -> x = y.
Proof.
  intros Hx Hy.
  destruct (decide (x + 1 = w)) as [Hxw | Hxw],
           (decide (y + 1 = w)) as [Hyw | Hyw].
  - lia.
  - rewrite Hxw, Nat.Div0.mod_same, (Nat.mod_small (y + 1)) by lia. lia.
  - rewrite Hyw, Nat.Div0.mod_same, (Nat.mod_small (x + 1)) by lia. lia.
  - rewrite !Nat.mod_small by lia. lia.
Qed.

Lemma NoDup_right_shift_row w row :
  Forall (fun x => x < w) row -> NoDup row -> NoDup (TannerGraph.right_shift_row row w).
Proof.
  intros Hlt Hnd. unfold TannerGraph.right_shift_row.
  induction Hnd as [|x row Hx Hnd IH]; [constructor |].
  apply Forall_cons in Hlt as [Hxw Hlt]. cbn [map]. constructor; [| now apply IH].
  intros Hin. apply list_elem_of_fmap in Hin as (y & Heq & Hy).
  rewrite Forall_forall in Hlt.
  apply shift_inj in Heq; [| exact Hxw | now apply Hlt]. now subst.
Qed.

Lemma NoDup_shifted_by w L a :
  0 < w -> Forall (fun x => x < w) L -> NoDup L -> NoDup (shifted_by w L a).
Proof.
  intros Hw HL Hnd. induction a as [|a IH]; [exact Hnd |].
  change (shifted_by w L (S a))
    with (TannerGraph.right_shift_row (shifted_by w L a) w).
  apply NoDup_right_shift_row; [now apply shifted_by_below | exact IH].
Qed.

End CyclicFacts.

(** * Sampling without replacement *)

Module SampleFacts.

(** Moving the last live entry of the pool into slot [j] removes entry [j]
    from the live part. *)
Lemma take_replace_last (pool : list nat) m j :
  j < m -> m <= length pool ->
  take m pool ≡ₚ nth j pool 0 :: take (m - 1) (<[j := nth (m - 1) pool 0]> pool).
Proof.
  intros Hj Hm.
  destruct (lookup_lt_is_Some_2 pool (m - 1)) as [l Hl]; [lia |].
  destruct (lookup_lt_is_Some_2 pool j) as [x Hx]; [lia |].
  rewrite (nth_lookup_Some _ _ _ _ Hl), (nth_lookup_Some _ _ _ _ Hx).
  replace m with (S (m - 1)) at 1 by lia.
  rewrite (take_S_r _ _ _ Hl).
  destruct (decide (j = m - 1)) as [-> | Hne].
  - rewrite Hl in Hx. injection Hx as <-.
    rewrite list_insert_id by exact Hl.
    now rewrite Permutation_app_comm.
  - rewrite take_insert_lt by lia.
    assert (take (m - 1) pool !! j = Some x) as Hx'.
    { rewrite lookup_take_lt by lia. exact Hx. }
    apply list_elem_of_split_length in Hx' as (l1 & l2 & Heq & Hlen).
    rewrite Heq. subst j. rewrite insert_app_r_alt, Nat.sub_diag by lia.
    cbn [insert list_insert].
    rewrite <- app_assoc. cbn [app].
    rewrite <- Permutation_middle. apply perm_skip.
    apply Permutation_app_head. symmetry. apply Permutation_cons_append.
Qed.

Section Pool.
Variable population : list nat.
Let n := length population.

(** Before pass [i]: the result and the live part of the pool are, together,
    duplicate-free members of the population. *)
Definition sample_inv (i : nat) (st : list nat * list nat) : Prop :=
  length st.1 = n /\ length st.2 = i /\
  NoDup (st.2 ++ take (n - i) st.1) /\
  (forall x, x ∈ st.2 ++ take (n - i) st.1 -> x ∈ population).

Lemma sample_inv_step i pool result j :
  i < n -> j < n - i -> sample_inv i (pool, result) ->
  sample_inv (S i)
    (<[j := nth (n - i - 1) pool 0]> pool, result ++ [nth j pool 0]).
Proof.
  intros Hi Hj (Hlen & Hres & Hnd & Hsub). cbn [fst snd] in *.
  pose proof (take_replace_last pool (n - i) j Hj ltac:(lia)) as Hperm.
  assert ((result ++ [nth j pool 0])
            ++ take (n - i - 1) (<[j := nth (n - i - 1) pool 0]> pool)
          ≡ₚ result ++ take (n - i) pool) as Hall.
  { rewrite <- app_assoc. cbn [app]. now rewrite Hperm. }
  unfold sample_inv. cbn [fst snd].
  replace (n - S i) with (n - i - 1) by lia. split; [| split; [| split]].
  - now rewrite length_insert.
  - rewrite length_app, Hres. cbn. lia.
  - now rewrite Hall.
  - intros x Hx. apply Hsub. now rewrite <- Hall.
Qed.

Lemma ensures_sample_step i st :
  i < n -> sample_inv i st -> ensures (sample_step n i st) (sample_inv (S i)).
Proof.
  intros Hi Hinv. destruct st as [pool result]. unfold sample_step.
  intros [|x tape]; cbn; [exact I |].
  apply sample_inv_step; auto. apply Nat.mod_upper_bound. lia.
Qed.

(** The sample has [k] distinct members of the population. *)
Lemma ensures_sample k :
  k <= n -> NoDup population ->
  ensures (sample population k)
    (fun result => length result = k /\ NoDup result /\
                   forall x, x ∈ result -> x ∈ population).
Proof.
  intros Hk Hnd. unfold sample. fold n.
  destruct (Nat.ltb_spec n k); [lia |].
  eapply ensures_bind.
  - apply (ensures_for_range _ sample_inv).
    + repeat split; cbn [fst snd app]; auto.
      * rewrite Nat.sub_0_r. subst n. now rewrite firstn_all.
      * intros x Hx. rewrite Nat.sub_0_r in Hx. subst n.
        now rewrite firstn_all in Hx.
    + intros i st Hi Hinv. apply ensures_sample_step; [lia | exact Hinv].
  - intros [pool result] (Hlen & Hres & Hnd' & Hsub). apply ensures_ret.
    cbn [fst snd] in *. repeat split; auto.
    + now apply NoDup_app in Hnd' as (? & _).
    + intros x Hx. apply Hsub. apply elem_of_app. now left.
Qed.

(** Any list of distinct members can be drawn. *)
Lemma can_finish_sample_loop (target : list nat) :
  forall i pool result,
    length target + i <= n -> NoDup target ->
    sample_inv i (pool, result) ->
    (forall x, x ∈ target -> x ∈ take (n - i) pool) ->
    can_finish (for_each (seq i (length target)) (sample_step n) (pool, result))
      (fun st => st.2 = result ++ target).
Proof.
  induction target as [|t target IH]; intros i pool result Hlen Hnd Hinv Hlive.
  - cbn. apply can_finish_ret. cbn. now rewrite app_nil_r.
  - cbn [length seq for_each]. cbn [length] in Hlen.
    apply NoDup_cons in Hnd as [Ht Hnd].
    assert (t ∈ take (n - i) pool) as Htl by (apply Hlive; left).
    apply list_elem_of_lookup in Htl as [j Hj].
    assert (j < n - i) as Hjlt.
    { apply lookup_lt_Some in Hj. rewrite length_take in Hj. lia. }
    rewrite lookup_take_lt in Hj by exact Hjlt.
    pose proof (sample_inv_step i pool result j ltac:(lia) Hjlt Hinv) as Hinv'.
    rewrite (nth_lookup_Some _ _ 0 _ Hj) in Hinv'.
    assert (can_finish (sample_step n i (pool, result))
              (fun st => st = (<[j := nth (n - i - 1) pool 0]> pool, result ++ [t])))
      as Hstep.
    { exists [j], (<[j := nth (n - i - 1) pool 0]> pool, result ++ [t]).
      split; [reflexivity |]. intros rest.
      unfold sample_step, mbind, rnd_bind, bind, randbelow, ret. cbn [app].
      rewrite Nat.mod_small by exact Hjlt.
      now rewrite (nth_lookup_Some _ _ 0 _ Hj). }
    eapply can_finish_bind; [exact Hstep |]. intros st ->.
    eapply can_finish_weaken.
    + apply IH; [lia | exact Hnd | exact Hinv' |].
      intros x Hx.
      destruct Hinv as (Hlenp & _ & Hndl & _). cbn [fst snd] in *.
      pose proof (take_replace_last pool (n - i) j Hjlt ltac:(lia)) as Hperm.
      rewrite (nth_lookup_Some _ _ 0 _ Hj) in Hperm.
      assert (x ∈ take (n - i) pool) as Hxl by (apply Hlive; now right).
      rewrite Hperm in Hxl. apply elem_of_cons in Hxl as [-> | Hxl]; [done |].
      now replace (n - S i) with (n - i - 1) by lia.
    + intros st ->. now rewrite <- app_assoc.
Qed.

Lemma can_finish_sample (target : list nat) :
  NoDup population -> NoDup target ->
  (forall x, x ∈ target -> x ∈ population) ->
  can_finish (sample population (length target)) (fun result => result = target).
Proof.
  intros Hpop Hnd Hsub. unfold sample. fold n.
  assert (length target <= n) as Hle.
  { subst n. apply submseteq_length, NoDup_submseteq; assumption. }
  destruct (Nat.ltb_spec n (length target)); [lia |].
  eapply can_finish_bind.
  - apply (can_finish_sample_loop target 0 population []); [lia | exact Hnd | |].
    + repeat split; cbn [fst snd app]; auto; rewrite Nat.sub_0_r; subst n;
        now rewrite firstn_all.
    + intros x Hx. rewrite Nat.sub_0_r. subst n. rewrite firstn_all. now apply Hsub.
  - intros st ->. now apply can_finish_ret.
Qed.
End Pool.

End SampleFacts.

Module QuasiCyclicFacts.
Import ProtographLDPC CyclicFacts.

(** A circulant block of size [f] grown from the seed [L]. *)
Definition circulant (f : nat) (L : list nat) (g : TannerGraph.t) : Prop :=
  TannerGraph.width g = Some f /\ TannerGraph.height g = Some f /\
  (forall j, j < f -> TannerGraph.tanner_graph g !! j = Some (shifted_by f L j)) /\
  (forall j, f <= j -> TannerGraph.tanner_graph g !! j = None).

Lemma construct_on_empty f L :
  exists g, construct_cyclic_submatrix L (TannerGraph.make_graph f f f) = ret g /\
            circulant f L g.
Proof.
  destruct (construct_cyclic_submatrix_rows L (TannerGraph.make_graph f f f) f eq_refl)
    as (g' & Hrun & Hlow & Hhigh).
  eexists. split; [exact Hrun |].
  repeat split; cbn; auto.
  intros j Hj. rewrite Hhigh by exact Hj. cbn.
  rewrite lookup_empty_rows. now rewrite decide_False by lia.
Qed.

(** A sample of [v] column indices below [f]. *)
Definition seed (f v : nat) (L : list nat) : Prop :=
  length L = v /\ NoDup L /\ Forall (fun x => x < f) L.

Lemma seed_of_sample f v (L : list nat) :
  length L = v -> NoDup L -> (forall x, x ∈ L -> x ∈ range f) -> seed f v L.
Proof.
  intros Hlen Hnd Hsub. repeat split; auto.
  apply Forall_forall. intros x Hx. apply Hsub, elem_of_seq in Hx. lia.
Qed.

Lemma ensures_quasi_cyclic f v :
  v <= f ->
  ensures (quasi_cyclic f v) (fun g => exists L, seed f v L /\ circulant f L g).
Proof.
  intros Hv. unfold quasi_cyclic.
  eapply ensures_bind.
  - apply SampleFacts.ensures_sample; [unfold range; now rewrite length_seq |].
    apply NoDup_seq.
  - intros L (Hlen & Hnd & Hsub). cbv beta.
    destruct (construct_on_empty f L) as (g & -> & Hg).
    apply ensures_ret. exists L. split; [now apply seed_of_sample | exact Hg].
Qed.

Lemma can_finish_quasi_cyclic f v :
  v <= f ->
  can_finish (quasi_cyclic f v) (fun g => circulant f (range v) g).
Proof.
  intros Hv. unfold quasi_cyclic.
  eapply can_finish_bind.
  - replace v with (length (range v)) at 1 by apply length_seq.
    apply SampleFacts.can_finish_sample; try apply NoDup_seq.
    intros x Hx. apply elem_of_seq in Hx. apply elem_of_seq. lia.
  - intros L ->.
    destruct (construct_on_empty f (range v)) as (g & -> & Hg).
    now apply can_finish_ret.
Qed.

(** Consecutive rows of a circulant block. *)
Lemma circulant_next f L g i :
  circulant f L g -> i + 1 < f ->
  exists row, TannerGraph.tanner_graph g !! i = Some row /\
    TannerGraph.tanner_graph g !! (i + 1) = Some (TannerGraph.right_shift_row row f).
Proof.
  intros (_ & _ & Hrows & _) Hi. exists (shifted_by f L i).
  split; [apply Hrows; lia |]. rewrite Hrows by lia.
  now rewrite Nat.add_1_r.
Qed.

Lemma circulant_weight f v L g i :
  circulant f L g -> seed f v L -> i < f ->
  exists row, TannerGraph.tanner_graph g !! i = Some row /\
              length row = v /\ NoDup row.
Proof.
  intros (_ & _ & Hrows & _) (Hlen & Hnd & Hlt) Hi. exists (shifted_by f L i).
  split; [now apply Hrows |]. split.
  - now rewrite length_shifted_by.
  - apply NoDup_shifted_by; [lia | exact Hlt | exact Hnd].
Qed.

End QuasiCyclicFacts.

(** * Computations that draw nothing

    [yields m a]: on every tape [m] returns [a] and leaves the tape as it is. *)
Definition yields {A} (m : rnd A) (a : A) : Prop :=
  forall tape, m tape = Done (a, tape).

Section YieldRules.
Context {A B : Type}.

Lemma yields_ret (a : A) : yields (ret a) a.
Proof. intros tape. reflexivity. Qed.

Lemma yields_lift (o : outcome A) (a : A) : o = Done a -> yields (lift o) a.
Proof. intros -> tape. reflexivity. Qed.

Lemma yields_bind (m : rnd A) (k : A -> rnd B) a b :
  yields m a -> yields (k a) b -> yields (m ≫= k) b.
Proof.
  intros Hm Hk tape. unfold mbind, rnd_bind, bind. rewrite Hm. apply Hk.
Qed.

Lemma yields_ensures (m : rnd A) a (P : A -> Prop) :
  yields m a -> P a -> ensures m P.
Proof. intros Hm HP tape. now rewrite Hm. Qed.

Lemma yields_can_finish (m : rnd A) a (P : A -> Prop) :
  yields m a -> P a -> can_finish m P.
Proof. intros Hm HP. exists [], a. split; [exact HP |]. intros rest. apply Hm. Qed.
End YieldRules.

Section YieldLoops.
Context {S : Type}.

Lemma yields_for_seq (body : nat -> S -> rnd S) (I : nat -> S -> Prop) len :
  forall a s,
    I a s ->
    (forall i s, a <= i < a + len -> I i s ->
                 exists s', yields (body i s) s' /\ I (1 + i) s') ->
    exists s', yields (for_each (seq a len) body s) s' /\ I (a + len) s'.
Proof.
  induction len as [|len IH]; intros a s Hs Hbody; cbn [seq for_each].
  - exists s. rewrite Nat.add_0_r. split; [apply yields_ret | exact Hs].
  - destruct (Hbody a s ltac:(lia) Hs) as (s1 & Hrun1 & Hs1).
    destruct (IH (Datatypes.S a) s1 Hs1) as (s2 & Hrun2 & Hs2).
    { intros i s' Hi. apply Hbody. lia. }
    exists s2. split.
    + eapply yields_bind; [exact Hrun1 | exact Hrun2].
    + now replace (a + Datatypes.S len) with (Datatypes.S a + len) by lia.
Qed.

Lemma yields_for_range (body : nat -> S -> rnd S) (I : nat -> S -> Prop) len s :
  I 0 s ->
  (forall i s, i < len -> I i s -> exists s', yields (body i s) s' /\ I (1 + i) s') ->
  exists s', yields (for_each (range len) body s) s' /\ I len s'.
Proof.
  intros H0 Hb. apply (yields_for_seq body I len 0 s H0).
  intros i s' Hi. apply Hb. lia.
Qed.
End YieldLoops.

Section ListLoops.
Context {X S : Type}.

Lemma ensures_for_each (xs : list X) (body : X -> S -> rnd S) (I : S -> Prop) :
  (forall x s, x ∈ xs -> I s -> ensures (body x s) I) ->
  forall s, I s -> ensures (for_each xs body s) I.
Proof.
  induction xs as [|x xs IH]; intros Hbody s Hs; cbn [for_each].
  - now apply ensures_ret.
  - eapply ensures_bind.
    + apply Hbody; [left | exact Hs].
    + intros s' Hs'. apply IH; [| exact Hs'].
      intros y s'' Hy. apply Hbody. now right.
Qed.

Lemma can_finish_for_each (xs : list X) (body : X -> S -> rnd S) (I : S -> Prop) :
  (forall x s, x ∈ xs -> I s -> can_finish (body x s) I) ->
  forall s, I s -> can_finish (for_each xs body s) I.
Proof.
  induction xs as [|x xs IH]; intros Hbody s Hs; cbn [for_each].
  - now apply can_finish_ret.
  - eapply can_finish_bind.
    + apply Hbody; [left | exact Hs].
    + intros s' Hs'. apply IH; [| exact Hs'].
      intros y s'' Hy. apply Hbody. now right.
Qed.
End ListLoops.

(** * Shuffling *)

Module ShuffleFacts.

Lemma insert_Permutation (l : list nat) i a b :
  l !! i = Some a -> <[i := b]> l ≡ₚ b :: delete i l.
Proof.
  intros Hi. pose proof (lookup_lt_Some _ _ _ Hi) as Hlt.
  rewrite insert_take_drop, delete_take_drop by exact Hlt.
  symmetry. apply Permutation_middle.
Qed.

Lemma swap_Permutation (x : list nat) i j : swap x i j ≡ₚ x.
Proof.
  unfold swap.
  destruct (x !! i) as [a|] eqn:Hi; [| reflexivity].
  destruct (x !! j) as [b|] eqn:Hj; [| reflexivity].
  set (y := <[i := b]> x).
  assert (y !! j = Some b) as Hyj.
  { unfold y. destruct (decide (i = j)) as [-> | Hne].
    - apply list_lookup_insert_eq. now apply lookup_lt_Some in Hi.
    - rewrite list_lookup_insert_ne by exact Hne. exact Hj. }
  assert (delete j y ≡ₚ delete i x) as Hdel.
  { apply (Permutation_cons_inv (a := b)).
    rewrite <- (delete_Permutation y j b Hyj).
    unfold y. now apply insert_Permutation with (a := a). }
  rewrite (insert_Permutation y j b a Hyj), Hdel.
  symmetry. now apply delete_Permutation.
Qed.

Lemma ensures_shuffle (x : list nat) : ensures (shuffle x) (fun x' => x' ≡ₚ x).
Proof.
  unfold shuffle. apply ensures_for_each; [| reflexivity].
  intros i s _ Hs. intros [|d tape]; [exact I |].
  unfold mbind, rnd_bind, bind, randbelow, ret.
  now rewrite swap_Permutation.
Qed.

Lemma can_finish_shuffle (x : list nat) : can_finish (shuffle x) (fun x' => x' ≡ₚ x).
Proof.
  unfold shuffle. apply can_finish_for_each; [| reflexivity].
  intros i s _ Hs. exists [0], (swap s i (0 mod (i + 1))). split.
  - now rewrite swap_Permutation.
  - intros rest. reflexivity.
Qed.

End ShuffleFacts.

(** * Gallager's construction *)

Module GallagerFacts.
Import RegularLDPC.

(** The [i]-th run of [r] shuffled indices. *)
Definition chunk (cw : list nat) (r i : nat) : list nat := take r (drop (i * r) cw).

(** [rows] check nodes of [r] distinct indices each. *)
Definition block (rows r : nat) (g : graph) : Prop :=
  (forall j, is_Some (g !! j) <-> j < rows) /\ row_regular r g.

Section Fill.
Variables (cw : list nat) (r rows : nat).
Hypothesis enough : rows * r <= length cw.

Definition fill_inv (i j : nat) (g : graph) : Prop :=
  forall i', g !! i' =
    if decide (i' < rows)
    then Some (if decide (i' < i) then chunk cw r i'
               else if decide (i' = i) then take j (drop (i * r) cw) else [])
    else None.

Lemma yields_assign i j g :
  i < rows -> j < r -> fill_inv i j g ->
  exists g', yields (assign cw r i j g) g' /\ fill_inv i (S j) g'.
Proof.
  intros Hi Hj Hinv. unfold assign.
  pose proof (Hinv i) as Hrow.
  rewrite decide_True, decide_False, decide_True in Hrow by lia.
  rewrite Hrow.
  destruct (lookup_lt_is_Some_2 cw (i * r + j)) as [x Hx]; [nia |].
  rewrite Hx. eexists. split; [apply yields_ret |].
  intros i'. destruct (decide (i = i')) as [<- | Hne].
  - rewrite lookup_insert_eq, decide_True, decide_False, decide_True by lia.
    f_equal. symmetry. apply take_S_r. now rewrite lookup_drop.
  - rewrite lookup_insert_ne, Hinv by exact Hne.
    repeat case_decide; try reflexivity; lia.
Qed.

Lemma yields_fill :
  exists g, yields (for_each (range rows)
                      (fun i g => for_each (range r) (assign cw r i) g)
                      (empty_rows rows)) g /\
            forall i, g !! i = if decide (i < rows) then Some (chunk cw r i) else None.
Proof.
  destruct (yields_for_range
              (fun i g => for_each (range r) (assign cw r i) g)
              (fun i g => fill_inv i 0 g) rows (empty_rows rows))
    as (g & Hrun & Hinv).
  - intros i'. rewrite lookup_empty_rows.
    repeat case_decide; try reflexivity; lia.
  - intros i g Hi Hinv.
    destruct (yields_for_range (assign cw r i) (fun j g => fill_inv i j g) r g Hinv)
      as (g' & Hrun & Hinv').
    { intros j g' Hj. now apply yields_assign. }
    exists g'. split; [exact Hrun |].
    intros i'. rewrite Hinv'. unfold chunk.
    repeat case_decide; subst; try reflexivity; lia.
  - exists g. split; [exact Hrun |].
    intros i. rewrite Hinv. repeat case_decide; try reflexivity; lia.
Qed.
End Fill.

Lemma chunk_regular cw r i :
  NoDup cw -> (i + 1) * r <= length cw ->
  length (chunk cw r i) = r /\ NoDup (chunk cw r i).
Proof.
  intros Hnd Hlen. unfold chunk. split.
  - rewrite length_take, length_drop. nia.
  - exact (sublist_NoDup _ _ (sublist_NoDup _ _ Hnd (sublist_drop _ _))
             (sublist_take _ _)).
Qed.

(** One [SubGraph]: [n / r] rows that split a shuffle of [0 .. n-1]. *)
Lemma SubGraph_spec n r :
  0 < r -> n mod r = 0 -> (Z.of_nat n < 2 ^ 53)%Z ->
  ensures (SubGraph n r) (block (n / r) r) /\
  can_finish (SubGraph n r) (block (n / r) r).
Proof.
  intros Hr Hmod Hbound.
  assert (n = n / r * r) as Hn by (pose proof (Nat.div_mod_eq n r); lia).
  assert (int_div n r = Done (n / r)) as Hrows.
  { rewrite Hn at 1. apply int_div_exact; [exact Hr |].
    assert (n / r <= n) by nia. lia. }
  assert (forall cw, cw ≡ₚ range n ->
            exists g, yields (for_each (range (n / r))
                                (fun i g => for_each (range r) (assign cw r i) g)
                                (empty_rows (n / r))) g /\
                      block (n / r) r g) as Hfill.
  { intros cw Hperm.
    assert (length cw = n) as Hlen.
    { rewrite Hperm. unfold range. now rewrite length_seq. }
    assert (NoDup cw) as Hnd by (rewrite Hperm; apply NoDup_seq).
    destruct (yields_fill cw r (n / r) ltac:(lia)) as (g & Hrun & Hg).
    exists g. split; [exact Hrun |]. split.
    - intros j. rewrite Hg. case_decide; split; intros H'; done.
    - intros j row. rewrite Hg. case_decide; [| done]. intros [= <-].
      apply chunk_regular; [exact Hnd |]. nia. }
  unfold SubGraph. split.
  - apply (ensures_lift_bind _ _ _ _ Hrows).
    eapply ensures_bind; [apply ShuffleFacts.ensures_shuffle |].
    intros cw Hperm. destruct (Hfill cw Hperm) as (g & Hrun & Hg).
    now apply (yields_ensures _ g).
  - apply (can_finish_lift_bind _ _ _ _ Hrows).
    eapply can_finish_bind; [apply ShuffleFacts.can_finish_shuffle |].
    intros cw Hperm. destruct (Hfill cw Hperm) as (g & Hrun & Hg).
    now apply (yields_can_finish _ g).
Qed.

Section Merge.
Variables (n r m : nat) (submatrices : list graph).
Hypothesis r_pos : 0 < r.
Hypothesis exact : n = m * r.
Hypothesis small : (Z.of_nat (length submatrices * m) < 2 ^ 53)%Z.
Hypothesis blocks : Forall (block m r) submatrices.

(** After the first [k] check nodes are in place. *)
Definition merged_inv (k : nat) (merged : graph) : Prop :=
  (forall j, is_Some (merged !! j) <-> j < k) /\ row_regular r merged.

Lemma yields_merge_row i sub j merged :
  i < length submatrices -> j < m -> block m r sub ->
  merged_inv (i * m + j) merged ->
  exists merged', yields (merge_row n r i sub j merged) merged' /\
                  merged_inv (i * m + S j) merged'.
Proof.
  intros Hi Hj [Hkeys Hrows] [Hmk Hmr]. unfold merge_row.
  assert (int_div_add (i * n) r j = Done (i * m + j)) as Hkey.
  { replace (i * n) with (i * m * r) by (rewrite exact; lia).
    apply int_div_add_exact; [exact r_pos |].
    assert (i * m + j < length submatrices * m) by nia. lia. }
  destruct (proj2 (Hkeys j) Hj) as [row Hrow]. rewrite Hrow.
  eexists. split.
  - eapply yields_bind; [apply yields_lift; exact Hkey | apply yields_ret].
  - split.
    + intros k. destruct (decide (i * m + j = k)) as [<- | Hne].
      * rewrite lookup_insert_eq. split; [lia | eauto].
      * rewrite lookup_insert_ne, Hmk by exact Hne. lia.
    + intros k row'. destruct (decide (i * m + j = k)) as [<- | Hne].
      * rewrite lookup_insert_eq. intros [= <-]. now apply (Hrows j).
      * rewrite lookup_insert_ne by exact Hne. apply Hmr.
Qed.

Lemma yields_merge :
  (0 < length submatrices -> (Z.of_nat m < 2 ^ 53)%Z) ->
  exists merged, yields (merge submatrices n r) merged /\
                 merged_inv (length submatrices * m) merged.
Proof.
  intros Hm. unfold merge.
  apply (yields_for_range _ (fun i merged => merged_inv (i * m) merged)).
  - split; [| intros j row; now rewrite lookup_empty].
    intros j. rewrite lookup_empty. split; [intros []; done | lia].
  - intros i merged Hi Hinv.
    assert (int_div n r = Done m) as Hrows.
    { rewrite exact. apply int_div_exact; [exact r_pos | apply Hm; lia]. }
    destruct (lookup_lt_is_Some_2 submatrices i Hi) as [sub Hsub].
    pose proof (proj1 (Forall_lookup _ _) blocks i sub Hsub) as Hblock.
    destruct (yields_for_range (merge_row n r i sub)
                (fun j merged => merged_inv (i * m + j) merged) m merged)
      as (merged' & Hrun & Hinv').
    { now rewrite Nat.add_0_r. }
    { intros j merged' Hj. now apply yields_merge_row. }
    exists merged'. split.
    + eapply yields_bind; [apply yields_lift; exact Hrows |].
      now rewrite Hsub.
    + now replace ((1 + i) * m) with (i * m + m) by lia.
Qed.
End Merge.

Lemma gallager_spec n r c :
  0 < r -> n mod r = 0 -> (Z.of_nat (n * c) < 2 ^ 53)%Z ->
  ensures (gallager n r c) (block (c * (n / r)) r) /\
  can_finish (gallager n r c) (block (c * (n / r)) r).
Proof.
  intros Hr Hmod Hbound.
  assert (n = n / r * r) as Hn by (pose proof (Nat.div_mod_eq n r); lia).
  assert (n / r <= n) as Hle by nia.
  assert (forall subs, length subs = c -> Forall (block (n / r) r) subs ->
            exists merged, yields (merge subs n r) merged /\
                           block (c * (n / r)) r merged) as Hmerge.
  { intros subs Hlen Hsubs.
    destruct (yields_merge n r (n / r) subs Hr Hn) as (merged & Hrun & Hinv);
      [rewrite Hlen; nia | exact Hsubs | rewrite Hlen; nia |].
    exists merged. split; [exact Hrun |]. now rewrite <- Hlen. }
  set (I := fun i (acc : list graph) => length acc = i /\ Forall (block (n / r) r) acc).
  assert (forall i acc, i < c -> I i acc ->
            ensures (sub ← SubGraph n r; ret (acc ++ [sub])) (I (1 + i)) /\
            can_finish (sub ← SubGraph n r; ret (acc ++ [sub])) (I (1 + i))) as Hbody.
  { intros i acc Hi [Hlen Hacc].
    destruct (SubGraph_spec n r Hr Hmod ltac:(nia)) as [Hsafe Hfin].
    assert (forall sub, block (n / r) r sub -> I (1 + i) (acc ++ [sub])) as Hnext.
    { intros sub Hsub. split; [rewrite length_app; cbn; lia |].
      apply Forall_app. split; [exact Hacc | now constructor]. }
    split.
    - eapply ensures_bind; [exact Hsafe |].
      intros sub Hsub. apply ensures_ret. now apply Hnext.
    - eapply can_finish_bind; [exact Hfin |].
      intros sub Hsub. apply can_finish_ret. now apply Hnext. }
  unfold gallager. destruct (Nat.eqb_spec r 0); [lia |]. split.
  - eapply ensures_bind.
    + apply (ensures_for_range _ I); [now split |].
      intros i acc Hi Hacc. now apply Hbody.
    + intros subs [Hlen Hsubs].
      destruct (Hmerge subs Hlen Hsubs) as (merged & Hrun & Hpost).
      now apply (yields_ensures _ merged).
  - eapply can_finish_bind.
    + apply (can_finish_for_range _ I); [now split |].
      intros i acc Hi Hacc. now apply Hbody.
    + intros subs [Hlen Hsubs].
      destruct (Hmerge subs Hlen Hsubs) as (merged & Hrun & Hpost).
      now apply (yields_can_finish _ merged).
Qed.

End GallagerFacts.

(** * Sums of permutations *)

(** The number of check nodes among the first [h] that list the variable
    node [x]. *)
Definition column_weight (g : graph) (h x : nat) : nat :=
  sum_list_with (fun i => count (default [] (g !! i)) x) (range h).

Module IdentityFacts.
Import Identity.

Lemma lookup_init perm i :
  TannerGraph.tanner_graph (init perm) !! i = (fun x => [x]) <$> perm !! i.
Proof. cbn. now rewrite lookup_map_seq_0, list_lookup_fmap. Qed.

Lemma shifted_origin (g : graph) : shifted g 0 0 = g.
Proof.
  unfold shifted. rewrite <- (list_to_map_to_list g) at 2. f_equal.
  rewrite <- (map_id (map_to_list g)) at 2. apply map_ext.
  intros [i row]. cbn. f_equal. apply map_id.
Qed.

Lemma lookup_absorb self other i :
  TannerGraph.tanner_graph (absorb_nonoverlapping self other (0, 0)) !! i
  = union_with (fun a b => Some (a ++ b))
      (TannerGraph.tanner_graph self !! i) (TannerGraph.tanner_graph other !! i).
Proof. cbn. now rewrite shifted_origin, lookup_union_with. Qed.

Lemma overlaps_false self other :
  overlaps self other = false <->
  forall i a b x,
    TannerGraph.tanner_graph self !! i = Some a ->
    TannerGraph.tanner_graph other !! i = Some b ->
    x ∈ b -> x ∉ a.
Proof.
  unfold overlaps. split.
  - intros Hno i a b x Ha Hb Hxb Hxa.
    apply not_true_iff_false in Hno. apply Hno.
    apply existsb_exists. exists (i, b). split.
    + apply list_elem_of_In, elem_of_map_to_list. exact Hb.
    + rewrite Ha. apply existsb_exists. exists x. split.
      * now apply list_elem_of_In.
      * now apply bool_decide_eq_true.
  - intros Hno. apply not_true_iff_false. intros Hyes.
    apply existsb_exists in Hyes as ([i b] & Hin & Hrow).
    apply list_elem_of_In, elem_of_map_to_list in Hin.
    destruct (TannerGraph.tanner_graph self !! i) as [a|] eqn:Ha; [| discriminate].
    apply existsb_exists in Hrow as (x & Hxb & Hxa).
    apply bool_decide_eq_true in Hxa. apply list_elem_of_In in Hxb.
    exact (Hno i a b x Ha Hin Hxb Hxa).
Qed.

End IdentityFacts.

Module PermutationFacts.
Import ProtographLDPC.

(** [perm] lists every index below [f] once. *)
Definition is_permutation (f : nat) (perm : list nat) : Prop :=
  length perm = f /\ NoDup perm /\ forall x, x ∈ perm <-> x < f.

Lemma sample_is_permutation f (perm : list nat) :
  length perm = f -> NoDup perm -> (forall x, x ∈ perm -> x ∈ range f) ->
  is_permutation f perm.
Proof.
  intros Hlen Hnd Hsub. repeat split; auto.
  - intros Hx. apply Hsub, elem_of_seq in Hx. lia.
  - intros Hx.
    assert (perm ≡ₚ range f) as Hsm.
    { apply submseteq_length_Permutation.
      - apply NoDup_submseteq; [exact Hnd | exact Hsub].
      - unfold range. rewrite length_seq. lia. }
    rewrite Hsm. apply elem_of_seq. lia.
Qed.

(** The sum of [j] permutations of size [f]: [f] rows of [j] distinct
    indices below [f], every column in [j] rows. *)
Record stacked (f j : nat) (g : TannerGraph.t) : Prop := {
  st_width : TannerGraph.width g = Some f;
  st_height : TannerGraph.height g = Some f;
  st_keys : forall i, is_Some (TannerGraph.tanner_graph g !! i) <-> i < f;
  st_rows : forall i row, TannerGraph.tanner_graph g !! i = Some row ->
            length row = j /\ NoDup row /\ Forall (fun x => x < f) row;
  st_columns : forall x, x < f -> column_weight (TannerGraph.tanner_graph g) f x = j
}.

Lemma sum_list_with_ext {A} (u v : A -> nat) (l : list A) :
  (forall a, a ∈ l -> u a = v a) -> sum_list_with u l = sum_list_with v l.
Proof.
  induction l as [|a l IH]; intros Huv; cbn; [reflexivity |].
  rewrite (Huv a) by left. rewrite IH; [reflexivity |].
  intros b Hb. apply Huv. now right.
Qed.

Lemma sum_list_with_fmap {A B} (u : B -> nat) (h : A -> B) (l : list A) :
  sum_list_with u (h <$> l) = sum_list_with (fun a => u (h a)) l.
Proof. induction l as [|a l IH]; cbn; [reflexivity | now rewrite IH]. Qed.

Lemma count_singletons (l : list nat) x :
  sum_list_with (fun i => count (default [] ((fun y => [y]) <$> l !! i)) x)
    (seq 0 (length l))
  = count l x.
Proof.
  induction l as [|y l IH]; [reflexivity |].
  cbn [length seq sum_list_with]. rewrite <- fmap_S_seq, sum_list_with_fmap.
  transitivity (count [y] x + count l x).
  - f_equal. rewrite <- IH. apply sum_list_with_ext. intros i _. reflexivity.
  - unfold count. cbn [count_occ]. destruct (Nat.eq_dec y x); lia.
Qed.

Lemma count_permutation f perm x :
  is_permutation f perm -> x < f -> count perm x = 1.
Proof.
  intros (Hlen & Hnd & Hmem) Hx. rewrite count_NoDup by exact Hnd.
  rewrite decide_True; [reflexivity | now apply Hmem].
Qed.

Lemma stacked_init f perm : is_permutation f perm -> stacked f 1 (Identity.init perm).
Proof.
  intros Hperm. pose proof Hperm as (Hlen & Hnd & Hmem).
  split.
  - cbn. now rewrite Hlen.
  - cbn. now rewrite Hlen.
  - intros i. rewrite IdentityFacts.lookup_init, fmap_is_Some, lookup_lt_is_Some. lia.
  - intros i row. rewrite IdentityFacts.lookup_init.
    destruct (perm !! i) as [y|] eqn:Hy; [| discriminate]. intros [= <-].
    repeat split; [apply NoDup_singleton |].
    constructor; [| constructor]. apply Hmem. eapply list_elem_of_lookup_2, Hy.
  - intros x Hx. unfold column_weight, range.
    erewrite sum_list_with_ext; [| intros i _; now rewrite IdentityFacts.lookup_init].
    rewrite <- Hlen, count_singletons. now apply (count_permutation f).
Qed.

Lemma sum_list_with_add {A} (u v : A -> nat) (l : list A) :
  sum_list_with (fun a => u a + v a) l = sum_list_with u l + sum_list_with v l.
Proof. induction l as [|a l IH]; cbn; lia. Qed.

Lemma count_app (a b : list nat) x : count (a ++ b) x = count a x + count b x.
Proof. apply count_occ_app. Qed.

(** Absorbing a permutation that does not overlap adds one to every row
    and to every column. *)
Lemma stacked_absorb f j g perm :
  stacked f j g -> is_permutation f perm ->
  Identity.overlaps g (Identity.init perm) = false ->
  stacked f (S j) (Identity.absorb_nonoverlapping g (Identity.init perm) (0, 0)).
Proof.
  intros [Hw Hh Hkeys Hrows Hcols] Hperm Hno.
  pose proof Hperm as (Hlen & Hnd & Hmem).
  rewrite IdentityFacts.overlaps_false in Hno.
  assert (forall i, i < f -> exists a y,
            TannerGraph.tanner_graph g !! i = Some a /\ perm !! i = Some y /\
            TannerGraph.tanner_graph
              (Identity.absorb_nonoverlapping g (Identity.init perm) (0, 0)) !! i
            = Some (a ++ [y])) as Hrow.
  { intros i Hi. destruct (proj2 (Hkeys i) Hi) as [a Ha].
    destruct (lookup_lt_is_Some_2 perm i ltac:(lia)) as [y Hy].
    exists a, y. repeat split; auto.
    now rewrite IdentityFacts.lookup_absorb, Ha, IdentityFacts.lookup_init, Hy. }
  split.
  - exact Hw.
  - exact Hh.
  - intros i. rewrite IdentityFacts.lookup_absorb, IdentityFacts.lookup_init.
    split.
    + intros Hsome. destruct (decide (i < f)) as [|Hge]; [assumption | exfalso].
      assert (TannerGraph.tanner_graph g !! i = None) as Hg.
      { apply eq_None_not_Some. rewrite Hkeys. lia. }
      rewrite Hg, (lookup_ge_None_2 perm i) in Hsome by lia.
      now destruct Hsome.
    + intros Hi. destruct (Hrow i Hi) as (a & y & Ha & Hy & _).
      rewrite Ha, Hy. cbn. eauto.
  - intros i row Hirow.
    assert (i < f) as Hi.
    { destruct (decide (i < f)) as [|Hge]; [assumption | exfalso].
      rewrite IdentityFacts.lookup_absorb, IdentityFacts.lookup_init in Hirow.
      assert (TannerGraph.tanner_graph g !! i = None) as Hg.
      { apply eq_None_not_Some. rewrite Hkeys. lia. }
      now rewrite Hg, (lookup_ge_None_2 perm i) in Hirow by lia. }
    destruct (Hrow i Hi) as (a & y & Ha & Hy & Hay).
    rewrite Hay in Hirow. injection Hirow as <-.
    destruct (Hrows i a Ha) as (Hla & Hnda & Hlta).
    repeat split.
    + rewrite length_app, Hla. cbn. lia.
    + apply NoDup_app. repeat split; [exact Hnda | | apply NoDup_singleton].
      intros z Hza Hzy. apply list_elem_of_singleton in Hzy as ->.
      refine (Hno i a [y] y Ha _ _ Hza); [| left].
      now rewrite IdentityFacts.lookup_init, Hy.
    + apply Forall_app. split; [exact Hlta |].
      constructor; [| constructor]. apply Hmem. eapply list_elem_of_lookup_2, Hy.
  - intros x Hx. unfold column_weight, range.
    erewrite (sum_list_with_ext _
      (fun i => count (default [] (TannerGraph.tanner_graph g !! i)) x
                + count (default [] ((fun y => [y]) <$> perm !! i)) x)).
    + rewrite sum_list_with_add. fold (range f).
      fold (column_weight (TannerGraph.tanner_graph g) f x).
      rewrite Hcols by exact Hx. unfold range.
      rewrite <- Hlen at 1. rewrite count_singletons.
      rewrite (count_permutation f) by assumption. lia.
    + intros i Hi. apply elem_of_seq in Hi.
      destruct (Hrow i ltac:(lia)) as (a & y & Ha & Hy & Hay).
      rewrite Hay, Ha, Hy. cbn. apply count_app.
Qed.

End PermutationFacts.

Module PermutationRuns.
Import ProtographLDPC PermutationFacts.

Lemma ensures_sample_permutation f :
  ensures (sample (range f) f) (is_permutation f).
Proof.
  eapply ensures_weaken.
  - apply SampleFacts.ensures_sample; [unfold range; now rewrite length_seq |].
    apply NoDup_seq.
  - intros perm (Hlen & Hnd & Hsub). now apply sample_is_permutation.
Qed.

Lemma ensures_absorb_trial rounds f j g :
  stacked f j g -> ensures (absorb_trial rounds f g) (stacked f (S j)).
Proof.
  intros Hg. induction rounds as [|rounds IH]; cbn [absorb_trial].
  - intros tape. exact I.
  - eapply ensures_bind; [apply ensures_sample_permutation |].
    intros perm Hperm. cbv beta zeta.
    destruct (Identity.overlaps g (Identity.init perm)) eqn:Hover; [exact IH |].
    apply ensures_ret. now apply stacked_absorb.
Qed.

Lemma ensures_absorb_fresh f j g :
  stacked f j g -> ensures (absorb_fresh f g) (stacked f (S j)).
Proof.
  intros Hg tape. unfold absorb_fresh.
  exact (ensures_absorb_trial (S (length tape)) f j g Hg tape).
Qed.

Lemma ensures_permutation f k :
  0 < k -> ensures (permutation f k) (stacked f k).
Proof.
  intros Hk. unfold permutation.
  eapply ensures_bind; [apply ensures_sample_permutation |].
  intros perm Hperm. cbv beta zeta.
  pose proof (stacked_init f perm Hperm) as Hstart.
  destruct (Nat.eqb_spec k 1) as [-> | Hne]; [now apply ensures_ret |].
  eapply ensures_weaken.
  - apply (ensures_for_range _ (fun i g => stacked f (S i) g)); [exact Hstart |].
    intros i g _ Hg. now apply ensures_absorb_fresh.
  - intros g Hg. now replace k with (S (k - 1)) by lia.
Qed.

(** ** A run that succeeds: the cyclic shifts of the identity *)

Definition rotation (f j : nat) : list nat := map (fun i => (i + j) mod f) (range f).

Definition rotations (f j : nat) (g : TannerGraph.t) : Prop :=
  TannerGraph.width g = Some f /\ TannerGraph.height g = Some f /\
  forall i, TannerGraph.tanner_graph g !! i =
    if decide (i < f) then Some (map (fun t => (i + t) mod f) (range j)) else None.

Lemma mod_add_inj f a b j :
  a < f -> b < f -> (a + j) mod f = (b + j) mod f -> a = b.
Proof.
  intros Ha Hb Heq.
  pose proof (Nat.div_mod_eq (a + j) f) as Ea.
  pose proof (Nat.div_mod_eq (b + j) f) as Eb.
  rewrite Heq in Ea.
  assert ((a + j) / f = (b + j) / f) by nia. nia.
Qed.

Lemma mod_add_inj_r f i s t :
  s < f -> t < f -> (i + s) mod f = (i + t) mod f -> s = t.
Proof.
  intros Hs Ht. rewrite (Nat.add_comm i s), (Nat.add_comm i t).
  now apply mod_add_inj.
Qed.

Lemma lookup_rotation f j i :
  i < f -> rotation f j !! i = Some ((i + j) mod f).
Proof.
  intros Hi. unfold rotation, range.
  rewrite list_lookup_fmap, lookup_seq_lt by exact Hi. reflexivity.
Qed.

Lemma rotation_is_permutation f j : is_permutation f (rotation f j).
Proof.
  assert (length (rotation f j) = f) as Hlen.
  { unfold rotation, range. now rewrite length_map, length_seq. }
  assert (NoDup (rotation f j)) as Hnd.
  { unfold rotation, range. apply NoDup_fmap_2_strong; [| apply NoDup_seq].
    intros a b Ha Hb. apply elem_of_seq in Ha, Hb. apply mod_add_inj; lia. }
  apply sample_is_permutation; auto.
  intros x Hx. unfold rotation in Hx. apply list_elem_of_fmap in Hx as (i & -> & Hi).
  apply elem_of_seq in Hi. apply elem_of_seq.
  split; [lia |]. apply Nat.mod_upper_bound. lia.
Qed.

Lemma can_finish_sample_rotation f j :
  can_finish (sample (range f) f) (fun perm => perm = rotation f j).
Proof.
  destruct (rotation_is_permutation f j) as (Hlen & Hnd & Hmem).
  rewrite <- Hlen at 2.
  apply SampleFacts.can_finish_sample; [apply NoDup_seq | exact Hnd |].
  intros x Hx. apply elem_of_seq. apply Hmem in Hx. lia.
Qed.

Lemma rotations_start f :
  rotations f 1 (Identity.init (rotation f 0)).
Proof.
  destruct (rotation_is_permutation f 0) as (Hlen & _).
  repeat split; cbn [Identity.init TannerGraph.width TannerGraph.height];
    try now rewrite Hlen.
  intros i. rewrite IdentityFacts.lookup_init.
  destruct (decide (i < f)) as [Hi | Hi].
  - now rewrite lookup_rotation by exact Hi.
  - rewrite lookup_ge_None_2 by lia. reflexivity.
Qed.

Lemma rotations_next f j g :
  S j <= f -> rotations f j g ->
  Identity.overlaps g (Identity.init (rotation f j)) = false /\
  rotations f (S j)
    (Identity.absorb_nonoverlapping g (Identity.init (rotation f j)) (0, 0)).
Proof.
  intros Hj (Hw & Hh & Hrows). split.
  - apply IdentityFacts.overlaps_false. intros i a b x Ha Hb Hxb Hxa.
    rewrite Hrows in Ha. rewrite IdentityFacts.lookup_init in Hb.
    destruct (decide (i < f)) as [Hi | Hi]; [| discriminate].
    rewrite lookup_rotation in Hb by exact Hi.
    injection Ha as <-. injection Hb as <-.
    apply list_elem_of_singleton in Hxb as ->.
    apply list_elem_of_fmap in Hxa as (t & Heq & Ht).
    apply elem_of_seq in Ht. apply mod_add_inj_r in Heq; lia.
  - repeat split; [exact Hw | exact Hh |].
    intros i. rewrite IdentityFacts.lookup_absorb, Hrows, IdentityFacts.lookup_init.
    destruct (decide (i < f)) as [Hi | Hi].
    + rewrite lookup_rotation by exact Hi.
      unfold range. rewrite seq_S, map_app. reflexivity.
    + rewrite lookup_ge_None_2; [reflexivity |].
      destruct (rotation_is_permutation f j) as (Hlen & _). lia.
Qed.

Lemma can_finish_absorb_fresh f j g :
  S j <= f -> rotations f j g ->
  can_finish (absorb_fresh f g) (rotations f (S j)).
Proof.
  intros Hj Hg. destruct (rotations_next f j g Hj Hg) as [Hno Hnext].
  destruct (can_finish_sample_rotation f j) as (prefix & perm & -> & Hrun).
  exists prefix, (Identity.absorb_nonoverlapping g (Identity.init (rotation f j)) (0, 0)).
  split; [exact Hnext |]. intros rest.
  unfold absorb_fresh. cbn [absorb_trial].
  unfold mbind, rnd_bind, bind. rewrite Hrun. now rewrite Hno.
Qed.

Lemma can_finish_permutation f k :
  0 < k -> k <= f -> can_finish (permutation f k) (rotations f k).
Proof.
  intros Hk Hkf. unfold permutation.
  eapply can_finish_bind; [apply (can_finish_sample_rotation f 0) |].
  intros perm ->. cbv beta zeta.
  pose proof (rotations_start f) as Hstart.
  destruct (Nat.eqb_spec k 1) as [-> | Hne]; [now apply can_finish_ret |].
  eapply can_finish_weaken.
  - apply (can_finish_for_range _ (fun i g => rotations f (S i) g)); [exact Hstart |].
    intros i g Hi Hg. apply can_finish_absorb_fresh; [lia | exact Hg].
  - intros g Hg. now replace k with (S (k - 1)) by lia.
Qed.

End PermutationRuns.

(** * Runs that may end in a chosen error

    [guarded E m P]: like [ensures], but an exception that satisfies [E] may
    be raised.  [can_end e m P]: some sequence of draws makes [m] return a
    result that satisfies [P], or makes it raise [e]. *)
Definition guarded {A} (E : exn -> Prop) (m : rnd A) (P : A -> Prop) : Prop :=
  forall tape,
    match m tape with
    | Done (a, _) => P a
    | Raise e => E e
    | Starved => True
    end.

Definition can_raise {A} (m : rnd A) (e : exn) : Prop :=
  exists prefix, forall rest, m (prefix ++ rest) = Raise e.

Definition can_end {A} (e : exn) (m : rnd A) (P : A -> Prop) : Prop :=
  can_finish m P \/ can_raise m e.

Section GuardedRules.
Context {A B : Type}.
Variable E : exn -> Prop.

Lemma guarded_ret (a : A) (P : A -> Prop) : P a -> guarded E (ret a) P.
Proof. intros H tape. exact H. Qed.

Lemma guarded_raise (e : exn) (P : A -> Prop) : E e -> guarded E (raise e) P.
Proof. intros H tape. exact H. Qed.

Lemma guarded_bind (m : rnd A) (k : A -> rnd B) (P : A -> Prop) (Q : B -> Prop) :
  guarded E m P -> (forall a, P a -> guarded E (k a) Q) -> guarded E (m ≫= k) Q.
Proof.
  intros Hm Hk tape. unfold mbind, rnd_bind, bind.
  specialize (Hm tape). destruct (m tape) as [[a tape']| |]; auto.
  apply Hk, Hm.
Qed.

Lemma guarded_lift_bind (o : outcome A) (a : A) (k : A -> rnd B) (Q : B -> Prop) :
  o = Done a -> guarded E (k a) Q -> guarded E (lift o ≫= k) Q.
Proof. intros -> H tape. exact (H tape). Qed.

Lemma guarded_weaken (m : rnd A) (P Q : A -> Prop) :
  guarded E m P -> (forall a, P a -> Q a) -> guarded E m Q.
Proof.
  intros Hm HPQ tape. specialize (Hm tape).
  destruct (m tape) as [[a tape']| |]; auto.
Qed.

Lemma ensures_guarded (m : rnd A) (P : A -> Prop) : ensures m P -> guarded E m P.
Proof.
  intros Hm tape. specialize (Hm tape).
  destruct (m tape) as [[a tape']| |]; auto. contradiction.
Qed.
End GuardedRules.

Lemma guarded_ensures {A} (E : exn -> Prop) (m : rnd A) (P : A -> Prop) :
  (forall e, ~ E e) -> guarded E m P -> ensures m P.
Proof.
  intros HE Hm tape. specialize (Hm tape).
  destruct (m tape) as [[a tape']| |]; auto. exact (HE _ Hm).
Qed.

Section EndRules.
Context {A B : Type}.
Variable e : exn.

Lemma can_end_ret (a : A) (P : A -> Prop) : P a -> can_end e (ret a) P.
Proof. intros H. left. now apply can_finish_ret. Qed.

Lemma can_end_raise (P : A -> Prop) : can_end e (raise e) P.
Proof. right. exists []. intros rest. reflexivity. Qed.

Lemma can_end_finish (m : rnd A) (P : A -> Prop) : can_finish m P -> can_end e m P.
Proof. now left. Qed.

Lemma can_end_bind (m : rnd A) (k : A -> rnd B) (P : A -> Prop) (Q : B -> Prop) :
  can_end e m P -> (forall a, P a -> can_end e (k a) Q) -> can_end e (m ≫= k) Q.
Proof.
  intros [(p1 & a & Ha & Hm) | (p1 & Hm)] Hk.
  - destruct (Hk a Ha) as [(p2 & b & Hb & Hkb) | (p2 & Hkb)].
    + left. exists (p1 ++ p2), b. split; [exact Hb |].
      intros rest. unfold mbind, rnd_bind, bind.
      rewrite <- app_assoc, Hm. apply Hkb.
    + right. exists (p1 ++ p2). intros rest. unfold mbind, rnd_bind, bind.
      rewrite <- app_assoc, Hm. apply Hkb.
  - right. exists p1. intros rest. unfold mbind, rnd_bind, bind. now rewrite Hm.
Qed.

Lemma can_end_lift_bind (o : outcome A) (a : A) (k : A -> rnd B) (Q : B -> Prop) :
  o = Done a -> can_end e (k a) Q -> can_end e (lift o ≫= k) Q.
Proof. intros -> H. exact H. Qed.

Lemma can_end_weaken (m : rnd A) (P Q : A -> Prop) :
  can_end e m P -> (forall a, P a -> Q a) -> can_end e m Q.
Proof.
  intros [H | H] HPQ; [left | now right]. now apply (can_finish_weaken m P).
Qed.
End EndRules.

(** A run that can finish ends in a result every run is bound to have. *)
Lemma can_finish_ensures {A} (m : rnd A) (P Q : A -> Prop) :
  can_finish m P -> ensures m Q -> can_finish m (fun a => P a /\ Q a).
Proof.
  intros (prefix & a & Ha & Hrun) Hsafe. exists prefix, a. split; [| exact Hrun].
  split; [exact Ha |]. specialize (Hsafe (prefix ++ [])). now rewrite Hrun in Hsafe.
Qed.

Section StridedLoops.
Context {S : Type}.
Variable h : nat -> nat.

(** Loops over [h 0, h 1, ...], as [range(0, stop, step)] gives them. *)
Lemma guarded_for_strided E (body : nat -> S -> rnd S) (I : nat -> S -> Prop) len :
  forall a s,
    I a s ->
    (forall i s, a <= i < a + len -> I i s -> guarded E (body (h i) s) (I (1 + i))) ->
    guarded E (for_each (map h (seq a len)) body s) (I (a + len)).
Proof.
  induction len as [|len IH]; intros a s Hs Hbody; cbn [seq map for_each].
  - rewrite Nat.add_0_r. now apply guarded_ret.
  - eapply guarded_bind.
    + apply Hbody; [lia | exact Hs].
    + intros s' Hs'. replace (a + Datatypes.S len) with (Datatypes.S a + len) by lia.
      apply IH; [exact Hs' |]. intros i s'' Hi. apply Hbody. lia.
Qed.

Lemma can_end_for_strided e (body : nat -> S -> rnd S) (I : nat -> S -> Prop) len :
  forall a s,
    I a s ->
    (forall i s, a <= i < a + len -> I i s -> can_end e (body (h i) s) (I (1 + i))) ->
    can_end e (for_each (map h (seq a len)) body s) (I (a + len)).
Proof.
  induction len as [|len IH]; intros a s Hs Hbody; cbn [seq map for_each].
  - rewrite Nat.add_0_r. now apply can_end_ret.
  - eapply can_end_bind.
    + apply Hbody; [lia | exact Hs].
    + intros s' Hs'. replace (a + Datatypes.S len) with (Datatypes.S a + len) by lia.
      apply IH; [exact Hs' |]. intros i s'' Hi. apply Hbody. lia.
Qed.

Lemma returns_for_strided (body : nat -> S -> rnd S) (I : nat -> S -> Prop) len :
  forall a s,
    I a s ->
    (forall i s, a <= i < a + len -> I i s -> returns (body (h i) s) (I (1 + i))) ->
    returns (for_each (map h (seq a len)) body s) (I (a + len)).
Proof.
  induction len as [|len IH]; intros a s Hs Hbody; cbn [seq map for_each].
  - rewrite Nat.add_0_r. now apply returns_ret.
  - eapply returns_bind.
    + apply Hbody; [lia | exact Hs].
    + intros s' Hs'. replace (a + Datatypes.S len) with (Datatypes.S a + len) by lia.
      apply IH; [exact Hs' |]. intros i s'' Hi. apply Hbody. lia.
Qed.
End StridedLoops.

Section PrefixLoops.
Context {X S : Type}.

(** A pure loop over a list, with an invariant on the part already visited. *)
Lemma yields_for_each_from (body : X -> S -> rnd S) (I : list X -> S -> Prop)
    (todo : list X) :
  forall visited s,
    I visited s ->
    (forall before x after s,
        visited ++ todo = before ++ x :: after -> I before s ->
        exists s', yields (body x s) s' /\ I (before ++ [x]) s') ->
    exists s', yields (for_each todo body s) s' /\ I (visited ++ todo) s'.
Proof.
  induction todo as [|x todo IH]; intros visited s Hs Hbody; cbn [for_each].
  - exists s. rewrite app_nil_r. split; [apply yields_ret | exact Hs].
  - destruct (Hbody visited x todo s eq_refl Hs) as (s1 & Hrun1 & Hs1).
    destruct (IH (visited ++ [x]) s1 Hs1) as (s2 & Hrun2 & Hs2).
    { intros before y after s' Heq. apply (Hbody before y after).
      now rewrite <- Heq, <- app_assoc. }
    exists s2. split.
    + eapply yields_bind; [exact Hrun1 | exact Hrun2].
    + now rewrite <- app_assoc in Hs2.
Qed.

Lemma yields_for_each_prefix (body : X -> S -> rnd S) (I : list X -> S -> Prop)
    (xs : list X) s :
  I [] s ->
  (forall before x after s,
      xs = before ++ x :: after -> I before s ->
      exists s', yields (body x s) s' /\ I (before ++ [x]) s') ->
  exists s', yields (for_each xs body s) s' /\ I xs s'.
Proof. intros Hs Hbody. exact (yields_for_each_from body I xs [] s Hs Hbody). Qed.
End PrefixLoops.

(** * The protograph lift *)

Module LiftFacts.
Import ProtographLDPC.

(** ** The freshly allocated graph *)

(** [h] empty rows and no attributes. *)
Definition blank (h : nat) (g : TannerGraph.t) : Prop :=
  TannerGraph.width g = None /\ TannerGraph.height g = None /\
  forall k, TannerGraph.tanner_graph g !! k = if decide (k < h) then Some [] else None.

Lemma addRow_blank h g : blank h g -> blank (S h) (TannerGraph.addRow g).
Proof.
  intros (Hw & Hh & Hrows).
  assert (TannerGraph.len g = h) as Hlen.
  { unfold TannerGraph.len. apply PopulateKeys.size_keys. intros k.
    rewrite Hrows. case_decide; split; intros H'; done. }
  unfold TannerGraph.addRow, blank. cbn. rewrite Hlen. repeat split; auto.
  intros k. destruct (decide (h = k)) as [<- | Hne].
  - rewrite lookup_insert_eq. now rewrite decide_True by lia.
  - rewrite lookup_insert_ne, Hrows by exact Hne.
    repeat case_decide; try reflexivity; lia.
Qed.

Lemma addRow_iter h : blank h (Nat.iter h TannerGraph.addRow TannerGraph.empty).
Proof.
  induction h as [|h IH].
  - repeat split.
  - cbn [Nat.iter]. now apply addRow_blank.
Qed.

Lemma len_keys g h :
  (forall k, is_Some (TannerGraph.tanner_graph g !! k) <-> k < h) ->
  TannerGraph.len g = h.
Proof. apply PopulateKeys.size_keys. Qed.

(** ** The block coordinates *)

Lemma range_step_multiple h f :
  0 < f -> range_step (h * f) f = Done (map (fun i => i * f) (range h)).
Proof.
  intros Hf. unfold range_step. destruct (Nat.eqb_spec f 0); [lia |].
  do 3 f_equal. replace (h * f + f - 1) with ((f - 1) + h * f) by lia.
  rewrite Nat.div_add by lia. rewrite Nat.div_small by lia. reflexivity.
Qed.

End LiftFacts.

(** * Splicing a block into the lifted graph *)

Module SpliceFacts.

(** An [f]-by-[f] block: rows [0 .. f-1] of distinct indices below [f]. *)
Definition sub_ok (f : nat) (sub : graph) : Prop :=
  (forall i, is_Some (sub !! i) <-> i < f) /\
  (forall i row, sub !! i = Some row -> NoDup row /\ Forall (fun x => x < f) row).

(** A splice keeps the keys of the target, whatever it is given. *)
Lemma returns_insert_keys g sub location (keys : nat -> Prop) :
  (forall k, is_Some (TannerGraph.tanner_graph g !! k) <-> keys k) ->
  returns (TannerGraph.insert g sub location)
    (fun g' => TannerGraph.width g' = TannerGraph.width g /\
               TannerGraph.height g' = TannerGraph.height g /\
               forall k, is_Some (TannerGraph.tanner_graph g' !! k) <-> keys k).
Proof.
  intros Hkeys. destruct location as [r0 c0]. unfold TannerGraph.insert.
  eapply returns_bind.
  - apply (returns_for_each _ _ (fun acc : graph => forall k, is_Some (acc !! k) <-> keys k));
      [| exact Hkeys].
    intros [i row] acc _ Hacc.
    apply (returns_for_each _ _ (fun acc : graph => forall k, is_Some (acc !! k) <-> keys k));
      [| exact Hacc].
    intros x acc' _ Hacc'. unfold TannerGraph.insert_edge.
    destruct (acc' !! (i + r0)) as [old|] eqn:Hold; [| apply returns_raise].
    destruct (bool_decide (x + c0 ∈ old)); [apply returns_raise |].
    apply returns_ret. intros k. destruct (decide (i + r0 = k)) as [<- | Hne].
    + rewrite lookup_insert_eq, <- Hacc', Hold. split; eauto.
    + rewrite lookup_insert_ne by exact Hne. apply Hacc'.
  - intros g' Hg'. apply returns_ret. cbn. auto.
Qed.

Lemma yields_insert_row r0 c0 i (row : list nat) :
  forall (old : list nat) (acc : graph),
    acc !! (i + r0) = Some old -> NoDup row ->
    (forall y, y ∈ row -> y + c0 ∉ old) ->
    yields (for_each row (TannerGraph.insert_edge r0 c0 i) acc)
      (<[i + r0 := old ++ map (fun x => x + c0) row]> acc).
Proof.
  induction row as [|x row IH]; intros old acc Hold Hnd Hfresh; cbn [for_each map].
  - rewrite app_nil_r, insert_id by exact Hold. apply yields_ret.
  - apply NoDup_cons in Hnd as [Hx Hnd].
    eapply yields_bind.
    + unfold TannerGraph.insert_edge. rewrite Hold.
      rewrite bool_decide_eq_false_2 by (apply Hfresh; left).
      apply yields_ret.
    + replace (<[i + r0 := old ++ x + c0 :: map (fun x0 => x0 + c0) row]> acc)
        with (<[i + r0 := (old ++ [x + c0]) ++ map (fun x0 => x0 + c0) row]>
                (<[i + r0 := old ++ [x + c0]]> acc)).
      * apply IH; [apply lookup_insert_eq | exact Hnd |].
        intros y Hy Hin. apply elem_of_app in Hin as [Hin | Hin].
        -- exact (Hfresh y ltac:(now right) Hin).
        -- apply list_elem_of_singleton in Hin.
           assert (y = x) as -> by lia. contradiction.
      * rewrite insert_insert_eq, <- app_assoc. reflexivity.
Qed.

Section Splice.
Variables (f r0 c0 : nat) (g : TannerGraph.t) (sub : graph).
Hypothesis block_ok : sub_ok f sub.
Hypothesis band :
  forall i, i < f ->
    exists old, TannerGraph.tanner_graph g !! (i + r0) = Some old /\
                NoDup old /\ Forall (fun x => x < c0) old.

(** While the rows in [visited] have been spliced in. *)
Definition splice_inv (visited : list (nat * list nat)) (acc : graph) : Prop :=
  (forall k, is_Some (acc !! k) <-> is_Some (TannerGraph.tanner_graph g !! k)) /\
  (forall k, k < r0 \/ r0 + f <= k -> acc !! k = TannerGraph.tanner_graph g !! k) /\
  (forall i, i < f -> i ∉ visited.*1 ->
             acc !! (i + r0) = TannerGraph.tanner_graph g !! (i + r0)) /\
  (forall k row, acc !! k = Some row -> r0 <= k < r0 + f ->
                 NoDup row /\ Forall (fun x => x < c0 + f) row).

Lemma splice_inv_start : splice_inv [] (TannerGraph.tanner_graph g).
Proof.
  repeat split; auto.
  - destruct (band (k - r0) ltac:(lia)) as (old & Hold & Hnd & _).
    replace (k - r0 + r0) with k in Hold by lia. congruence.
  - destruct (band (k - r0) ltac:(lia)) as (old & Hold & _ & Hlt).
    replace (k - r0 + r0) with k in Hold by lia.
    assert (row = old) as -> by congruence.
    eapply Forall_impl; [exact Hlt |]. cbn. intros; lia.
Qed.

Lemma splice_inv_step before i row after acc :
  map_to_list sub = before ++ (i, row) :: after ->
  splice_inv before acc ->
  exists acc',
    yields (for_each row (TannerGraph.insert_edge r0 c0 i) acc) acc' /\
    splice_inv (before ++ [(i, row)]) acc'.
Proof.
  intros Hsplit (Hkeys & Hout & Hpending & Hband).
  destruct block_ok as [Hsubkeys Hsubrows].
  assert (sub !! i = Some row) as Hrow.
  { apply elem_of_map_to_list. rewrite Hsplit. apply elem_of_app. right. left. }
  assert (i < f) as Hi by (apply Hsubkeys; eauto).
  destruct (Hsubrows i row Hrow) as [Hnd Hlt].
  assert (i ∉ before.*1) as Hfresh.
  { pose proof (NoDup_fst_map_to_list sub) as Hnodup.
    rewrite Hsplit, fmap_app, fmap_cons in Hnodup. cbn in Hnodup.
    apply NoDup_app in Hnodup as (_ & Hdisj & _).
    intros Hin. apply (Hdisj i Hin). left. }
  destruct (band i Hi) as (old & Hold & Hndold & Hltold).
  assert (acc !! (i + r0) = Some old) as Hacc by (rewrite Hpending; auto).
  rewrite Forall_forall in Hltold. rewrite Forall_forall in Hlt.
  eexists. split.
  - apply (yields_insert_row r0 c0 i row old acc Hacc Hnd).
    intros y Hy Hin. specialize (Hltold _ Hin). lia.
  - repeat split.
    + intros Hsome. destruct (decide (i + r0 = k)) as [<- | Hne].
      * rewrite Hold. eauto.
      * rewrite lookup_insert_ne in Hsome by exact Hne. now apply Hkeys.
    + intros Hsome. destruct (decide (i + r0 = k)) as [<- | Hne].
      * rewrite lookup_insert_eq. eauto.
      * rewrite lookup_insert_ne by exact Hne. now apply Hkeys.
    + intros k Hk. rewrite lookup_insert_ne by lia. now apply Hout.
    + intros i' Hi' Hnot. rewrite fmap_app in Hnot. cbn in Hnot.
      rewrite lookup_insert_ne.
      * apply Hpending; [exact Hi' |]. intros Hin. apply Hnot.
        apply elem_of_app. now left.
      * intros Heq. apply Hnot. apply elem_of_app. right.
        assert (i' = i) as -> by lia. left.
    + destruct (decide (i + r0 = k)) as [<- | Hne].
      * rewrite lookup_insert_eq in H. injection H as <-.
        apply NoDup_app. repeat split; [exact Hndold | | ].
        -- intros y Hy Hin. apply list_elem_of_fmap in Hin as (x & -> & Hx).
           specialize (Hltold _ Hy). lia.
        -- apply NoDup_fmap_2; [| exact Hnd]. intros a b. lia.
      * rewrite lookup_insert_ne in H by exact Hne. now apply (Hband k).
    + destruct (decide (i + r0 = k)) as [<- | Hne].
      * rewrite lookup_insert_eq in H. injection H as <-.
        apply Forall_app. split.
        -- apply Forall_forall. intros y Hy. specialize (Hltold _ Hy). lia.
        -- apply Forall_forall. intros y Hy.
           apply list_elem_of_fmap in Hy as (x & -> & Hx).
           specialize (Hlt _ Hx). cbn in Hlt. lia.
      * rewrite lookup_insert_ne in H by exact Hne. now apply (Hband k).
Qed.

(** The splice of a well-formed block into a band whose rows end before
    column [c0] succeeds; the band then ends before column [c0 + f]. *)
Lemma yields_insert :
  exists g',
    yields (TannerGraph.insert g sub (r0, c0)) g' /\
    TannerGraph.width g' = TannerGraph.width g /\
    TannerGraph.height g' = TannerGraph.height g /\
    (forall k, is_Some (TannerGraph.tanner_graph g' !! k)
               <-> is_Some (TannerGraph.tanner_graph g !! k)) /\
    (forall k, k < r0 \/ r0 + f <= k ->
               TannerGraph.tanner_graph g' !! k = TannerGraph.tanner_graph g !! k) /\
    (forall k row, TannerGraph.tanner_graph g' !! k = Some row -> r0 <= k < r0 + f ->
                   NoDup row /\ Forall (fun x => x < c0 + f) row).
Proof.
  destruct (yields_for_each_prefix
              (fun '(i, row) acc => for_each row (TannerGraph.insert_edge r0 c0 i) acc)
              splice_inv (map_to_list sub) (TannerGraph.tanner_graph g)
              splice_inv_start)
    as (acc & Hrun & Hkeys & Hout & _ & Hband).
  { intros before [i row] after acc Hsplit Hinv. now apply (splice_inv_step _ _ _ after). }
  eexists. split.
  - unfold TannerGraph.insert. eapply yields_bind; [exact Hrun | apply yields_ret].
  - cbn. auto.
Qed.
End Splice.

End SpliceFacts.

(** * The four submatrix constructions yield well-formed blocks *)

Module BlockFacts.
Import ProtographLDPC SpliceFacts.

Lemma sub_ok_stacked f j g :
  PermutationFacts.stacked f j g -> sub_ok f (TannerGraph.tanner_graph g).
Proof.
  intros [_ _ Hkeys Hrows _]. split; [exact Hkeys |].
  intros i row Hrow. destruct (Hrows i row Hrow) as (_ & Hnd & Hlt). auto.
Qed.

Lemma sub_ok_regular_rows f v g :
  PopulateResult.regular_rows f v f g -> sub_ok f g.
Proof.
  intros [Hkeys Hrows]. split; [exact Hkeys |].
  intros i row Hrow. destruct (Hrows i row Hrow) as (_ & Hnd & Hlt). auto.
Qed.

Lemma sub_ok_circulant f v L g :
  0 < f -> QuasiCyclicFacts.seed f v L -> QuasiCyclicFacts.circulant f L g ->
  sub_ok f (TannerGraph.tanner_graph g).
Proof.
  intros Hf (Hlen & Hnd & Hlt) (_ & _ & Hrows & Hnone). split.
  - intros i. destruct (decide (i < f)) as [Hi | Hi].
    + rewrite Hrows by exact Hi. split; [auto | eauto].
    + rewrite Hnone by lia. split; [intros []; done | lia].
  - intros i row Hrow. destruct (decide (i < f)) as [Hi | Hi].
    + rewrite Hrows in Hrow by exact Hi. injection Hrow as <-. split.
      * now apply (CyclicFacts.NoDup_shifted_by f L i).
      * now apply (CyclicFacts.shifted_by_below f L i).
    + rewrite Hnone in Hrow by lia. discriminate.
Qed.

Lemma seed_range f v : v <= f -> QuasiCyclicFacts.seed f v (range v).
Proof.
  intros Hv. unfold range. repeat split.
  - apply length_seq.
  - apply NoDup_seq.
  - apply Forall_forall. intros x Hx. apply elem_of_seq in Hx. lia.
Qed.

(** ** Permuting rows and columns *)

Lemma permuted_rows_ok f g (perm : list nat) :
  sub_ok f g -> perm ≡ₚ range f ->
  sub_ok f (map_seq 0 (map (fun src => default [] (g !! src)) perm)).
Proof.
  intros [Hkeys Hrows] Hperm.
  assert (length perm = f) as Hlen.
  { rewrite Hperm. unfold range. apply length_seq. }
  split.
  - intros i. rewrite lookup_map_seq_0, lookup_lt_is_Some, length_map. lia.
  - intros i row. rewrite lookup_map_seq_0. intros Hrow.
    apply list_lookup_fmap_Some in Hrow as (src & -> & Hsrc).
    assert (src < f) as Hlt.
    { apply list_elem_of_lookup_2 in Hsrc. rewrite Hperm in Hsrc.
      apply elem_of_seq in Hsrc. lia. }
    destruct (proj2 (Hkeys src) Hlt) as [row Hrow]. rewrite Hrow. cbn.
    now apply (Hrows src).
Qed.

Lemma permuted_columns_ok f (g : graph) (perm : list nat) :
  sub_ok f g -> perm ≡ₚ range f ->
  sub_ok f (map (fun x => nth x perm x) <$> g).
Proof.
  intros [Hkeys Hrows] Hperm.
  assert (length perm = f) as Hlen.
  { rewrite Hperm. unfold range. apply length_seq. }
  assert (NoDup perm) as Hnd by (rewrite Hperm; apply NoDup_seq).
  assert (forall x, x < f -> perm !! x = Some (nth x perm x) /\ nth x perm x < f) as Hnth.
  { intros x Hx. destruct (lookup_lt_is_Some_2 perm x ltac:(lia)) as [y Hy].
    rewrite (nth_lookup_Some _ _ _ _ Hy). split; [exact Hy |].
    apply list_elem_of_lookup_2 in Hy. rewrite Hperm in Hy.
    apply elem_of_seq in Hy. lia. }
  split.
  - intros i. rewrite lookup_fmap, fmap_is_Some. apply Hkeys.
  - intros i row. rewrite lookup_fmap. intros Hrow.
    apply fmap_Some in Hrow as (row0 & Hrow0 & ->).
    destruct (Hrows i row0 Hrow0) as [Hnd0 Hlt0]. rewrite Forall_forall in Hlt0.
    split.
    + apply NoDup_fmap_2_strong; [| exact Hnd0].
      intros a b Ha Hb Heq.
      destruct (Hnth a (Hlt0 _ Ha)) as [Hla _]. destruct (Hnth b (Hlt0 _ Hb)) as [Hlb _].
      rewrite <- Heq in Hlb. exact (NoDup_lookup _ _ _ _ Hnd Hla Hlb).
    + apply Forall_forall. intros y Hy. apply list_elem_of_fmap in Hy as (x & -> & Hx).
      now apply Hnth, Hlt0.
Qed.

Lemma permuted_quasi_cyclic_ok f v :
  0 < v -> v <= f ->
  ensures (permuted_quasi_cyclic f v) (fun g => sub_ok f (TannerGraph.tanner_graph g)) /\
  can_finish (permuted_quasi_cyclic f v) (fun g => sub_ok f (TannerGraph.tanner_graph g)).
Proof.
  intros Hv Hvf. unfold permuted_quasi_cyclic.
  destruct (QuasiCyclicFacts.construct_on_empty f (range v)) as (g0 & -> & Hcirc).
  pose proof (sub_ok_circulant f v _ g0 ltac:(lia) (seed_range f v Hvf) Hcirc) as Hok0.
  pose proof Hcirc as (Hw0 & _).
  assert (TannerGraph.len g0 = f) as Hlen0 by (apply LiftFacts.len_keys, Hok0).
  set (P := fun g => TannerGraph.width g = Some f /\ sub_ok f (TannerGraph.tanner_graph g)).
  assert (forall perm, perm ≡ₚ range f ->
            P (TannerGraph.Build
                 (map_seq 0 (map (fun src => default []
                                    (TannerGraph.tanner_graph g0 !! src)) perm))
                 (TannerGraph.width g0) (TannerGraph.height g0))) as Hrows.
  { intros perm Hperm. split; [exact Hw0 |]. cbn. now apply permuted_rows_ok. }
  assert (forall g perm, P g -> perm ≡ₚ range f ->
            sub_ok f (map (fun x => nth x perm x) <$> TannerGraph.tanner_graph g))
    as Hcols.
  { intros g perm [_ Hg] Hperm. now apply permuted_columns_ok. }
  split.
  - apply ensures_ret_bind. eapply ensures_bind.
    + unfold TannerGraph.permute_rows. rewrite Hlen0.
      eapply ensures_bind; [apply ShuffleFacts.ensures_shuffle |].
      intros perm Hperm. apply ensures_ret. exact (Hrows perm Hperm).
    + intros g Hg. unfold TannerGraph.permute_columns. rewrite (proj1 Hg).
      eapply ensures_bind; [apply ShuffleFacts.ensures_shuffle |].
      intros perm Hperm. apply ensures_ret. cbn. now apply Hcols.
  - apply can_finish_ret_bind. eapply can_finish_bind.
    + unfold TannerGraph.permute_rows. rewrite Hlen0.
      eapply can_finish_bind; [apply ShuffleFacts.can_finish_shuffle |].
      intros perm Hperm. apply can_finish_ret. exact (Hrows perm Hperm).
    + intros g Hg. unfold TannerGraph.permute_columns. rewrite (proj1 Hg).
      eapply can_finish_bind; [apply ShuffleFacts.can_finish_shuffle |].
      intros perm Hperm. apply can_finish_ret. cbn. now apply Hcols.
Qed.

(** ** The regular submatrix *)

Lemma regular_ok f v :
  0 < v -> v <= f -> (Z.of_nat f < 2 ^ 53)%Z ->
  ensures (RegularLDPC.init [f; f; v] "populate-rows")
    (fun x => sub_ok f (RegularLDPC.tanner_graph x)) /\
  can_finish (RegularLDPC.init [f; f; v] "populate-rows")
    (fun x => sub_ok f (RegularLDPC.tanner_graph x)).
Proof.
  intros Hv Hvf Hbound. unfold RegularLDPC.init.
  assert (int_div_mul f f v = Done v) as Hr.
  { pose proof (int_div_mul_exact 1 f v ltac:(lia)) as H.
    rewrite !Nat.mul_1_l in H. apply H; lia. }
  change (RegularLDPC.get_parity_check_graph f v v "populate-rows")
    with (RegularLDPC.populate_rows f v v).
  assert (int_div (f * v) v = Done f) as Hh by (apply int_div_exact; lia).
  destruct (PopulateResult.populate_rows_with_height f v v f Hh ltac:(lia))
    as [Hsafe Hfin].
  split.
  - apply (ensures_lift_bind _ _ _ _ Hr).
    eapply ensures_bind; [exact Hsafe |]. intros g Hg. apply ensures_ret. cbn.
    now apply (sub_ok_regular_rows f v).
  - apply (can_finish_lift_bind _ _ _ _ Hr).
    eapply can_finish_bind; [exact Hfin |]. intros g Hg. apply can_finish_ret. cbn.
    now apply (sub_ok_regular_rows f v).
Qed.

(** ** Every recognised construction *)

Lemma submatrix_ok name f v :
  name ∈ submatrix_constructions -> 0 < v -> v <= f -> (Z.of_nat f < 2 ^ 53)%Z ->
  ensures (submatrix name f v) (fun code => sub_ok f (graph_of code)) /\
  can_finish (submatrix name f v) (fun code => sub_ok f (graph_of code)).
Proof.
  intros Hname Hv Hvf Hbound. unfold submatrix_constructions in Hname.
  repeat (apply elem_of_cons in Hname as [-> | Hname]); [| | | | now apply elem_of_nil in Hname].
  - change (submatrix "permutation" f v)
      with (g ← permutation f v; ret (Graph g)).
    pose proof (PermutationRuns.ensures_permutation f v Hv) as Hsafe.
    pose proof (PermutationRuns.can_finish_permutation f v Hv Hvf) as Hfin.
    split.
    + eapply ensures_bind; [exact Hsafe |]. intros g Hg. apply ensures_ret. cbn.
      now apply (sub_ok_stacked f v).
    + eapply can_finish_bind; [exact (can_finish_ensures _ _ _ Hfin Hsafe) |].
      intros g [_ Hg]. apply can_finish_ret. cbn. now apply (sub_ok_stacked f v).
  - change (submatrix "regular" f v)
      with (x ← RegularLDPC.init [f; f; v] "populate-rows"; ret (Regular x)).
    destruct (regular_ok f v Hv Hvf Hbound) as [Hsafe Hfin]. split.
    + eapply ensures_bind; [exact Hsafe |]. intros x Hx. now apply ensures_ret.
    + eapply can_finish_bind; [exact Hfin |]. intros x Hx. now apply can_finish_ret.
  - change (submatrix "quasi-cyclic" f v)
      with (g ← quasi_cyclic f v; ret (Graph g)).
    pose proof (QuasiCyclicFacts.ensures_quasi_cyclic f v Hvf) as Hsafe.
    pose proof (QuasiCyclicFacts.can_finish_quasi_cyclic f v Hvf) as Hfin.
    split.
    + eapply ensures_bind; [exact Hsafe |]. intros g (L & Hseed & Hg).
      apply ensures_ret. cbn. apply (sub_ok_circulant f v L); auto. lia.
    + eapply can_finish_bind; [exact Hfin |]. intros g Hg.
      apply can_finish_ret. cbn.
      apply (sub_ok_circulant f v (range v)); auto; [lia | now apply seed_range].
  - change (submatrix "permuted-quasi-cyclic" f v)
      with (g ← permuted_quasi_cyclic f v; ret (Graph g)).
    destruct (permuted_quasi_cyclic_ok f v Hv Hvf) as [Hsafe Hfin]. split.
    + eapply ensures_bind; [exact Hsafe |]. intros g Hg. now apply ensures_ret.
    + eapply can_finish_bind; [exact Hfin |]. intros g Hg. now apply can_finish_ret.
Qed.

End BlockFacts.

(** * Runs of the lift *)

Module LiftRuns.
Import ProtographLDPC SpliceFacts LiftFacts.

Lemma index_canon i :
  (Z.of_nat i < 2 ^ 53)%Z ->
  Protograph.index (Float64Facts.canon (Z.of_nat i)) = Done i.
Proof.
  intros Hi. unfold Protograph.index.
  rewrite Float64Facts.to_int_canon by lia. cbn. now rewrite Nat2Z.id.
Qed.

(** The lookup the loop makes for the block at [(i * f, j * f)]. *)
Lemma entry_exact p f i j :
  0 < f -> (Z.of_nat i < 2 ^ 53)%Z -> (Z.of_nat j < 2 ^ 53)%Z ->
  entry p f (i * f) (j * f)
  = match cell p i j with Some v => Done v | None => Raise IndexError end.
Proof.
  intros Hf Hi Hj. unfold entry, cell.
  rewrite !Nat2Z.inj_mul, !Float64Facts.truediv_exact by lia. cbn.
  unfold Protograph.get. rewrite !index_canon by assumption. cbn.
  destruct (Protograph.entries p !! i) as [r|]; [| reflexivity].
  now destruct (r !! j).
Qed.

Lemma cell_well_formed p i j :
  well_formed p -> i < Protograph.height p -> j < Protograph.width p ->
  exists v, cell p i j = Some v.
Proof.
  intros [Hlen Hrows] Hi Hj. unfold cell.
  destruct (lookup_lt_is_Some_2 (Protograph.entries p) i ltac:(lia)) as [r Hr].
  rewrite Hr. apply lookup_lt_is_Some_2.
  rewrite Forall_forall in Hrows. rewrite (Hrows r); [exact Hj |].
  eapply list_elem_of_lookup_2, Hr.
Qed.

Section Lift.
Variables (p : Protograph.t) (f : nat) (name : string).
Let h := Protograph.height p.
Let w := Protograph.width p.

(** Every block position visited before [(i, j)] holds at most [f]. *)
Definition cells_before (i j : nat) : Prop :=
  forall i' j' v,
    (i' < i /\ j' < w) \/ (i' = i /\ j' < j) ->
    cell p i' j' = Some v -> v <= f.

(** Some block position holds more than [f]. *)
Definition bad_cell : Prop :=
  exists i j v, i < h /\ j < w /\ cell p i j = Some v /\ f < v.

(** While the block at [(i, j)] is about to be built. *)
Record lift_inv (i j : nat) (g : TannerGraph.t) : Prop := {
  li_keys : forall k, is_Some (TannerGraph.tanner_graph g !! k) <-> k < h * f;
  li_later : forall k row, TannerGraph.tanner_graph g !! k = Some row ->
             (i + 1) * f <= k -> row = [];
  li_band : forall k row, TannerGraph.tanner_graph g !! k = Some row ->
            i * f <= k < (i + 1) * f ->
            NoDup row /\ Forall (fun x => x < j * f) row;
  li_cells : cells_before i j
}.

Lemma lift_inv_start g : blank (h * f) g -> lift_inv 0 0 g.
Proof.
  intros (_ & _ & Hrows). split.
  - intros k. rewrite Hrows. case_decide; split; intros H'; done.
  - intros k row. rewrite Hrows. case_decide; congruence.
  - intros k row. rewrite Hrows. case_decide; [| congruence].
    intros [= <-] _. split; constructor.
  - intros i' j' v [[Hi _] | [_ Hj]]; lia.
Qed.

Lemma lift_inv_next_row i g : lift_inv i w g -> lift_inv (S i) 0 g.
Proof.
  intros [Hkeys Hlater Hband Hcells]. split.
  - exact Hkeys.
  - intros k row Hrow Hk. apply (Hlater k row Hrow). lia.
  - intros k row Hrow Hk. rewrite (Hlater k row Hrow) by lia. split; constructor.
  - intros i' j' v [[Hi Hj] | [_ Hj]] Hcell; [| lia].
    apply (Hcells i' j' v); [| exact Hcell].
    destruct (decide (i' = i)) as [-> | Hne]; [right | left]; lia.
Qed.

Lemma lift_inv_skip i j g v :
  cell p i j = Some v -> v <= f -> lift_inv i j g -> lift_inv i (S j) g.
Proof.
  intros Hcell Hv [Hkeys Hlater Hband Hcells]. split; auto.
  - intros k row Hrow Hk. destruct (Hband k row Hrow Hk) as [Hnd Hlt].
    split; [exact Hnd |]. eapply Forall_impl; [exact Hlt |]. cbn. intros; lia.
  - intros i' j' v' [[Hi Hj] | [-> Hj]] Hcell'.
    + apply (Hcells i' j' v'); auto.
    + destruct (decide (j' = j)) as [-> | Hne]; [congruence |].
      apply (Hcells i j' v'); [right; lia | exact Hcell'].
Qed.

Lemma lift_inv_insert i j g v sub :
  i < h -> cell p i j = Some v -> v <= f ->
  lift_inv i j g -> sub_ok f sub ->
  exists g', yields (TannerGraph.insert g sub (i * f, j * f)) g' /\ lift_inv i (S j) g'.
Proof.
  intros Hi Hcell Hv Hinv Hsub. pose proof Hinv as [Hkeys Hlater Hband Hcells].
  destruct (yields_insert f (i * f) (j * f) g sub Hsub)
    as (g' & Hrun & _ & _ & Hkeys' & Hout & Hband').
  { intros i0 Hi0.
    destruct (proj2 (Hkeys (i0 + i * f))) as [old Hold]; [nia |].
    exists old. split; [exact Hold |]. apply (Hband _ _ Hold). lia. }
  exists g'. split; [exact Hrun |]. split.
  - intros k. rewrite Hkeys'. apply Hkeys.
  - intros k row Hrow Hk. rewrite Hout in Hrow by lia. now apply (Hlater k).
  - intros k row Hrow Hk. replace (S j * f) with (j * f + f) by lia.
    apply (Hband' k row Hrow). lia.
  - exact (li_cells _ _ _ (lift_inv_skip i j g v Hcell Hv Hinv)).
Qed.

Hypothesis f_pos : 0 < f.
Hypothesis shape : well_formed p.
Hypothesis sizes : small p f.
Hypothesis known : name ∈ submatrix_constructions.

(** The only error a run may end in, and only when a block position
    holds more than [f]. *)
Definition rejected (e : exn) : Prop := e = InvalidProtograph /\ bad_cell.

Lemma block_step i j g :
  i < h -> j < w -> lift_inv i j g ->
  guarded rejected (block p f name (i * f) (j * f) g) (lift_inv i (S j)) /\
  can_end InvalidProtograph (block p f name (i * f) (j * f) g) (lift_inv i (S j)).
Proof.
  intros Hi Hj Hinv. destruct sizes as (Hh & Hw & Hfs).
  destruct (cell_well_formed p i j shape Hi Hj) as [v Hcell].
  assert (entry p f (i * f) (j * f) = Done v) as Hentry.
  { rewrite entry_exact, Hcell by (unfold h, w in *; lia). reflexivity. }
  unfold block.
  destruct (Nat.ltb_spec f v) as [Hbig | Hle].
  - split.
    + apply (guarded_lift_bind _ _ _ _ _ Hentry).
      destruct (Nat.ltb_spec f v); [| lia].
      apply guarded_raise. split; [reflexivity |]. now exists i, j, v.
    + apply (can_end_lift_bind _ _ _ _ _ Hentry).
      destruct (Nat.ltb_spec f v); [| lia]. apply can_end_raise.
  - destruct (Nat.eqb_spec v 0) as [-> | Hnz].
    + pose proof (lift_inv_skip i j g 0 Hcell Hle Hinv) as Hnext. split.
      * apply (guarded_lift_bind _ _ _ _ _ Hentry).
        destruct (Nat.ltb_spec f 0); [lia |]. now apply guarded_ret.
      * apply (can_end_lift_bind _ _ _ _ _ Hentry).
        destruct (Nat.ltb_spec f 0); [lia |]. now apply can_end_ret.
    + destruct (BlockFacts.submatrix_ok name f v known ltac:(lia) Hle Hfs)
        as [Hsafe Hfin].
      assert (forall sub, sub_ok f (graph_of sub) ->
                exists g', yields (TannerGraph.insert g (graph_of sub) (i * f, j * f)) g'
                           /\ lift_inv i (S j) g') as Hins.
      { intros sub Hsub. now apply (lift_inv_insert i j g v). }
      split.
      * apply (guarded_lift_bind _ _ _ _ _ Hentry).
        destruct (Nat.ltb_spec f v); [lia |]. destruct (Nat.eqb_spec v 0); [lia |].
        apply ensures_guarded. eapply ensures_bind; [exact Hsafe |].
        intros sub Hsub. destruct (Hins sub Hsub) as (g' & Hrun & Hg').
        now apply (yields_ensures _ g').
      * apply (can_end_lift_bind _ _ _ _ _ Hentry).
        destruct (Nat.ltb_spec f v); [lia |]. destruct (Nat.eqb_spec v 0); [lia |].
        apply can_end_finish. eapply can_finish_bind; [exact Hfin |].
        intros sub Hsub. destruct (Hins sub Hsub) as (g' & Hrun & Hg').
        now apply (yields_can_finish _ g').
Qed.

Lemma row_step i g :
  i < h -> lift_inv i 0 g ->
  let body :=
    col_starts ← lift (range_step (w * f) f);
    for_each col_starts (block p f name (i * f)) g in
  guarded rejected body (lift_inv (S i) 0) /\
  can_end InvalidProtograph body (lift_inv (S i) 0).
Proof.
  intros Hi Hinv body. subst body.
  pose proof (range_step_multiple w f f_pos) as Hcols. unfold range in Hcols.
  split.
  - apply (guarded_lift_bind _ _ _ _ _ Hcols).
    eapply guarded_weaken; [| intros g'; apply lift_inv_next_row].
    apply (guarded_for_strided (fun j => j * f) rejected
             (block p f name (i * f)) (fun j g => lift_inv i j g) w 0 g Hinv).
    intros j g' Hj Hg'. apply block_step; [exact Hi | lia | exact Hg'].
  - apply (can_end_lift_bind _ _ _ _ _ Hcols).
    eapply can_end_weaken; [| intros g'; apply lift_inv_next_row].
    apply (can_end_for_strided (fun j => j * f) InvalidProtograph
             (block p f name (i * f)) (fun j g => lift_inv i j g) w 0 g Hinv).
    intros j g' Hj Hg'. apply block_step; [exact Hi | lia | exact Hg'].
Qed.

(** What a finished lift looks like. *)
Definition lifted (g : graph) : Prop :=
  (forall k, is_Some (g !! k) <-> k < h * f) /\ ~ bad_cell.

Lemma lift_inv_end g : lift_inv h 0 g -> lifted (TannerGraph.tanner_graph g).
Proof.
  intros [Hkeys _ _ Hcells]. split; [exact Hkeys |].
  intros (i & j & v & Hi & Hj & Hcell & Hv).
  pose proof (Hcells i j v ltac:(left; lia) Hcell). lia.
Qed.

Lemma expanded_protograph_runs :
  guarded rejected (expanded_protograph p f name) lifted /\
  can_end InvalidProtograph (expanded_protograph p f name) lifted.
Proof.
  unfold expanded_protograph. fold h w.
  pose proof (addRow_iter (h * f)) as Hblank.
  set (g0 := Nat.iter (h * f) TannerGraph.addRow TannerGraph.empty) in *.
  pose proof (lift_inv_start g0 Hblank) as Hstart.
  assert (TannerGraph.len g0 = h * f) as Hlen by (apply len_keys, Hstart).
  rewrite Hlen.
  pose proof (range_step_multiple h f f_pos) as Hrows. unfold range in Hrows.
  split.
  - apply (guarded_lift_bind _ _ _ _ _ Hrows).
    eapply guarded_bind; [| intros g Hg; apply guarded_ret, (lift_inv_end g Hg)].
    apply (guarded_for_strided (fun i => i * f) rejected _
             (fun i g => lift_inv i 0 g) h 0 g0 Hstart).
    intros i g Hi Hg. apply (row_step i g); [lia | exact Hg].
  - apply (can_end_lift_bind _ _ _ _ _ Hrows).
    eapply can_end_bind; [| intros g Hg; apply can_end_ret, (lift_inv_end g Hg)].
    apply (can_end_for_strided (fun i => i * f) InvalidProtograph _
             (fun i g => lift_inv i 0 g) h 0 g0 Hstart).
    intros i g Hi Hg. apply (row_step i g); [lia | exact Hg].
Qed.
End Lift.

End LiftRuns.

(** * What holds of a lift on any input *)

Module LiftReturns.
Import ProtographLDPC LiftFacts.

(** The lift never changes the set of check nodes it allocated. *)
Lemma returns_expanded_keys p f name :
  returns (expanded_protograph p f name)
    (fun g => forall k, is_Some (g !! k) <-> k < Protograph.height p * f).
Proof.
  unfold expanded_protograph.
  pose proof (addRow_iter (Protograph.height p * f)) as (_ & _ & Hrows).
  set (g0 := Nat.iter _ TannerGraph.addRow TannerGraph.empty) in *.
  set (keys := fun g : TannerGraph.t =>
         forall k, is_Some (TannerGraph.tanner_graph g !! k)
                   <-> k < Protograph.height p * f).
  assert (keys g0) as Hstart.
  { intros k. rewrite Hrows. case_decide; split; intros H'; done. }
  eapply returns_bind; [apply returns_any |]. intros row_starts _.
  eapply returns_bind; [| intros g Hg; apply returns_ret; exact Hg].
  apply (returns_for_each _ _ keys); [| exact Hstart].
  intros r g _ Hg.
  eapply returns_bind; [apply returns_any |]. intros col_starts _.
  apply (returns_for_each _ _ keys); [| exact Hg].
  intros c g' _ Hg'. unfold block.
  eapply returns_bind; [apply returns_any |]. intros v _.
  destruct (f <? v); [apply returns_raise |].
  destruct (v =? 0); [now apply returns_ret |].
  eapply returns_bind; [apply returns_any |]. intros sub _.
  eapply returns_weaken; [apply (SpliceFacts.returns_insert_keys _ _ _ _ Hg') |].
  intros g'' (_ & _ & Hkeys). exact Hkeys.
Qed.

(** A lift that returns has met no block position that holds more than [f]. *)
Lemma returns_expanded_cells p f name :
  small p f ->
  returns (expanded_protograph p f name) (fun _ => ~ LiftRuns.bad_cell p f).
Proof.
  intros (Hh & Hw & Hf). unfold expanded_protograph.
  pose proof (addRow_iter (Protograph.height p * f)) as Hblank.
  set (g0 := Nat.iter _ TannerGraph.addRow TannerGraph.empty) in *.
  assert (TannerGraph.len g0 = Protograph.height p * f) as Hlen.
  { apply len_keys. intros k. destruct Hblank as (_ & _ & Hrows).
    rewrite Hrows. case_decide; split; intros H'; done. }
  rewrite Hlen.
  destruct (Nat.eq_dec f 0) as [-> | Hpos].
  { unfold range_step. cbn. intros tape a rest [=]. }
  pose proof (range_step_multiple (Protograph.height p) f ltac:(lia)) as Hrows.
  pose proof (range_step_multiple (Protograph.width p) f ltac:(lia)) as Hcols.
  unfold range in Hrows, Hcols.
  apply (returns_lift_bind _ _ _ _ Hrows).
  eapply returns_bind.
  - apply (returns_for_strided (fun i => i * f) _
             (fun i _ => LiftRuns.cells_before p f i 0)
             (Protograph.height p) 0 g0).
    { intros i' j' v [[Hi _] | [_ Hj]]; lia. }
    intros i g [_ Hi] Hcells. cbn in Hi.
    apply (returns_lift_bind _ _ _ _ Hcols).
    eapply returns_weaken.
    + apply (returns_for_strided (fun j => j * f) _
               (fun j _ => LiftRuns.cells_before p f i j)
               (Protograph.width p) 0 g Hcells).
      intros j g' [_ Hj] Hcells'. cbn in Hj. unfold block.
      rewrite LiftRuns.entry_exact by lia.
      destruct (cell p i j) as [v|] eqn:Hcell; [| intros tape a rest [=]].
      apply (returns_lift_bind _ v); [reflexivity |].
      destruct (Nat.ltb_spec f v) as [Hbig | Hle]; [apply returns_raise |].
      eapply returns_weaken; [apply returns_any |]. intros _ _.
      intros i' j' v' [[Hi' Hj'] | [-> Hj']] Hcell'.
      * apply (Hcells' i' j' v'); auto.
      * destruct (decide (j' = j)) as [-> | Hne]; [congruence |].
        apply (Hcells' i j' v'); [right; lia | exact Hcell'].
    + intros g' Hcells' i' j' v [[Hi' Hj'] | [_ Hj']] Hcell; [| lia].
      apply (Hcells' i' j' v); [| exact Hcell].
      destruct (decide (i' = i)) as [-> | Hne]; [right | left]; lia.
  - intros g Hcells. apply returns_ret.
    intros (i & j & v & Hi & Hj & Hcell & Hv).
    pose proof (Hcells i j v ltac:(left; lia) Hcell). lia.
Qed.

End LiftReturns.

(** * The cut-off of the absorb loop is never reached

    [absorb_fresh] runs the rejection loop for one round more than the
    tape has draws.  Every rejected round uses draws, so any larger
    number of rounds gives the same outcome: the cut-off only shortens
    runs that are starved anyway. *)

Module AbsorbLoop.
Import ProtographLDPC.

Lemma for_each_draws {X S} (body : X -> S -> rnd S) (xs : list X) :
  (forall x s tape s' tape',
      body x s tape = Done (s', tape') -> length tape = 1 + length tape') ->
  forall s tape s' tape',
    for_each xs body s tape = Done (s', tape') ->
    length tape = length xs + length tape'.
Proof.
  intros Hbody. induction xs as [|x xs IH]; intros s tape s' tape'; cbn [for_each].
  - intros [= <- <-]. reflexivity.
  - unfold mbind, rnd_bind, bind.
    destruct (body x s tape) as [[s1 tape1]| |] eqn:Hrun; [| discriminate ..].
    intros Hrest. apply Hbody in Hrun. apply IH in Hrest. cbn [length]. lia.
Qed.

Lemma sample_draws population k tape result tape' :
  sample population k tape = Done (result, tape') ->
  length tape = k + length tape'.
Proof.
  unfold sample. destruct (length population <? k); [discriminate |].
  unfold mbind, rnd_bind, bind.
  destruct (for_each (range k) _ _ tape) as [[st tape1]| |] eqn:Hrun;
    [| discriminate ..].
  intros [= <- <-]. apply for_each_draws in Hrun.
  - unfold range in Hrun. now rewrite length_seq in Hrun.
  - intros i [pool res] t s' t'. unfold sample_step, mbind, rnd_bind, bind, randbelow.
    destruct t as [|d t]; [discriminate |]. intros [= <- <-]. reflexivity.
Qed.

Lemma overlaps_nothing g : Identity.overlaps g (Identity.init []) = false.
Proof. unfold Identity.overlaps. cbn. now rewrite map_to_list_empty. Qed.

Lemma absorb_trial_rounds f g :
  forall rounds rounds' tape,
    length tape < rounds -> length tape < rounds' ->
    absorb_trial rounds f g tape = absorb_trial rounds' f g tape.
Proof.
  induction rounds as [|rounds IH]; intros rounds' tape Hr Hr'; [lia |].
  destruct rounds' as [|rounds']; [lia |]. cbn [absorb_trial].
  unfold mbind, rnd_bind, bind.
  destruct (sample (range f) f tape) as [[perm tape']| |] eqn:Hrun; try reflexivity.
  destruct (Identity.overlaps g (Identity.init perm)) eqn:Hover; [| reflexivity].
  pose proof (sample_draws _ _ _ _ _ Hrun) as Hlen.
  destruct (Nat.eq_dec f 0) as [-> | Hf].
  - exfalso. cbv in Hrun. injection Hrun as <- _.
    now rewrite overlaps_nothing in Hover.
  - apply IH; lia.
Qed.

Lemma absorb_fresh_rounds f g tape rounds :
  length tape < rounds -> absorb_trial rounds f g tape = absorb_fresh f g tape.
Proof.
  intros Hr. unfold absorb_fresh. apply absorb_trial_rounds; lia.
Qed.

End AbsorbLoop.

(** * The claims *)

Lemma can_finish_run {A} (m : rnd A) (P : A -> Prop) :
  can_finish m P -> exists tape a rest, m tape = Done (a, rest) /\ P a.
Proof.
  intros (prefix & a & Ha & Hrun). exists prefix, a, [].
  split; [| exact Ha]. rewrite <- (Hrun []). now rewrite app_nil_r.
Qed.

(** C1: for [0 < r], [n % r == 0] and [n * c] in the range of exact
    doubles, the populate-rows construction never raises, some sequence
    of draws makes it return, and whenever it returns the graph has the
    check nodes [0 .. n*c/r - 1], each with exactly [r] distinct
    variable-node indices. *)
Theorem populate_rows_row_regular (n r c : nat) :
  0 < r -> n mod r = 0 -> (Z.of_nat (n * c) < 2 ^ 53)%Z ->
  (forall tape,
     match RegularLDPC.get_parity_check_graph n r c "populate-rows" tape with
     | Done (g, _) =>
         (forall i, is_Some (g !! i) <-> i < n * c / r) /\ row_regular r g
     | Raise _ => False
     | Starved => True
     end) /\
  (exists tape g rest,
     RegularLDPC.get_parity_check_graph n r c "populate-rows" tape = Done (g, rest)).
Proof.
  intros Hr Hmod Hbound.
  change (RegularLDPC.get_parity_check_graph n r c "populate-rows")
    with (RegularLDPC.populate_rows n r c).
  destruct (PopulateResult.populate_rows_spec n r c Hr Hmod Hbound) as [Hsafe Hfin].
  split.
  - intros tape. specialize (Hsafe tape).
    destruct (RegularLDPC.populate_rows n r c tape) as [[g rest]| |]; auto.
    destruct Hsafe as [Hkeys Hrows]. split; [exact Hkeys |].
    intros i row Hrow. destruct (Hrows i row Hrow) as (Hlen & Hnd & _). auto.
  - destruct (can_finish_run _ _ Hfin) as (tape & g & rest & Hrun & _).
    now exists tape, g, rest.
Qed.

Lemma populate_rows_row_regular_witness :
  (0 < 4 /\ 8 mod 4 = 0 /\ (Z.of_nat (8 * 2) < 2 ^ 53)%Z) /\
  exists tape g rest,
    RegularLDPC.get_parity_check_graph 8 4 2 "populate-rows" tape = Done (g, rest).
Proof.
  assert (0 < 4 /\ 8 mod 4 = 0 /\ (Z.of_nat (8 * 2) < 2 ^ 53)%Z) as H.
  { split; [lia | split; [reflexivity | reflexivity]]. }
  split; [exact H |].
  destruct H as (H1 & H2 & H3).
  exact (proj2 (populate_rows_row_regular 8 4 2 H1 H2 H3)).
Defined.

(** ** The code object of [RegularLDPC] *)

Lemma returns_populate_rows_keys n r c :
  returns (RegularLDPC.populate_rows n r c)
    (fun g => exists keys, int_div (n * c) r = Done keys /\
                           forall i, is_Some (g !! i) <-> i < keys).
Proof.
  unfold RegularLDPC.populate_rows.
  eapply returns_bind; [apply returns_lift; intros keys Hkeys; exact Hkeys |].
  intros keys Hkeys. cbv beta in Hkeys.
  eapply returns_weaken; [apply PopulateKeys.returns_populate_keys |].
  intros g Hg. now exists keys.
Qed.

Lemma returns_init_populate_rows n h c :
  returns (RegularLDPC.init [n; h; c] "populate-rows")
    (fun x => int_div_mul n h c = Done (RegularLDPC.r x) /\
              RegularLDPC.width x = n /\ RegularLDPC.height x = h /\
              RegularLDPC.n x = n /\ RegularLDPC.c x = c /\
              exists keys, int_div (n * c) (RegularLDPC.r x) = Done keys /\
                forall i, is_Some (RegularLDPC.tanner_graph x !! i) <-> i < keys).
Proof.
  unfold RegularLDPC.init.
  eapply returns_bind; [apply returns_lift; intros r Hr; exact Hr |].
  intros r Hr. cbv beta in Hr.
  change (RegularLDPC.get_parity_check_graph n r c "populate-rows")
    with (RegularLDPC.populate_rows n r c).
  eapply returns_bind; [apply returns_populate_rows_keys |].
  intros g Hg. apply returns_ret. simpl. auto 10.
Qed.

(** C10: whenever [RegularLDPC([n, h, c], "populate-rows")] returns, its
    row weight is [int((n / h) * c)] and its graph has exactly
    [int(n * c / r)] check-node keys, [0] up to that count; with
    [n = 7, h = 5, c = 2] the row weight is 2 and the graph has 7 check
    nodes while the height attribute is 5. *)
Theorem regular_init_row_count :
  (forall n h c tape x rest,
     RegularLDPC.init [n; h; c] "populate-rows" tape = Done (x, rest) ->
     int_div_mul n h c = Done (RegularLDPC.r x) /\
     RegularLDPC.height x = h /\
     exists keys,
       int_div (n * c) (RegularLDPC.r x) = Done keys /\
       size (RegularLDPC.tanner_graph x) = keys /\
       forall i, is_Some (RegularLDPC.tanner_graph x !! i) <-> i < keys) /\
  (exists tape x rest,
     RegularLDPC.init [7; 5; 2] "populate-rows" tape = Done (x, rest) /\
     RegularLDPC.r x = 2 /\
     size (RegularLDPC.tanner_graph x) = 7 /\
     RegularLDPC.height x = 5).
Proof.
  split.
  - intros n h c tape x rest Hrun.
    destruct (returns_init_populate_rows n h c tape x rest Hrun)
      as (Hr & _ & Hh & _ & _ & keys & Hkeys & Hdom).
    repeat split; auto. exists keys. repeat split; auto; try apply Hdom.
    now apply PopulateKeys.size_keys.
  - exists (repeat 0 14).
    destruct (RegularLDPC.init [7; 5; 2] "populate-rows" (repeat 0 14))
      as [[x rest]| |] eqn:Hrun; [| vm_compute in Hrun; discriminate ..].
    exists x, rest. split; [reflexivity |].
    destruct (returns_init_populate_rows 7 5 2 _ x rest Hrun)
      as (Hr & _ & Hh & _ & _ & keys & Hkeys & Hdom).
    assert (int_div_mul 7 5 2 = Done 2) as Er by (vm_compute; reflexivity).
    rewrite Er in Hr. injection Hr as Hr. rewrite <- Hr in Hkeys.
    assert (int_div (7 * 2) 2 = Done 7) as Ek by (vm_compute; reflexivity).
    rewrite Ek in Hkeys. injection Hkeys as <-.
    repeat split; auto. now apply PopulateKeys.size_keys.
Qed.

(** ** The regular submatrix *)

(** The spec's wording of the regular submatrix: the row-regular
    construction with [n = height = f] and row weight = column weight = [v]. *)
Definition regular_submatrix_spec (f v : nat) : rnd ProtographLDPC.code :=
  g ← RegularLDPC.get_parity_check_graph f v v "populate-rows";
  ret (ProtographLDPC.Regular (RegularLDPC.Build f f f v v "populate-rows" g)).

Lemma row_weight_of_square f v :
  0 < f -> (Z.of_nat v < 2 ^ 53)%Z -> int_div_mul f f v = Done v.
Proof.
  intros Hf Hv. pose proof (int_div_mul_exact 1 f v Hf) as H.
  rewrite !Nat.mul_1_l in H. apply H; lia.
Qed.

(** C9: for [0 < v <= f] (and [v] an exact double) the regular submatrix
    is the row-regular code of width [f], height [f] and column weight
    [v], and the row weight it infers, [int((f / f) * v)], is [v]. *)
Theorem regular_submatrix_refines (f v : nat) :
  0 < v -> v <= f -> (Z.of_nat v < 2 ^ 53)%Z ->
  int_div_mul f f v = Done v /\
  forall tape,
    ProtographLDPC.submatrix "regular" f v tape = regular_submatrix_spec f v tape.
Proof.
  intros Hv Hvf Hbound.
  assert (int_div_mul f f v = Done v) as Hr by (apply row_weight_of_square; lia).
  split; [exact Hr |]. intros tape.
  change (ProtographLDPC.submatrix "regular" f v)
    with (x ← RegularLDPC.init [f; f; v] "populate-rows"; ret (ProtographLDPC.Regular x)).
  unfold regular_submatrix_spec, RegularLDPC.init.
  rewrite Hr. unfold mbind, rnd_bind, bind, lift.
  destruct (RegularLDPC.get_parity_check_graph f v v "populate-rows" tape)
    as [[g rest]| |]; reflexivity.
Qed.

Lemma regular_submatrix_refines_witness :
  (0 < 2 /\ 2 <= 3 /\ (Z.of_nat 2 < 2 ^ 53)%Z) /\
  int_div_mul 3 3 2 = Done 2 /\
  forall tape,
    ProtographLDPC.submatrix "regular" 3 2 tape = regular_submatrix_spec 3 2 tape.
Proof.
  assert (0 < 2 /\ 2 <= 3 /\ (Z.of_nat 2 < 2 ^ 53)%Z) as H.
  { split; [lia | split; [lia | reflexivity]]. }
  split; [exact H |].
  destruct H as (H1 & H2 & H3).
  exact (regular_submatrix_refines 3 2 H1 H2 H3).
Defined.

(** ** Unknown construction names *)

Ltac known_name H :=
  match goal with
  | |- context [String.eqb ?a ?b] =>
      destruct (String.eqb_spec a b) as [-> | _];
      [exfalso; apply H; apply list_elem_of_In; simpl; tauto |]
  end.

(** C8: a name outside the names a dispatcher knows makes it raise the
    invalid-construction error, whatever the other arguments and the
    draws: [get_parity_check_graph] for the regular constructions and
    [submatrix] for the protograph ones. *)
Theorem unknown_construction_rejected (name : string) :
  (name ∉ regular_constructions ->
   forall n r c tape,
     RegularLDPC.get_parity_check_graph n r c name tape = Raise InvalidConstruction) /\
  (name ∉ submatrix_constructions ->
   forall f k tape,
     ProtographLDPC.submatrix name f k tape = Raise InvalidConstruction).
Proof.
  split; intros Hname.
  - intros n r c tape. unfold RegularLDPC.get_parity_check_graph.
    repeat known_name Hname. reflexivity.
  - intros f k tape. unfold ProtographLDPC.submatrix.
    repeat known_name Hname. reflexivity.
Qed.

Lemma unknown_construction_rejected_witness :
  ((("bogus" : string) ∉ regular_constructions) /\
   (("bogus" : string) ∉ submatrix_constructions)) /\
  RegularLDPC.get_parity_check_graph 8 4 2 "bogus" [] = Raise InvalidConstruction /\
  ProtographLDPC.submatrix "bogus" 3 2 [] = Raise InvalidConstruction.
Proof.
  assert ((("bogus" : string) ∉ regular_constructions) /\
          (("bogus" : string) ∉ submatrix_constructions)) as [H1 H2].
  { split; intros H; repeat (apply elem_of_cons in H as [H|H]; [discriminate |]);
      now apply elem_of_nil in H. }
  split; [now split |]. split.
  - exact (proj1 (unknown_construction_rejected "bogus") H1 8 4 2 []).
  - exact (proj2 (unknown_construction_rejected "bogus") H2 3 2 []).
Defined.

(** ** Gallager's construction *)

(** C2: for [0 < r], [n % r == 0] and [n * c] in the range of exact
    doubles, the Gallager construction never raises, returns once the
    tape holds enough draws for its shuffles, and whenever it returns
    the graph has exactly [c * (n // r)] check nodes, numbered from 0,
    and row [j] of each of the [c] stacked blocks has exactly [r]
    distinct indices. *)
Theorem gallager_stacked_blocks (n r c : nat) :
  0 < r -> n mod r = 0 -> (Z.of_nat (n * c) < 2 ^ 53)%Z ->
  (forall tape,
     match RegularLDPC.get_parity_check_graph n r c "gallager" tape with
     | Done (g, _) =>
         size g = c * (n / r) /\
         (forall k, is_Some (g !! k) <-> k < c * (n / r)) /\
         (forall b j, b < c -> j < n / r ->
            exists row, g !! (b * (n / r) + j) = Some row /\
                        length row = r /\ NoDup row)
     | Raise _ => False
     | Starved => True
     end) /\
  (exists tape g rest,
     RegularLDPC.get_parity_check_graph n r c "gallager" tape = Done (g, rest)).
Proof.
  intros Hr Hmod Hbound.
  change (RegularLDPC.get_parity_check_graph n r c "gallager")
    with (RegularLDPC.gallager n r c).
  destruct (GallagerFacts.gallager_spec n r c Hr Hmod Hbound) as [Hsafe Hfin].
  split.
  - intros tape. specialize (Hsafe tape).
    destruct (RegularLDPC.gallager n r c tape) as [[g rest]| |]; auto.
    destruct Hsafe as [Hkeys Hrows]. split; [| split].
    + now apply PopulateKeys.size_keys.
    + exact Hkeys.
    + intros b j Hb Hj.
      destruct (proj2 (Hkeys (b * (n / r) + j))) as [row Hrow]; [nia |].
      exists row. split; [exact Hrow |]. now apply (Hrows _ _ Hrow).
  - destruct (can_finish_run _ _ Hfin) as (tape & g & rest & Hrun & _).
    now exists tape, g, rest.
Qed.

Lemma gallager_stacked_blocks_witness :
  (0 < 4 /\ 8 mod 4 = 0 /\ (Z.of_nat (8 * 2) < 2 ^ 53)%Z) /\
  exists tape g rest,
    RegularLDPC.get_parity_check_graph 8 4 2 "gallager" tape = Done (g, rest).
Proof.
  assert (0 < 4 /\ 8 mod 4 = 0 /\ (Z.of_nat (8 * 2) < 2 ^ 53)%Z) as H.
  { split; [lia | split; [reflexivity | reflexivity]]. }
  split; [exact H |].
  destruct H as (H1 & H2 & H3).
  exact (proj2 (gallager_stacked_blocks 8 4 2 H1 H2 H3)).
Defined.

(** ** The quasi-cyclic submatrix *)

(** C3: for [0 < v <= f] the quasi-cyclic submatrix never raises, returns
    once the tape holds the draws of the sample, and whenever it returns
    row [i + 1] is row [i] with every index advanced by one modulo [f],
    for every [i] with [i + 1 < f], and every row has exactly [v]
    distinct indices. *)
Theorem quasi_cyclic_rows_shift (f v : nat) :
  0 < v -> v <= f ->
  (forall tape,
     match ProtographLDPC.submatrix "quasi-cyclic" f v tape with
     | Done (code, _) =>
         let g := ProtographLDPC.graph_of code in
         (forall i, i + 1 < f ->
            exists row, g !! i = Some row /\
                        g !! (i + 1) = Some (TannerGraph.right_shift_row row f)) /\
         (forall i, i < f ->
            exists row, g !! i = Some row /\ length row = v /\ NoDup row)
     | Raise _ => False
     | Starved => True
     end) /\
  (exists tape code rest,
     ProtographLDPC.submatrix "quasi-cyclic" f v tape = Done (code, rest)).
Proof.
  intros Hv Hvf.
  change (ProtographLDPC.submatrix "quasi-cyclic" f v)
    with (g ← ProtographLDPC.quasi_cyclic f v; ret (ProtographLDPC.Graph g)).
  split.
  - intros tape.
    pose proof (QuasiCyclicFacts.ensures_quasi_cyclic f v Hvf tape) as Hsafe.
    unfold mbind, rnd_bind, bind.
    destruct (ProtographLDPC.quasi_cyclic f v tape) as [[g rest]| |]; auto.
    destruct Hsafe as (L & Hseed & Hcirc). cbn. split.
    + intros i Hi. now apply (QuasiCyclicFacts.circulant_next f L).
    + intros i Hi. now apply (QuasiCyclicFacts.circulant_weight f v L).
  - destruct (can_finish_run _ _ (QuasiCyclicFacts.can_finish_quasi_cyclic f v Hvf))
      as (tape & g & rest & Hrun & _).
    exists tape, (ProtographLDPC.Graph g), rest.
    unfold mbind, rnd_bind, bind. now rewrite Hrun.
Qed.

Lemma quasi_cyclic_rows_shift_witness :
  (0 < 2 /\ 2 <= 3) /\
  exists tape code rest,
    ProtographLDPC.submatrix "quasi-cyclic" 3 2 tape = Done (code, rest).
Proof.
  assert (0 < 2 /\ 2 <= 3) as H by (split; lia).
  split; [exact H |].
  destruct H as (H1 & H2).
  exact (proj2 (quasi_cyclic_rows_shift 3 2 H1 H2)).
Defined.



(** ** The permutation submatrix *)

(** C5, as amended: for [1 <= k <= f] the permutation submatrix never
    raises, some sequence of draws makes it return, and whenever it
    returns every row below [f] has exactly [k] distinct indices and
    every column below [f] has weight exactly [k]. *)
Theorem permutation_sum_weights (f k : nat) :
  0 < k -> k <= f ->
  (forall tape,
     match ProtographLDPC.submatrix "permutation" f k tape with
     | Done (code, _) =>
         let g := ProtographLDPC.graph_of code in
         (forall i, i < f ->
            exists row, g !! i = Some row /\ length row = k /\ NoDup row) /\
         (forall x, x < f -> column_weight g f x = k)
     | Raise _ => False
     | Starved => True
     end) /\
  (exists tape code rest,
     ProtographLDPC.submatrix "permutation" f k tape = Done (code, rest)).
Proof.
  intros Hk Hkf.
  change (ProtographLDPC.submatrix "permutation" f k)
    with (g ← ProtographLDPC.permutation f k; ret (ProtographLDPC.Graph g)).
  split.
  - intros tape.
    pose proof (PermutationRuns.ensures_permutation f k Hk tape) as Hsafe.
    unfold mbind, rnd_bind, bind.
    destruct (ProtographLDPC.permutation f k tape) as [[g rest]| |]; auto.
    destruct Hsafe as [_ _ Hkeys Hrows Hcols]. cbn. split; [| exact Hcols].
    intros i Hi. destruct (proj2 (Hkeys i) Hi) as [row Hrow].
    exists row. split; [exact Hrow |].
    destruct (Hrows i row Hrow) as (Hlen & Hnd & _). auto.
  - destruct (can_finish_run _ _ (PermutationRuns.can_finish_permutation f k Hk Hkf))
      as (tape & g & rest & Hrun & _).
    exists tape, (ProtographLDPC.Graph g), rest.
    unfold mbind, rnd_bind, bind. now rewrite Hrun.
Qed.

Lemma permutation_sum_weights_witness :
  (0 < 2 /\ 2 <= 3) /\
  exists tape code rest,
    ProtographLDPC.submatrix "permutation" 3 2 tape = Done (code, rest).
Proof.
  assert (0 < 2 /\ 2 <= 3) as H by (split; lia).
  split; [exact H |].
  destruct H as (H1 & H2).
  exact (proj2 (permutation_sum_weights 3 2 H1 H2)).
Defined.

(** C5 as stated fails for [k = 0]: with [f = 1] the submatrix is one
    permutation, so its row has weight 1, not 0. *)
Lemma permutation_sum_weights_counterexample :
  0 <= 1 /\
  exists code rest,
    ProtographLDPC.submatrix "permutation" 1 0 [0] = Done (code, rest) /\
    exists row, ProtographLDPC.graph_of code !! 0 = Some row /\ length row <> 0.
Proof.
  split; [lia |].
  eexists _, _. split; [vm_compute; reflexivity |].
  exists [0]. split; [vm_compute; reflexivity | discriminate].
Qed.

(** ** The protograph lift *)

Lemma init_done p f name tape x rest :
  ProtographLDPC.init p f name tape = Done (x, rest) ->
  exists g, ProtographLDPC.expanded_protograph p f name tape = Done (g, rest) /\
            x = ProtographLDPC.Build name p f f
                  (Protograph.width p * f) (Protograph.height p * f) g.
Proof.
  unfold ProtographLDPC.init, mbind, rnd_bind, bind.
  destruct (ProtographLDPC.expanded_protograph p f name tape) as [[g rest']| |];
    [| discriminate ..].
  intros [= <- <-]. now exists g.
Qed.

Lemma init_raise p f name tape e :
  ProtographLDPC.init p f name tape = Raise e <->
  ProtographLDPC.expanded_protograph p f name tape = Raise e.
Proof.
  unfold ProtographLDPC.init, mbind, rnd_bind, bind.
  destruct (ProtographLDPC.expanded_protograph p f name tape) as [[g rest']| |];
    split; intros H; try discriminate; injection H as ->; reflexivity.
Qed.

(** C7: whenever the lift returns, its width attribute is [n_p * f], its
    height attribute is [m_p * f] and its graph has exactly the check
    nodes [0 .. m_p * f - 1]; and for a recognised construction name, a
    positive lift factor and a well-formed protograph whose entries do
    not exceed [f] (sizes being exact doubles) the lift never raises and
    some sequence of draws makes it return. *)
Theorem lift_dimensions (p : Protograph.t) (f : nat) (name : string) :
  (forall tape x rest,
     ProtographLDPC.init p f name tape = Done (x, rest) ->
     ProtographLDPC.width x = Protograph.width p * f /\
     ProtographLDPC.height x = Protograph.height p * f /\
     forall k, is_Some (ProtographLDPC.tanner_graph x !! k)
               <-> k < Protograph.height p * f) /\
  (name ∈ submatrix_constructions -> 0 < f -> well_formed p -> small p f ->
   (forall i j v, cell p i j = Some v -> v <= f) ->
   (forall tape e, ProtographLDPC.init p f name tape <> Raise e) /\
   (exists tape x rest, ProtographLDPC.init p f name tape = Done (x, rest))).
Proof.
  split.
  - intros tape x rest Hrun.
    destruct (init_done _ _ _ _ _ _ Hrun) as (g & Hg & ->). cbn.
    repeat split; try apply (LiftReturns.returns_expanded_keys p f name _ _ _ Hg).
  - intros Hname Hf Hshape Hsizes Hcells.
    assert (~ LiftRuns.bad_cell p f) as Hgood.
    { intros (i & j & v & _ & _ & Hcell & Hv).
      pose proof (Hcells i j v Hcell). lia. }
    destruct (LiftRuns.expanded_protograph_runs p f name Hf Hshape Hsizes Hname)
      as [Hsafe Hend].
    assert (forall tape e, ProtographLDPC.expanded_protograph p f name tape <> Raise e)
      as Hnoraise.
    { intros tape e Hrun. specialize (Hsafe tape). rewrite Hrun in Hsafe.
      now destruct Hsafe as [_ Hbad]. }
    split.
    + intros tape e Hrun. apply init_raise in Hrun. exact (Hnoraise _ _ Hrun).
    + destruct Hend as [Hfin | (prefix & Hraise)].
      * destruct (can_finish_run _ _ Hfin) as (tape & g & rest & Hrun & _).
        exists tape. eexists _, rest.
        unfold ProtographLDPC.init, mbind, rnd_bind, bind. now rewrite Hrun.
      * exfalso. exact (Hnoraise _ _ (Hraise [])).
Qed.

(** The protograph of the spec's scenario. *)
Definition scenario : Protograph.t := Protograph.Build 2 2 [[2; 1]; [1; 2]].

Lemma lift_dimensions_witness :
  ((("quasi-cyclic" : string) ∈ submatrix_constructions) /\ 0 < 3 /\
   well_formed scenario /\ small scenario 3 /\
   (forall i j v, cell scenario i j = Some v -> v <= 3)) /\
  exists tape x rest,
    ProtographLDPC.init scenario 3 "quasi-cyclic" tape = Done (x, rest).
Proof.
  assert ((("quasi-cyclic" : string) ∈ submatrix_constructions) /\ 0 < 3 /\
          well_formed scenario /\ small scenario 3 /\
          (forall i j v, cell scenario i j = Some v -> v <= 3)) as H.
  { split; [apply list_elem_of_In; cbn; tauto |].
    split; [lia |]. split; [split; [reflexivity | repeat constructor] |].
    split; [repeat split |].
    intros [|[|i]] [|[|j]] v; cbn; intros [=]; subst; lia. }
  split; [exact H |].
  destruct H as (H1 & H2 & H3 & H4 & H5).
  exact (proj2 (proj2 (lift_dimensions scenario 3 "quasi-cyclic") H1 H2 H3 H4 H5)).
Defined.

(** C6, as amended: when the entry at an existing block position exceeds
    [f] (sizes being exact doubles) the lift returns no graph, whatever
    the construction name; for a recognised name, a positive lift factor
    and a well-formed protograph the only error it raises is the
    invalid-protograph one, and some sequence of draws makes it raise it. *)
Theorem lift_rejects_large_entry (p : Protograph.t) (f : nat) (name : string)
    (row col v : nat) :
  row < Protograph.height p -> col < Protograph.width p ->
  cell p row col = Some v -> f < v -> small p f ->
  (forall tape x rest, ProtographLDPC.init p f name tape <> Done (x, rest)) /\
  (name ∈ submatrix_constructions -> 0 < f -> well_formed p ->
   (forall tape e, ProtographLDPC.init p f name tape = Raise e ->
                   e = InvalidProtograph) /\
   (exists tape, ProtographLDPC.init p f name tape = Raise InvalidProtograph)).
Proof.
  intros Hrow Hcol Hcell Hv Hsizes.
  assert (LiftRuns.bad_cell p f) as Hbad by (now exists row, col, v).
  split.
  - intros tape x rest Hrun.
    destruct (init_done _ _ _ _ _ _ Hrun) as (g & Hg & _).
    exact (LiftReturns.returns_expanded_cells p f name Hsizes _ _ _ Hg Hbad).
  - intros Hname Hf Hshape.
    destruct (LiftRuns.expanded_protograph_runs p f name Hf Hshape Hsizes Hname)
      as [Hsafe Hend].
    split.
    + intros tape e Hrun. apply init_raise in Hrun.
      specialize (Hsafe tape). rewrite Hrun in Hsafe. exact (proj1 Hsafe).
    + destruct Hend as [Hfin | (prefix & Hraise)].
      * exfalso. destruct (can_finish_run _ _ Hfin) as (tape & g & rest & _ & _ & Hgood).
        exact (Hgood Hbad).
      * exists (prefix ++ []). apply init_raise, Hraise.
Qed.

(** A protograph whose second entry exceeds the lift factor 2. *)
Definition oversized : Protograph.t := Protograph.Build 2 1 [[1; 5]].

Lemma lift_rejects_large_entry_witness :
  (0 < Protograph.height oversized /\ 1 < Protograph.width oversized /\
   cell oversized 0 1 = Some 5 /\ 2 < 5 /\ small oversized 2) /\
  (forall tape x rest,
     ProtographLDPC.init oversized 2 "regular" tape <> Done (x, rest)).
Proof.
  assert (0 < Protograph.height oversized /\ 1 < Protograph.width oversized /\
          cell oversized 0 1 = Some 5 /\ 2 < 5 /\ small oversized 2) as H.
  { cbn. split; [lia |]. split; [lia |]. split; [reflexivity |].
    split; [lia | repeat split]. }
  split; [exact H |].
  destruct H as (H1 & H2 & H3 & H4 & H5).
  exact (proj1 (lift_rejects_large_entry oversized 2 "regular" 0 1 5 H1 H2 H3 H4 H5)).
Defined.

(** C6 as stated fails when the construction name is not recognised: the
    block before the oversized entry is built first and raises the
    invalid-construction error. *)
Lemma lift_rejects_large_entry_counterexample :
  (cell oversized 0 1 = Some 5 /\ 2 < 5) /\
  (forall tape,
     ProtographLDPC.init oversized 2 "bogus" tape = Raise InvalidConstruction) /\
  InvalidConstruction <> InvalidProtograph.
Proof.
  split; [split; [reflexivity | lia] |].
  split; [| discriminate].
  intros tape. vm_compute. reflexivity.
Qed.

(** * Further properties of the two modules *)

(** ** Runs that cannot end

    [hangs m]: no sequence of draws lets [m] return or raise; the loop it
    is caught in asks for draws for ever. *)
Definition hangs {A} (m : rnd A) : Prop := forall tape, m tape = Starved.

Section HangRules.
Context {A B : Type}.

Lemma hangs_bind (m : rnd A) (k : A -> rnd B) : hangs m -> hangs (m ≫= k).
Proof. intros Hm tape. unfold mbind, rnd_bind, bind. now rewrite Hm. Qed.

Lemma hangs_after (m : rnd A) (k : A -> rnd B) (P : A -> Prop) :
  ensures m P -> (forall a, P a -> hangs (k a)) -> hangs (m ≫= k).
Proof.
  intros Hm Hk tape. unfold mbind, rnd_bind, bind. specialize (Hm tape).
  destruct (m tape) as [[a rest]| |]; [now apply Hk | contradiction | reflexivity].
Qed.

Lemma hangs_lift_bind (o : outcome A) (a : A) (k : A -> rnd B) :
  o = Done a -> hangs (k a) -> hangs (lift o ≫= k).
Proof. intros -> H tape. exact (H tape). Qed.
End HangRules.

Lemma for_each_app {X S} (body : X -> S -> rnd S) (xs ys : list X) :
  forall s tape,
    for_each (xs ++ ys) body s tape
    = (s' ← for_each xs body s; for_each ys body s') tape.
Proof.
  induction xs as [|x xs IH]; intros s tape; [reflexivity |].
  cbn [app for_each]. unfold mbind, rnd_bind, bind.
  destruct (body x s tape) as [[s1 tape1]| |]; [| reflexivity ..].
  apply IH.
Qed.

Lemma choice_until_hangs m (bad : nat -> bool) :
  0 < m -> (forall x, x < m -> bad x = true) -> hangs (choice_until m bad).
Proof.
  intros Hm Hbad tape. induction tape as [|x tape IH]; cbn [choice_until];
    destruct (Nat.eqb_spec m 0); try lia; [reflexivity |].
  rewrite Hbad by (apply Nat.mod_upper_bound; lia). exact IH.
Qed.

(** A duplicate-free list of [m] indices below [m] holds every one of them. *)
Lemma full_row (row : list nat) m x :
  NoDup row -> Forall (fun y => y < m) row -> length row = m -> x < m -> x ∈ row.
Proof.
  intros Hnd Hlt Hlen Hx.
  destruct (decide (x ∈ row)) as [Hin | Hout]; [exact Hin | exfalso].
  assert (length (x :: row) <= length (seq 0 m)) as Hle.
  { apply submseteq_length, NoDup_submseteq.
    - now apply NoDup_cons.
    - intros y Hy. apply elem_of_seq. apply elem_of_cons in Hy as [-> | Hy]; [lia |].
      rewrite Forall_forall in Hlt. specialize (Hlt y Hy). lia. }
  rewrite length_seq in Hle. cbn [length] in Hle. lia.
Qed.

Module PopulateHangs.
Import RegularLDPC PopulateFacts.

Lemma scan_full row avail :
  Forall (fun a => count row a = 1) avail -> scan row avail = length avail.
Proof.
  induction 1 as [|a avail Ha _ IH]; [reflexivity |].
  cbn [scan length]. rewrite Ha. cbn. now rewrite IH.
Qed.

(** Once row [i] holds every index below [m], the next placement in it
    is caught in the loop that looks for a free index. *)
Lemma place_hangs rows m k i st :
  0 < m -> i < rows -> inv rows m m k i m st -> hangs (place m k i st).
Proof.
  intros Hm Hi [Hb Hp Hd Hr]. unfold place, get_row.
  destruct (st_graph st !! i) as [row|] eqn:Hrow.
  2:{ exfalso. apply Hd in Hi. rewrite Hrow in Hi. now destruct Hi. }
  destruct (Hr i row Hrow) as (Hnd & Hlt & Hlen).
  rewrite decide_False, decide_True in Hlen by lia.
  assert (forall x, x < m -> count row x = 1) as Hfull.
  { intros x Hx. rewrite count_NoDup by exact Hnd.
    rewrite decide_True; [reflexivity |]. now apply (full_row row m). }
  intros tape. unfold mbind, rnd_bind, bind, ret.
  rewrite scan_full.
  2:{ eapply Forall_impl; [exact Hp |]. exact Hfull. }
  rewrite Hb, Nat.eqb_refl.
  rewrite choice_until_hangs; auto.
  intros x Hx. rewrite Hfull by exact Hx. reflexivity.
Qed.

(** A row that is to receive more entries than there are indices is
    never finished. *)
Lemma populate_hangs rows per_row m k :
  0 < rows -> 0 < m -> m < per_row -> hangs (populate rows per_row m k).
Proof.
  intros Hrows Hm Hover. unfold populate.
  destruct (PopulateResult.fill_available_ok k m ltac:(lia)) as (avail & Hfill & Hlen & Hpool).
  apply (hangs_lift_bind _ _ _ Hfill). apply hangs_bind.
  unfold range. destruct rows as [|rows]; [lia |].
  cbn [seq for_each]. apply hangs_bind.
  replace per_row with (m + S (per_row - m - 1)) by lia.
  rewrite seq_app. intros tape. rewrite for_each_app. revert tape.
  apply (hangs_after _ _ (inv (S rows) m m k 0 m)).
  - apply (ensures_for_range _ (fun j st => inv (S rows) m m k 0 j st)).
    + now apply PopulateResult.inv_start.
    + intros j st Hj Hinv. apply (ensures_place (S rows) m m k); auto; lia.
  - intros st Hst. cbn [seq for_each]. apply hangs_bind.
    apply (place_hangs (S rows)); auto; lia.
Qed.

End PopulateHangs.

(** ** Errors and dead ends of the regular constructions *)

(** X1: a row weight of zero is a division by zero in each of the three
    constructions, whatever the other arguments and the draws. *)
Theorem zero_row_weight_rejected (name : string) :
  name ∈ regular_constructions ->
  forall n c tape,
    RegularLDPC.get_parity_check_graph n 0 c name tape = Raise ZeroDivisionError.
Proof.
  intros Hname n c tape. unfold regular_constructions in Hname.
  repeat (apply elem_of_cons in Hname as [-> | Hname]);
    [| | | now apply elem_of_nil in Hname].
  - reflexivity.
  - change (RegularLDPC.get_parity_check_graph n 0 c "populate-rows")
      with (RegularLDPC.populate_rows n 0 c).
    unfold RegularLDPC.populate_rows, int_div, Float64.truediv. reflexivity.
  - change (RegularLDPC.get_parity_check_graph n 0 c "populate-columns")
      with (RegularLDPC.populate_columns n 0 c).
    unfold RegularLDPC.populate_columns, int_div, Float64.truediv. reflexivity.
Qed.

Lemma zero_row_weight_rejected_witness :
  (("populate-columns" : string) ∈ regular_constructions) /\
  RegularLDPC.get_parity_check_graph 6 0 3 "populate-columns" [1; 2]
    = Raise ZeroDivisionError.
Proof.
  assert (("populate-columns" : string) ∈ regular_constructions) as H.
  { apply list_elem_of_In. cbn. tauto. }
  split; [exact H |].
  exact (zero_row_weight_rejected "populate-columns" H 6 3 [1; 2]).
Defined.

(** X2: a populate construction that is asked for more distinct entries than
    there are indices never ends: populate-rows when the row weight
    exceeds the width, populate-columns when the column weight exceeds the
    height.  The loop that looks for a free index finds none and keeps
    drawing. *)
Theorem populate_overfull_hangs (n r c h : nat) :
  0 < h -> 0 < r -> n * c = h * r -> (Z.of_nat (n * c) < 2 ^ 53)%Z ->
  (n < r ->
   forall tape, RegularLDPC.get_parity_check_graph n r c "populate-rows" tape = Starved) /\
  (h < c ->
   forall tape, RegularLDPC.get_parity_check_graph n r c "populate-columns" tape = Starved).
Proof.
  intros Hh Hr Hnc Hbound.
  assert (int_div (n * c) r = Done h) as Hheight.
  { rewrite Hnc. apply int_div_exact; [exact Hr | nia]. }
  assert (0 < n) as Hn by nia.
  split; intros Hover.
  - change (RegularLDPC.get_parity_check_graph n r c "populate-rows")
      with (RegularLDPC.populate_rows n r c).
    unfold RegularLDPC.populate_rows.
    apply (hangs_lift_bind _ _ _ Hheight).
    now apply PopulateHangs.populate_hangs.
  - change (RegularLDPC.get_parity_check_graph n r c "populate-columns")
      with (RegularLDPC.populate_columns n r c).
    unfold RegularLDPC.populate_columns.
    apply (hangs_lift_bind _ _ _ Hheight). apply hangs_bind.
    now apply PopulateHangs.populate_hangs.
Qed.

Lemma populate_overfull_hangs_witness :
  (0 < 1 /\ 0 < 4 /\ 2 * 2 = 1 * 4 /\ (Z.of_nat (2 * 2) < 2 ^ 53)%Z /\ 2 < 4 /\ 1 < 2) /\
  RegularLDPC.get_parity_check_graph 2 4 2 "populate-rows" [0; 1; 0; 1; 1] = Starved /\
  RegularLDPC.get_parity_check_graph 2 4 2 "populate-columns" [0; 1; 0; 1; 1] = Starved.
Proof.
  assert (0 < 1 /\ 0 < 4 /\ 2 * 2 = 1 * 4 /\ (Z.of_nat (2 * 2) < 2 ^ 53)%Z /\
          2 < 4 /\ 1 < 2) as H.
  { repeat split; lia. }
  split; [exact H |].
  destruct H as (H1 & H2 & H3 & H4 & H5 & H6).
  split.
  - exact (proj1 (populate_overfull_hangs 2 4 2 1 H1 H2 H3 H4) H5 [0; 1; 0; 1; 1]).
  - exact (proj2 (populate_overfull_hangs 2 4 2 1 H1 H2 H3 H4) H6 [0; 1; 0; 1; 1]).
Defined.

(** ** The constructor of [RegularLDPC] *)

(** X3: the argument errors of the constructor, whatever the construction
    name: an empty argument list fails at [args[0]], any other list that
    does not have three entries is rejected as invalid input, and a
    height of zero is a division by zero, which comes before the
    construction is looked at. *)
Theorem regular_init_argument_errors (name : string) :
  (forall tape, RegularLDPC.init [] name tape = Raise IndexError) /\
  (forall args tape, args <> [] -> length args <> 3 ->
     RegularLDPC.init args name tape = Raise InvalidArguments) /\
  (forall n c tape, RegularLDPC.init [n; 0; c] name tape = Raise ZeroDivisionError).
Proof.
  split; [reflexivity |]. split.
  - intros [|a0 [|a1 [|a2 [|a3 args]]]] tape Hne Hlen; cbn in Hlen;
      try reflexivity; congruence || lia.
  - intros n c tape. unfold RegularLDPC.init, int_div_mul, Float64.truediv.
    reflexivity.
Qed.

Lemma regular_init_argument_errors_witness :
  (([8; 4] : list nat) <> [] /\ length ([8; 4] : list nat) <> 3) /\
  RegularLDPC.init [8; 4] "gallager" [] = Raise InvalidArguments.
Proof.
  assert (([8; 4] : list nat) <> [] /\ length ([8; 4] : list nat) <> 3) as H.
  { split; [discriminate | cbn; lia]. }
  split; [exact H |].
  destruct H as (H1 & H2).
  exact (proj1 (proj2 (regular_init_argument_errors "gallager")) [8; 4] [] H1 H2).
Defined.

(** X4: when the height divides the width, [n = q * h], the row weight the
    constructor infers, [int((n / h) * c)], is exactly [q * c], and the
    object is built from the graph of that row weight (all sizes being
    exact doubles). *)
Theorem regular_init_infers_row_weight (q h c : nat) (name : string) :
  0 < h -> (Z.of_nat q < 2 ^ 53)%Z -> (Z.of_nat c < 2 ^ 53)%Z ->
  (Z.of_nat (q * c) < 2 ^ 53)%Z ->
  forall tape,
    RegularLDPC.init [q * h; h; c] name tape
    = (g ← RegularLDPC.get_parity_check_graph (q * h) (q * c) c name;
       ret (RegularLDPC.Build (q * h) h (q * h) c (q * c) name g)) tape.
Proof.
  intros Hh Hq Hc Hqc tape. unfold RegularLDPC.init.
  rewrite (int_div_mul_exact q h c Hh Hqc Hq Hc). reflexivity.
Qed.

Lemma regular_init_infers_row_weight_witness :
  (0 < 4 /\ (Z.of_nat 2 < 2 ^ 53)%Z /\ (Z.of_nat 2 < 2 ^ 53)%Z /\
   (Z.of_nat (2 * 2) < 2 ^ 53)%Z) /\
  exists x,
    RegularLDPC.init [2 * 4; 4; 2] "populate-rows" (repeat 0 16) = Done (x, []) /\
    RegularLDPC.n x = 8 /\ RegularLDPC.height x = 4 /\ RegularLDPC.c x = 2 /\
    RegularLDPC.r x = 4 /\
    map (fun i => RegularLDPC.tanner_graph x !! i) (range 5)
      = [Some [7; 6; 5; 4]; Some [3; 2; 1; 0]; Some [7; 6; 5; 4]; Some [3; 2; 1; 0];
         None].
Proof.
  assert (0 < 4 /\ (Z.of_nat 2 < 2 ^ 53)%Z /\ (Z.of_nat 2 < 2 ^ 53)%Z /\
          (Z.of_nat (2 * 2) < 2 ^ 53)%Z) as H.
  { split; [lia | repeat split]. }
  split; [exact H |].
  destruct H as (H1 & H2 & H3 & H4).
  rewrite (regular_init_infers_row_weight 2 4 2 "populate-rows" H1 H2 H3 H4
             (repeat 0 16)).
  eexists. split; [vm_compute; reflexivity |].
  repeat split; vm_compute; reflexivity.
Defined.

(** ** Submatrices that are asked for too much *)

(** X5: a quasi-cyclic block with more ones per row than the block is wide
    fails in [random.sample], which raises [ValueError]. *)
Theorem quasi_cyclic_oversampled (f v : nat) :
  f < v ->
  forall tape, ProtographLDPC.submatrix "quasi-cyclic" f v tape = Raise ValueError.
Proof.
  intros Hv tape.
  change (ProtographLDPC.submatrix "quasi-cyclic" f v)
    with (g ← ProtographLDPC.quasi_cyclic f v; ret (ProtographLDPC.Graph g)).
  unfold ProtographLDPC.quasi_cyclic, sample, range, mbind, rnd_bind, bind.
  rewrite length_seq. destruct (Nat.ltb_spec f v); [reflexivity | lia].
Qed.

Lemma quasi_cyclic_oversampled_witness :
  3 < 4 /\ ProtographLDPC.submatrix "quasi-cyclic" 3 4 [0; 0; 0; 0] = Raise ValueError.
Proof.
  assert (3 < 4) as H by lia.
  split; [exact H |].
  exact (quasi_cyclic_oversampled 3 4 H [0; 0; 0; 0]).
Defined.

(** X6: a regular block with more ones per row than the block is wide never
    ends: the inferred row weight is [v], and populate-rows cannot find
    [v] distinct indices among [f]. *)
Theorem regular_submatrix_overfull_hangs (f v : nat) :
  0 < f -> f < v -> (Z.of_nat v < 2 ^ 53)%Z ->
  forall tape, ProtographLDPC.submatrix "regular" f v tape = Starved.
Proof.
  intros Hf Hv Hbound.
  change (ProtographLDPC.submatrix "regular" f v)
    with (x ← RegularLDPC.init [f; f; v] "populate-rows"; ret (ProtographLDPC.Regular x)).
  apply hangs_bind. unfold RegularLDPC.init.
  apply (hangs_lift_bind _ _ _ (row_weight_of_square f v Hf Hbound)).
  apply hangs_bind.
  change (RegularLDPC.get_parity_check_graph f v v "populate-rows")
    with (RegularLDPC.populate_rows f v v).
  unfold RegularLDPC.populate_rows.
  assert (int_div (f * v) v = Done f) as Hh by (apply int_div_exact; lia).
  apply (hangs_lift_bind _ _ _ Hh).
  now apply PopulateHangs.populate_hangs.
Qed.

Lemma regular_submatrix_overfull_hangs_witness :
  (0 < 2 /\ 2 < 3 /\ (Z.of_nat 3 < 2 ^ 53)%Z) /\
  ProtographLDPC.submatrix "regular" 2 3 [5; 1; 4; 1; 3] = Starved.
Proof.
  assert (0 < 2 /\ 2 < 3 /\ (Z.of_nat 3 < 2 ^ 53)%Z) as H.
  { split; [lia | split; [lia | reflexivity]]. }
  split; [exact H |].
  destruct H as (H1 & H2 & H3).
  exact (regular_submatrix_overfull_hangs 2 3 H1 H2 H3 [5; 1; 4; 1; 3]).
Defined.

(** A duplicate-free list of indices below [f] has at most [f] entries. *)
Lemma length_bounded (row : list nat) f :
  NoDup row -> Forall (fun x => x < f) row -> length row <= f.
Proof.
  intros Hnd Hlt.
  transitivity (length (seq 0 f)); [| now rewrite length_seq].
  apply submseteq_length, NoDup_submseteq; [exact Hnd |].
  intros x Hx. apply elem_of_seq. rewrite Forall_forall in Hlt.
  specialize (Hlt x Hx). lia.
Qed.

(** X7: a sum of more than [f] permutations of size [f] never ends: once
    every row is full each trial permutation overlaps, and the rejection
    loop keeps sampling. *)
Theorem permutation_overfull_hangs (f k : nat) :
  0 < f -> f < k ->
  forall tape, ProtographLDPC.submatrix "permutation" f k tape = Starved.
Proof.
  intros Hf Hk tape.
  change (ProtographLDPC.submatrix "permutation" f k)
    with (g ← ProtographLDPC.permutation f k; ret (ProtographLDPC.Graph g)).
  unfold mbind, rnd_bind, bind.
  pose proof (PermutationRuns.ensures_permutation f k ltac:(lia) tape) as Hsafe.
  destruct (ProtographLDPC.permutation f k tape) as [[g rest]| |];
    [exfalso | contradiction | reflexivity].
  destruct Hsafe as [_ _ Hkeys Hrows _].
  destruct (proj2 (Hkeys 0) Hf) as [row Hrow].
  destruct (Hrows 0 row Hrow) as (Hlen & Hnd & Hlt).
  pose proof (length_bounded row f Hnd Hlt). lia.
Qed.

Lemma permutation_overfull_hangs_witness :
  (0 < 2 /\ 2 < 3) /\
  ProtographLDPC.submatrix "permutation" 2 3 [0; 0; 1; 0; 0; 0; 1; 0] = Starved.
Proof.
  assert (0 < 2 /\ 2 < 3) as H by (split; lia).
  split; [exact H |].
  destruct H as (H1 & H2).
  exact (permutation_overfull_hangs 2 3 H1 H2 [0; 0; 1; 0; 0; 0; 1; 0]).
Defined.

(** ** The cyclic submatrix in closed form *)

Lemma shifted_by_closed w L a :
  Forall (fun x => x < w) L ->
  CyclicFacts.shifted_by w L a = map (fun x => (x + a) mod w) L.
Proof.
  intros Hlt. induction a as [|a IH].
  - cbn. rewrite <- (map_id L) at 1. apply map_ext_Forall.
    eapply Forall_impl; [exact Hlt |]. intros x Hx. cbv beta.
    rewrite Nat.add_0_r. symmetry. now apply Nat.mod_small.
  - change (CyclicFacts.shifted_by w L (S a))
      with (TannerGraph.right_shift_row (CyclicFacts.shifted_by w L a) w).
    rewrite IH. unfold TannerGraph.right_shift_row. rewrite map_map.
    apply map_ext. intros x. cbv beta.
    rewrite Nat.Div0.add_mod_idemp_l. f_equal. lia.
Qed.

(** ** Counting edges *)

Module Counting.

Lemma sum_list_with_zero {A} (l : list A) : sum_list_with (fun _ => 0) l = 0.
Proof. induction l as [|a l IH]; cbn; lia. Qed.

Lemma sum_list_with_const {A} (l : list A) c : sum_list_with (fun _ => c) l = length l * c.
Proof. induction l as [|a l IH]; cbn; lia. Qed.

Lemma sum_list_with_swap {A B} (F : A -> B -> nat) (la : list A) (lb : list B) :
  sum_list_with (fun a => sum_list_with (fun b => F a b) lb) la
  = sum_list_with (fun b => sum_list_with (fun a => F a b) la) lb.
Proof.
  induction la as [|a la IH]; cbn [sum_list_with].
  - now rewrite sum_list_with_zero.
  - rewrite IH. now rewrite <- PermutationFacts.sum_list_with_add.
Qed.

Lemma count_map (F : nat -> nat) (l : list nat) x :
  count (map F l) x = sum_list_with (fun y => if decide (F y = x) then 1 else 0) l.
Proof.
  unfold count. induction l as [|y l IH]; [reflexivity |].
  cbn [map count_occ sum_list_with]. rewrite <- IH.
  destruct (Nat.eq_dec (F y) x), (decide (F y = x)); try reflexivity; contradiction.
Qed.

Lemma count_seq h y : y < h -> count (seq 0 h) y = 1.
Proof.
  intros Hy. rewrite count_NoDup by apply NoDup_seq.
  rewrite decide_True; [reflexivity |]. apply elem_of_seq. lia.
Qed.

Lemma sum_equal h y :
  y < h -> sum_list_with (fun j => if decide (j = y) then 1 else 0) (seq 0 h) = 1.
Proof.
  intros Hy.
  transitivity (count (map (fun j => j) (seq 0 h)) y).
  - symmetry. apply (count_map (fun j => j)).
  - rewrite map_id. now apply count_seq.
Qed.

(** How many indices below [h] a duplicate-free row of such indices holds. *)
Lemma sum_membership (row : list nat) h :
  NoDup row -> Forall (fun y => y < h) row ->
  sum_list_with (fun j => if decide (j ∈ row) then 1 else 0) (seq 0 h) = length row.
Proof.
  induction 1 as [|y row Hy Hnd IH]; intros Hlt.
  - erewrite PermutationFacts.sum_list_with_ext; [apply sum_list_with_zero |].
    intros j _. rewrite decide_False; [reflexivity | apply not_elem_of_nil].
  - apply Forall_cons in Hlt as [Hyh Hlt]. cbn [length].
    transitivity (sum_list_with
                    (fun j => (if decide (j = y) then 1 else 0)
                              + (if decide (j ∈ row) then 1 else 0)) (seq 0 h)).
    + apply PermutationFacts.sum_list_with_ext. intros j _.
      destruct (decide (j = y)) as [-> | Hne].
      * rewrite decide_True by left. rewrite decide_False by exact Hy. reflexivity.
      * destruct (decide (j ∈ row)) as [Hin | Hout].
        -- rewrite decide_True by now right. reflexivity.
        -- rewrite decide_False; [reflexivity |].
           intros Hin. apply elem_of_cons in Hin as [? | ?]; contradiction.
    + rewrite PermutationFacts.sum_list_with_add, sum_equal, (IH Hlt) by exact Hyh.
      reflexivity.
Qed.

(** A sum over [0 .. c*m - 1], block by block. *)
Lemma sum_by_blocks (F : nat -> nat) c m :
  sum_list_with F (seq 0 (c * m))
  = sum_list_with (fun i => sum_list_with (fun j => F (i * m + j)) (seq 0 m)) (seq 0 c).
Proof.
  induction c as [|c IH]; [reflexivity |].
  rewrite seq_S, sum_list_with_app, <- IH. cbn [sum_list_with].
  replace (S c * m) with (c * m + m) by lia.
  rewrite seq_app, sum_list_with_app. f_equal. cbn [Nat.add].
  rewrite Nat.add_0_r.
  rewrite <- (PermutationFacts.sum_list_with_fmap F (fun j => c * m + j)).
  now rewrite fmap_add_seq, Nat.add_0_r.
Qed.

End Counting.

(** Every variable node below [f] lies in exactly [v] rows. *)
Definition columns_ok (f v : nat) (sub : graph) : Prop :=
  forall x, x < f -> column_weight sub f x = v.

(** The columns of a circulant block: each entry of the seed passes
    through every column once. *)
Lemma circulant_columns f v L g :
  QuasiCyclicFacts.seed f v L -> QuasiCyclicFacts.circulant f L g ->
  columns_ok f v (TannerGraph.tanner_graph g).
Proof.
  intros (Hlen & Hnd & Hlt) (_ & _ & Hrows & _) x Hx.
  unfold column_weight, range.
  erewrite PermutationFacts.sum_list_with_ext.
  2:{ intros i Hi. apply elem_of_seq in Hi. rewrite Hrows by lia.
      rewrite shifted_by_closed by exact Hlt. cbn [default].
      apply Counting.count_map. }
  rewrite Counting.sum_list_with_swap.
  erewrite PermutationFacts.sum_list_with_ext.
  2:{ intros y Hy.
      rewrite <- (Counting.count_map (fun i => (y + i) mod f)).
      apply (PermutationFacts.count_permutation f); [| exact Hx].
      replace (map (fun i => (y + i) mod f) (seq 0 f))
        with (PermutationRuns.rotation f y).
      - apply PermutationRuns.rotation_is_permutation.
      - unfold PermutationRuns.rotation, range. apply map_ext. intros i.
        f_equal. lia. }
  rewrite Counting.sum_list_with_const. lia.
Qed.

(** X10: a quasi-cyclic block is regular in its columns too: for [0 < v <= f]
    the construction never raises and, whenever it returns, every
    variable node below [f] lies in exactly [v] of the [f] rows. *)
Theorem quasi_cyclic_column_regular (f v : nat) :
  0 < v -> v <= f ->
  forall tape,
    match ProtographLDPC.submatrix "quasi-cyclic" f v tape with
    | Done (code, _) =>
        forall x, x < f -> column_weight (ProtographLDPC.graph_of code) f x = v
    | Raise _ => False
    | Starved => True
    end.
Proof.
  intros Hv Hvf tape.
  change (ProtographLDPC.submatrix "quasi-cyclic" f v)
    with (g ← ProtographLDPC.quasi_cyclic f v; ret (ProtographLDPC.Graph g)).
  pose proof (QuasiCyclicFacts.ensures_quasi_cyclic f v Hvf tape) as Hsafe.
  unfold mbind, rnd_bind, bind.
  destruct (ProtographLDPC.quasi_cyclic f v tape) as [[g rest]| |]; auto.
  destruct Hsafe as (L & Hseed & Hcirc). cbn.
  exact (circulant_columns f v L g Hseed Hcirc).
Qed.

Lemma quasi_cyclic_column_regular_witness :
  (0 < 2 /\ 2 <= 3) /\
  match ProtographLDPC.submatrix "quasi-cyclic" 3 2 [0; 0] with
  | Done (code, _) =>
      forall x, x < 3 -> column_weight (ProtographLDPC.graph_of code) 3 x = 2
  | Raise _ => False
  | Starved => True
  end.
Proof.
  assert (0 < 2 /\ 2 <= 3) as H by (split; lia).
  split; [exact H |].
  destruct H as (H1 & H2).
  exact (quasi_cyclic_column_regular 3 2 H1 H2 [0; 0]).
Defined.

(** ** Edge cases of the lift *)

(** X11: a lift factor of zero is rejected by [range(0, stop, 0)], whatever
    the protograph and the construction name. *)
Theorem lift_factor_zero_rejected (p : Protograph.t) (name : string) :
  forall tape, ProtographLDPC.init p 0 name tape = Raise ValueError.
Proof.
  intros tape. unfold ProtographLDPC.init, ProtographLDPC.expanded_protograph.
  rewrite Nat.mul_0_r. reflexivity.
Qed.

Section StridedYields.
Context {S : Type}.
Variable h : nat -> nat.

Lemma yields_for_strided (body : nat -> S -> rnd S) (I : nat -> S -> Prop) len :
  forall a s,
    I a s ->
    (forall i s, a <= i < a + len -> I i s ->
                 exists s', yields (body (h i) s) s' /\ I (1 + i) s') ->
    exists s', yields (for_each (map h (seq a len)) body s) s' /\ I (a + len) s'.
Proof.
  induction len as [|len IH]; intros a s Hs Hbody; cbn [seq map for_each].
  - exists s. rewrite Nat.add_0_r. split; [apply yields_ret | exact Hs].
  - destruct (Hbody a s ltac:(lia) Hs) as (s1 & Hrun1 & Hs1).
    destruct (IH (Datatypes.S a) s1 Hs1) as (s2 & Hrun2 & Hs2).
    { intros i s' Hi. apply Hbody. lia. }
    exists s2. split.
    + eapply yields_bind; [exact Hrun1 | exact Hrun2].
    + now replace (a + Datatypes.S len) with (Datatypes.S a + len) by lia.
Qed.
End StridedYields.

Module LiftUnknown.
Import ProtographLDPC LiftFacts.

(** Every block position visited before [(i, j)] holds zero. *)
Definition zeros_before (p : Protograph.t) (i j : nat) : Prop :=
  forall i' j' v,
    (i' < i /\ j' < Protograph.width p) \/ (i' = i /\ j' < j) ->
    cell p i' j' = Some v -> v = 0.

Lemma submatrix_unknown name f v :
  name ∉ submatrix_constructions ->
  forall tape, submatrix name f v tape = Raise InvalidConstruction.
Proof.
  intros Hname tape. unfold submatrix. repeat known_name Hname. reflexivity.
Qed.

(** With a name that [submatrix] does not know, a lift that returns has
    met zero entries only. *)
Lemma returns_hollow p f name :
  name ∉ submatrix_constructions -> small p f ->
  returns (expanded_protograph p f name)
    (fun _ => zeros_before p (Protograph.height p) 0).
Proof.
  intros Hname (Hh & Hw & Hf). unfold expanded_protograph.
  pose proof (addRow_iter (Protograph.height p * f)) as Hblank.
  set (g0 := Nat.iter _ TannerGraph.addRow TannerGraph.empty) in *.
  assert (TannerGraph.len g0 = Protograph.height p * f) as Hlen.
  { apply len_keys. intros k. destruct Hblank as (_ & _ & Hrows).
    rewrite Hrows. case_decide; split; intros H'; done. }
  rewrite Hlen.
  destruct (Nat.eq_dec f 0) as [-> | Hpos].
  { unfold range_step. cbn. intros tape a rest [=]. }
  pose proof (range_step_multiple (Protograph.height p) f ltac:(lia)) as Hrows.
  pose proof (range_step_multiple (Protograph.width p) f ltac:(lia)) as Hcols.
  unfold range in Hrows, Hcols.
  apply (returns_lift_bind _ _ _ _ Hrows).
  eapply returns_bind; [| intros g Hg; apply returns_ret; exact Hg].
  apply (returns_for_strided (fun i => i * f) _
           (fun i _ => zeros_before p i 0) (Protograph.height p) 0 g0).
  { intros i' j' v [[Hi _] | [_ Hj]]; lia. }
  intros i g [_ Hi] Hzeros. cbn in Hi.
  apply (returns_lift_bind _ _ _ _ Hcols).
  eapply returns_weaken.
  - apply (returns_for_strided (fun j => j * f) _
             (fun j _ => zeros_before p i j) (Protograph.width p) 0 g Hzeros).
    intros j g' [_ Hj] Hzeros'. cbn in Hj. unfold block.
    rewrite LiftRuns.entry_exact by lia.
    destruct (cell p i j) as [v|] eqn:Hcell; [| intros tape a rest [=]].
    apply (returns_lift_bind _ v); [reflexivity |].
    destruct (Nat.ltb_spec f v) as [Hbig | Hle]; [apply returns_raise |].
    destruct (Nat.eqb_spec v 0) as [-> | Hnz].
    + apply returns_ret.
      intros i' j' v' [[Hi' Hj'] | [-> Hj']] Hcell'.
      * apply (Hzeros' i' j' v'); auto.
      * destruct (decide (j' = j)) as [-> | Hne]; [congruence |].
        apply (Hzeros' i j' v'); [right; lia | exact Hcell'].
    + intros tape a rest Hrun. unfold mbind, rnd_bind, bind in Hrun.
      rewrite (submatrix_unknown name f v Hname) in Hrun. discriminate.
  - intros g' Hzeros' i' j' v [[Hi' Hj'] | [_ Hj']] Hcell; [| lia].
    apply (Hzeros' i' j' v); [| exact Hcell].
    destruct (decide (i' = i)) as [-> | Hne]; [right | left]; lia.
Qed.

End LiftUnknown.

(** X12: zero entries are skipped before the construction is looked at: the
    lift of a protograph that holds only zeros returns the allocated
    empty rows, draws nothing, and accepts any construction name; and
    with a name that is not recognised this is the only way for the lift
    to return. *)
Theorem lift_skips_zero_entries (p : Protograph.t) (f : nat) (name : string) :
  0 < f -> well_formed p -> small p f ->
  ((forall i j v, cell p i j = Some v -> v = 0) ->
   forall tape, exists x,
     ProtographLDPC.init p f name tape = Done (x, tape) /\
     forall k, ProtographLDPC.tanner_graph x !! k
               = if decide (k < Protograph.height p * f) then Some [] else None) /\
  (name ∉ submatrix_constructions ->
   forall tape x rest,
     ProtographLDPC.init p f name tape = Done (x, rest) ->
     forall i j v,
       i < Protograph.height p -> j < Protograph.width p ->
       cell p i j = Some v -> v = 0).
Proof.
  intros Hf Hshape Hsizes. split.
  2:{ intros Hname tape x rest Hrun i j v Hi Hj Hcell.
      destruct (init_done _ _ _ _ _ _ Hrun) as (g & Hg & _).
      apply (LiftUnknown.returns_hollow p f name Hname Hsizes _ _ _ Hg i j v);
        [left; lia | exact Hcell]. }
  intros Hzero tape.
  pose proof Hsizes as (Hh & Hw & _).
  unfold ProtographLDPC.init, ProtographLDPC.expanded_protograph.
  pose proof (LiftFacts.addRow_iter (Protograph.height p * f)) as Hblank.
  set (g0 := Nat.iter (Protograph.height p * f) TannerGraph.addRow TannerGraph.empty) in *.
  assert (TannerGraph.len g0 = Protograph.height p * f) as Hlen.
  { apply LiftFacts.len_keys. intros k. destruct Hblank as (_ & _ & Hrows).
    rewrite Hrows. case_decide; split; intros H'; done. }
  rewrite Hlen.
  pose proof (LiftFacts.range_step_multiple (Protograph.height p) f Hf) as Hrows.
  pose proof (LiftFacts.range_step_multiple (Protograph.width p) f Hf) as Hcols.
  unfold range in Hrows, Hcols.
  assert (forall i j, i < Protograph.height p -> j < Protograph.width p ->
            yields (ProtographLDPC.block p f name (i * f) (j * f) g0) g0) as Hblock.
  { intros i j Hi Hj. unfold ProtographLDPC.block.
    destruct (LiftRuns.cell_well_formed p i j Hshape Hi Hj) as [v Hcell].
    pose proof (Hzero i j v Hcell) as ->.
    eapply yields_bind.
    - apply yields_lift. rewrite LiftRuns.entry_exact, Hcell by lia. reflexivity.
    - destruct (Nat.ltb_spec f 0); [lia |]. apply yields_ret. }
  destruct (yields_for_strided (fun i => i * f)
              (fun r expanded =>
                 col_starts ← lift (ProtographLDPC.range_step (Protograph.width p * f) f);
                 for_each col_starts (ProtographLDPC.block p f name r) expanded)
              (fun _ g => g = g0) (Protograph.height p) 0 g0 eq_refl)
    as (g & Hrun & ->).
  { intros i g [_ Hi] ->. cbn in Hi. exists g0. split; [| reflexivity].
    eapply yields_bind; [apply yields_lift; exact Hcols |].
    destruct (yields_for_strided (fun j => j * f)
                (ProtographLDPC.block p f name (i * f))
                (fun _ g => g = g0) (Protograph.width p) 0 g0 eq_refl)
      as (g & Hrun & ->); [| exact Hrun].
    intros j g [_ Hj] ->. cbn in Hj. exists g0. split; [| reflexivity].
    now apply Hblock. }
  eexists. split.
  - unfold mbind, rnd_bind, bind, lift. rewrite Hrows. rewrite Hrun. reflexivity.
  - cbn. destruct Hblank as (_ & _ & Hlookup). exact Hlookup.
Qed.

(** A protograph of two block columns that holds no edge. *)
Definition hollow : Protograph.t := Protograph.Build 2 1 [[0; 0]].

Lemma lift_skips_zero_entries_witness :
  (0 < 3 /\ well_formed hollow /\ small hollow 3 /\
   (forall i j v, cell hollow i j = Some v -> v = 0)) /\
  exists x, ProtographLDPC.init hollow 3 "bogus" [7] = Done (x, [7]).
Proof.
  assert (0 < 3 /\ well_formed hollow /\ small hollow 3 /\
          (forall i j v, cell hollow i j = Some v -> v = 0)) as H.
  { split; [lia |]. split; [split; [reflexivity | repeat constructor] |].
    split; [repeat split |].
    intros [|i] [|[|j]] v; cbn; intros [=]; subst; reflexivity. }
  split; [exact H |].
  destruct H as (H1 & H2 & H3 & H4).
  destruct (proj1 (lift_skips_zero_entries hollow 3 "bogus" H1 H2 H3) H4 [7])
    as (x & Hrun & _).
  now exists x.
Defined.

(** ** The populate-columns construction *)

Module TransposeFacts.

(** The keys of [g] whose row holds [j], in the order of the dictionary. *)
Definition listed (g : graph) (j : nat) : list nat :=
  map fst (filter (fun kv : nat * list nat => j ∈ kv.2) (map_to_list g)).

Lemma lookup_transpose g h j :
  TannerGraph.transpose g h !! j = if decide (j < h) then Some (listed g j) else None.
Proof.
  change (TannerGraph.transpose g h)
    with (list_to_map (map (fun j => (j, listed g j)) (seq 0 h)) : graph).
  assert ((map (fun j => (j, listed g j)) (seq 0 h)).*1 = seq 0 h) as Hkeys.
  { change (map fst (map (fun j => (j, listed g j)) (seq 0 h)) = seq 0 h).
    rewrite map_map. cbn. apply map_id. }
  destruct (decide (j < h)) as [Hj | Hj].
  - apply elem_of_list_to_map; [rewrite Hkeys; apply NoDup_seq |].
    apply list_elem_of_fmap. exists j. split; [reflexivity |].
    apply elem_of_seq. lia.
  - apply not_elem_of_list_to_map. rewrite Hkeys, elem_of_seq. lia.
Qed.

Lemma elem_of_listed g j x :
  x ∈ listed g j <-> exists row, g !! x = Some row /\ j ∈ row.
Proof.
  unfold listed. split.
  - intros Hx. apply list_elem_of_fmap in Hx as ([k row] & -> & Hin).
    apply list_elem_of_filter in Hin as [Hj Hin]. cbn in *.
    apply elem_of_map_to_list in Hin. now exists row.
  - intros (row & Hrow & Hj). apply list_elem_of_fmap. exists (x, row).
    split; [reflexivity |]. apply list_elem_of_filter. split; [exact Hj |].
    now apply elem_of_map_to_list.
Qed.

Lemma NoDup_listed g j : NoDup (listed g j).
Proof.
  unfold listed.
  apply (sublist_NoDup _ (map fst (map_to_list g))).
  - apply (NoDup_fst_map_to_list g).
  - apply fmap_sublist, sublist_filter.
Qed.

(** Transposing a dictionary of [n] columns, each a duplicate-free list
    of [c] row indices below [h], gives [h] duplicate-free rows of column
    indices below [n] in which every column occurs [c] times. *)
Lemma transpose_regular n c h g :
  PopulateResult.regular_rows n c h g ->
  (forall j, is_Some (TannerGraph.transpose g h !! j) <-> j < h) /\
  (forall j row, TannerGraph.transpose g h !! j = Some row ->
     NoDup row /\ Forall (fun x => x < n) row) /\
  (forall x, x < n -> column_weight (TannerGraph.transpose g h) h x = c).
Proof.
  intros [Hkeys Hrows]. split; [| split].
  - intros j. rewrite lookup_transpose. case_decide; split; intros H'; done.
  - intros j row. rewrite lookup_transpose. case_decide; [| done].
    intros [= <-]. split; [apply NoDup_listed |].
    apply Forall_forall. intros x Hx. apply elem_of_listed in Hx as (row & Hrow & _).
    apply Hkeys. eauto.
  - intros x Hx. destruct (proj2 (Hkeys x) Hx) as [col Hcol].
    destruct (Hrows x col Hcol) as (Hlen & Hnd & Hlt).
    unfold column_weight, range. rewrite <- Hlen.
    rewrite <- (Counting.sum_membership col h Hnd Hlt).
    apply PermutationFacts.sum_list_with_ext. intros j Hj. apply elem_of_seq in Hj.
    rewrite lookup_transpose, decide_True by lia. cbn [default].
    rewrite count_NoDup by apply NoDup_listed.
    destruct (decide (j ∈ col)) as [Hin | Hout].
    + rewrite decide_True; [reflexivity |]. apply elem_of_listed. now exists col.
    + rewrite decide_False; [reflexivity |].
      intros Hin. apply elem_of_listed in Hin as (col' & Hcol' & Hj').
      congruence.
Qed.

End TransposeFacts.

(** ** Gallager's construction, column by column *)

Module GallagerColumns.
Import RegularLDPC GallagerFacts.

(** [m] rows that cut the list [cw] into consecutive runs of [r]. *)
Definition cut (cw : list nat) (r m : nat) (g : graph) : Prop :=
  forall i, g !! i = if decide (i < m) then Some (chunk cw r i) else None.

Lemma cut_column_weight cw r m g x :
  cut cw r m g -> column_weight g m x = count (take (m * r) cw) x.
Proof.
  intros Hg. unfold column_weight, range.
  transitivity (sum_list_with (fun i => count (chunk cw r i) x) (seq 0 m)).
  - apply PermutationFacts.sum_list_with_ext. intros i Hi. apply elem_of_seq in Hi.
    rewrite Hg, decide_True by lia. reflexivity.
  - clear Hg. induction m as [|m IH]; [reflexivity |].
    rewrite seq_S, sum_list_with_app, IH. cbn [sum_list_with Nat.add].
    replace (S m * r) with (m * r + r) by lia.
    rewrite <- take_take_drop, PermutationFacts.count_app. unfold chunk. lia.
Qed.

(** What one [SubGraph] is: a shuffle of [0 .. n-1], cut into rows of [r]. *)
Definition split_shuffle (n r : nat) (g : graph) : Prop :=
  exists cw, cw ≡ₚ range n /\ cut cw r (n / r) g.

Lemma ensures_SubGraph n r :
  0 < r -> n mod r = 0 -> (Z.of_nat n < 2 ^ 53)%Z ->
  ensures (SubGraph n r) (split_shuffle n r).
Proof.
  intros Hr Hmod Hbound.
  assert (n = n / r * r) as Hn by (pose proof (Nat.div_mod_eq n r); lia).
  assert (int_div n r = Done (n / r)) as Hrows.
  { rewrite Hn at 1. apply int_div_exact; [exact Hr |].
    assert (n / r <= n) by nia. lia. }
  unfold SubGraph. apply (ensures_lift_bind _ _ _ _ Hrows).
  eapply ensures_bind; [apply ShuffleFacts.ensures_shuffle |].
  intros cw Hperm.
  assert (length cw = n) as Hlen.
  { rewrite Hperm. unfold range. now rewrite length_seq. }
  destruct (yields_fill cw r (n / r) ltac:(lia)) as (g & Hrun & Hg).
  apply (yields_ensures _ g); [exact Hrun |]. now exists cw.
Qed.

Lemma split_shuffle_keys n r g :
  split_shuffle n r g -> forall j, is_Some (g !! j) <-> j < n / r.
Proof.
  intros (cw & _ & Hg) j. rewrite Hg. case_decide; split; intros H'; done.
Qed.

Lemma split_shuffle_below n r g i row :
  split_shuffle n r g -> g !! i = Some row -> Forall (fun x => x < n) row.
Proof.
  intros (cw & Hperm & Hg). rewrite Hg. case_decide; [| done]. intros [= <-].
  apply Forall_forall. intros x Hx. unfold chunk in Hx.
  apply (elem_of_sublist _ cw) in Hx.
  2:{ etransitivity; [apply sublist_take | apply sublist_drop]. }
  rewrite Hperm in Hx. apply elem_of_seq in Hx. lia.
Qed.

(** Every index below [n] lies in exactly one row of a [SubGraph]. *)
Lemma split_shuffle_columns n r g x :
  n mod r = 0 -> split_shuffle n r g -> x < n -> column_weight g (n / r) x = 1.
Proof.
  intros Hmod (cw & Hperm & Hg) Hx.
  rewrite (cut_column_weight cw r _ g x Hg).
  assert (length cw = n) as Hlen.
  { rewrite Hperm. unfold range. now rewrite length_seq. }
  assert (n / r * r = n) as Hn by (pose proof (Nat.div_mod_eq n r); lia).
  rewrite Hn, <- Hlen, firstn_all.
  rewrite count_NoDup by (rewrite Hperm; apply NoDup_seq).
  rewrite decide_True; [reflexivity |]. rewrite Hperm. apply elem_of_seq. lia.
Qed.

Section Stack.
Variables (n r m : nat) (subs : list graph).
Hypothesis r_pos : 0 < r.
Hypothesis exact : n = m * r.
Hypothesis small : (Z.of_nat (length subs * m) < 2 ^ 53)%Z.
Hypothesis keys : Forall (fun sub : graph => forall j, is_Some (sub !! j) <-> j < m) subs.

(** After the first [k] check nodes are in place: key [i * m + j] holds
    row [j] of block [i]. *)
Definition stacked_to (k : nat) (merged : graph) : Prop :=
  forall key, merged !! key =
    if decide (key < k)
    then match subs !! (key / m) with
         | Some sub => sub !! (key mod m)
         | None => None
         end
    else None.

Lemma yields_stack_row i sub j merged :
  subs !! i = Some sub -> j < m -> stacked_to (i * m + j) merged ->
  exists merged', yields (merge_row n r i sub j merged) merged' /\
                  stacked_to (i * m + S j) merged'.
Proof.
  intros Hsub Hj Hinv. unfold merge_row.
  pose proof (lookup_lt_Some _ _ _ Hsub) as Hi.
  assert (int_div_add (i * n) r j = Done (i * m + j)) as Hkey.
  { replace (i * n) with (i * m * r) by (rewrite exact; lia).
    apply int_div_add_exact; [exact r_pos |].
    assert (i * m + j < length subs * m) by nia. lia. }
  pose proof (proj1 (Forall_lookup _ _) keys i sub Hsub) as Hkeys.
  destruct (proj2 (Hkeys j) Hj) as [row Hrow]. rewrite Hrow.
  eexists. split.
  - eapply yields_bind; [apply yields_lift; exact Hkey | apply yields_ret].
  - intros key. destruct (decide (i * m + j = key)) as [<- | Hne].
    + rewrite lookup_insert_eq, decide_True by lia.
      replace ((i * m + j) / m) with i.
      2:{ apply (Nat.div_unique _ _ _ j); lia. }
      replace ((i * m + j) mod m) with j.
      2:{ apply (Nat.mod_unique _ _ i); lia. }
      now rewrite Hsub.
    + rewrite lookup_insert_ne, Hinv by exact Hne.
      repeat case_decide; try reflexivity; lia.
Qed.

Lemma yields_stack :
  exists merged, yields (merge subs n r) merged /\
                 stacked_to (length subs * m) merged.
Proof.
  unfold merge.
  apply (yields_for_range _ (fun i merged => stacked_to (i * m) merged)).
  - intros key. rewrite lookup_empty. now rewrite decide_False by lia.
  - intros i merged Hi Hinv.
    assert (int_div n r = Done m) as Hrows.
    { rewrite exact. apply int_div_exact; [exact r_pos |].
      assert (m <= length subs * m) by nia. lia. }
    destruct (lookup_lt_is_Some_2 subs i Hi) as [sub Hsub].
    destruct (yields_for_range (merge_row n r i sub)
                (fun j merged => stacked_to (i * m + j) merged) m merged)
      as (merged' & Hrun & Hinv').
    { now rewrite Nat.add_0_r. }
    { intros j merged' Hj. now apply yields_stack_row. }
    exists merged'. split.
    + eapply yields_bind; [apply yields_lift; exact Hrows |].
      now rewrite Hsub.
    + now replace ((1 + i) * m) with (i * m + m) by lia.
Qed.

End Stack.

Lemma stacked_to_block m (subs : list graph) k merged i sub j :
  stacked_to m subs k merged -> subs !! i = Some sub -> j < m -> i * m + j < k ->
  merged !! (i * m + j) = sub !! j.
Proof.
  intros Hinv Hsub Hj Hk. rewrite Hinv, decide_True by exact Hk.
  replace ((i * m + j) / m) with i.
  2:{ apply (Nat.div_unique _ _ _ j); lia. }
  replace ((i * m + j) mod m) with j.
  2:{ apply (Nat.mod_unique _ _ i); lia. }
  now rewrite Hsub.
Qed.

(** The columns of a stack of [SubGraph]s. *)
Lemma stacked_columns n r subs merged x :
  n mod r = 0 -> Forall (split_shuffle n r) subs ->
  stacked_to (n / r) subs (length subs * (n / r)) merged -> x < n ->
  column_weight merged (length subs * (n / r)) x = length subs.
Proof.
  intros Hmod Hsubs Hmerged Hx. unfold column_weight, range.
  rewrite Counting.sum_by_blocks.
  erewrite PermutationFacts.sum_list_with_ext.
  - rewrite Counting.sum_list_with_const. rewrite length_seq. apply Nat.mul_1_r.
  - intros i Hi. apply elem_of_seq in Hi. cbv beta.
    destruct (lookup_lt_is_Some_2 subs i ltac:(lia)) as [sub Hsub].
    pose proof (proj1 (Forall_lookup _ _) Hsubs i sub Hsub) as Hsplit.
    rewrite <- (split_shuffle_columns n r sub x Hmod Hsplit Hx).
    unfold column_weight, range.
    apply PermutationFacts.sum_list_with_ext. intros j Hj. apply elem_of_seq in Hj.
    rewrite (stacked_to_block (n / r) subs _ merged i sub j Hmerged Hsub); [reflexivity | lia |].
    nia.
Qed.

Lemma ensures_gallager_columns n r c :
  0 < r -> n mod r = 0 -> (Z.of_nat (n * c) < 2 ^ 53)%Z ->
  ensures (gallager n r c)
    (fun g => (forall x, x < n -> column_weight g (c * (n / r)) x = c) /\
              (forall k row, g !! k = Some row -> Forall (fun x => x < n) row)).
Proof.
  intros Hr Hmod Hbound.
  assert (n = n / r * r) as Hn by (pose proof (Nat.div_mod_eq n r); lia).
  assert (n / r <= n) as Hle by nia.
  set (I := fun i (acc : list graph) => length acc = i /\ Forall (split_shuffle n r) acc).
  unfold gallager. destruct (Nat.eqb_spec r 0); [lia |].
  eapply ensures_bind.
  - apply (ensures_for_range _ I); [now split |].
    intros i acc Hi [Hlen Hacc].
    eapply ensures_bind; [apply (ensures_SubGraph n r Hr Hmod); nia |].
    intros sub Hsub. apply ensures_ret. split; [rewrite length_app; cbn; lia |].
    apply Forall_app. split; [exact Hacc | now constructor].
  - intros subs [Hlen Hsubs].
    destruct (yields_stack n r (n / r) subs Hr Hn) as (merged & Hrun & Hmerged).
    { rewrite Hlen. nia. }
    { eapply Forall_impl; [exact Hsubs |]. intros sub. apply split_shuffle_keys. }
    apply (yields_ensures _ merged); [exact Hrun |]. split.
    + intros x Hx. rewrite <- Hlen.
      now apply (stacked_columns n r subs merged x).
    + intros k row. rewrite Hmerged. case_decide; [| done].
      destruct (subs !! (k / (n / r))) as [sub|] eqn:Hsub; [| done].
      pose proof (proj1 (Forall_lookup _ _) Hsubs _ sub Hsub) as Hsplit.
      now apply (split_shuffle_below n r sub).
Qed.

End GallagerColumns.

(** X13: one [SubGraph] of Gallager's construction uses every codeword index
    exactly once: for [r] dividing [n] it never raises and, whenever it
    returns, its [n / r] rows hold indices below [n] only and every
    index below [n] lies in exactly one row. *)
Theorem subgraph_partitions_indices (n r : nat) :
  0 < r -> n mod r = 0 -> (Z.of_nat n < 2 ^ 53)%Z ->
  forall tape,
    match RegularLDPC.SubGraph n r tape with
    | Done (g, _) =>
        (forall i, is_Some (g !! i) <-> i < n / r) /\
        (forall i row, g !! i = Some row -> Forall (fun x => x < n) row) /\
        (forall x, x < n -> column_weight g (n / r) x = 1)
    | Raise _ => False
    | Starved => True
    end.
Proof.
  intros Hr Hmod Hbound tape.
  pose proof (GallagerColumns.ensures_SubGraph n r Hr Hmod Hbound tape) as Hsafe.
  destruct (RegularLDPC.SubGraph n r tape) as [[g rest]| |]; auto.
  split; [now apply GallagerColumns.split_shuffle_keys |]. split.
  - intros i row. now apply (GallagerColumns.split_shuffle_below n r g i row).
  - intros x Hx. now apply (GallagerColumns.split_shuffle_columns n r g x).
Qed.

Lemma subgraph_partitions_indices_witness :
  (0 < 2 /\ 6 mod 2 = 0 /\ (Z.of_nat 6 < 2 ^ 53)%Z) /\
  match RegularLDPC.SubGraph 6 2 [3; 1; 4; 1; 5] with
  | Done (g, _) => forall x, x < 6 -> column_weight g (6 / 2) x = 1
  | Raise _ => False
  | Starved => True
  end.
Proof.
  assert (0 < 2 /\ 6 mod 2 = 0 /\ (Z.of_nat 6 < 2 ^ 53)%Z) as H.
  { split; [lia | split; reflexivity]. }
  split; [exact H |].
  destruct H as (H1 & H2 & H3).
  pose proof (subgraph_partitions_indices 6 2 H1 H2 H3 [3; 1; 4; 1; 5]) as Hrun.
  destruct (RegularLDPC.SubGraph 6 2 [3; 1; 4; 1; 5]) as [[g rest]| |]; auto.
  exact (proj2 (proj2 Hrun)).
Defined.

(** X14: [merge] stacks the blocks without touching them and draws nothing:
    for blocks of [m] rows each, key [i * m + j] of the result holds row
    [j] of block [i], and no key from [len * m] on is set (all keys being
    exact doubles). *)
Theorem merge_stacks_blocks (r m : nat) (submatrices : list graph) :
  0 < r -> (Z.of_nat (length submatrices * m) < 2 ^ 53)%Z ->
  Forall (fun sub : graph => forall j, is_Some (sub !! j) <-> j < m) submatrices ->
  exists merged,
    (forall tape, RegularLDPC.merge submatrices (m * r) r tape = Done (merged, tape)) /\
    (forall i sub j, submatrices !! i = Some sub -> j < m ->
       merged !! (i * m + j) = sub !! j) /\
    (forall key, length submatrices * m <= key -> merged !! key = None).
Proof.
  intros Hr Hsmall Hkeys.
  destruct (GallagerColumns.yields_stack (m * r) r m submatrices Hr eq_refl Hsmall Hkeys)
    as (merged & Hrun & Hmerged).
  exists merged. split; [exact Hrun |]. split.
  - intros i sub j Hsub Hj.
    apply (GallagerColumns.stacked_to_block m submatrices _ merged i sub j Hmerged Hsub Hj).
    pose proof (lookup_lt_Some _ _ _ Hsub). nia.
  - intros key Hkey. rewrite Hmerged. now rewrite decide_False by lia.
Qed.

Lemma merge_stacks_blocks_witness :
  (0 < 2 /\ (Z.of_nat (length [empty_rows 3; empty_rows 3] * 3) < 2 ^ 53)%Z /\
   Forall (fun sub : graph => forall j, is_Some (sub !! j) <-> j < 3)
     [empty_rows 3; empty_rows 3]) /\
  exists merged,
    RegularLDPC.merge [empty_rows 3; empty_rows 3] (3 * 2) 2 [] = Done (merged, []).
Proof.
  assert (0 < 2 /\ (Z.of_nat (length [empty_rows 3; empty_rows 3] * 3) < 2 ^ 53)%Z /\
          Forall (fun sub : graph => forall j, is_Some (sub !! j) <-> j < 3)
            [empty_rows 3; empty_rows 3]) as H.
  { split; [lia |]. split; [reflexivity |].
    assert (forall j, is_Some (empty_rows 3 !! j) <-> j < 3) as Hk.
    { intros j. rewrite lookup_empty_rows. case_decide; split; intros H'; done. }
    constructor; [exact Hk | constructor; [exact Hk | constructor]]. }
  split; [exact H |].
  destruct H as (H1 & H2 & H3).
  destruct (merge_stacks_blocks 2 3 _ H1 H2 H3) as (merged & Hrun & _).
  exists merged. apply Hrun.
Defined.

(** X15: Gallager's construction is regular in its columns: for [r] dividing
    [n] it never raises and, whenever it returns, every variable node
    below [n] lies in exactly [c] of the [c * (n / r)] check nodes, one
    per stacked block, and no row holds an index from [n] on. *)
Theorem gallager_column_regular (n r c : nat) :
  0 < r -> n mod r = 0 -> (Z.of_nat (n * c) < 2 ^ 53)%Z ->
  forall tape,
    match RegularLDPC.get_parity_check_graph n r c "gallager" tape with
    | Done (g, _) =>
        (forall x, x < n -> column_weight g (c * (n / r)) x = c) /\
        (forall k row, g !! k = Some row -> Forall (fun x => x < n) row)
    | Raise _ => False
    | Starved => True
    end.
Proof.
  intros Hr Hmod Hbound tape.
  change (RegularLDPC.get_parity_check_graph n r c "gallager")
    with (RegularLDPC.gallager n r c).
  pose proof (GallagerColumns.ensures_gallager_columns n r c Hr Hmod Hbound tape)
    as Hsafe.
  destruct (RegularLDPC.gallager n r c tape) as [[g rest]| |]; auto.
Qed.

Lemma gallager_column_regular_witness :
  (0 < 4 /\ 8 mod 4 = 0 /\ (Z.of_nat (8 * 2) < 2 ^ 53)%Z) /\
  match RegularLDPC.get_parity_check_graph 8 4 2 "gallager" (repeat 0 14) with
  | Done (g, _) => forall x, x < 8 -> column_weight g (2 * (8 / 4)) x = 2
  | Raise _ => False
  | Starved => True
  end.
Proof.
  assert (0 < 4 /\ 8 mod 4 = 0 /\ (Z.of_nat (8 * 2) < 2 ^ 53)%Z) as H.
  { split; [lia | split; reflexivity]. }
  split; [exact H |].
  destruct H as (H1 & H2 & H3).
  pose proof (gallager_column_regular 8 4 2 H1 H2 H3 (repeat 0 14)) as Hrun.
  destruct (RegularLDPC.get_parity_check_graph 8 4 2 "gallager" (repeat 0 14))
    as [[g rest]| |]; auto.
  exact (proj1 Hrun).
Defined.

(** ** The populate constructions on any input *)

Module PopulateAlways.
Import RegularLDPC PopulateFacts.

Section Invariant.
Variables rows per_row m k : nat.

Lemma next_row i st : inv rows per_row m k i per_row st -> inv rows per_row m k (S i) 0 st.
Proof.
  intros [Hb Hp Hd Hr]. split; auto.
  intros i' row Hrow. destruct (Hr i' row Hrow) as (Hnd & Hlt & Hlen).
  repeat split; auto. rewrite Hlen.
  repeat case_decide; try reflexivity; lia.
Qed.

Lemma append i j st row x avail' placed' :
  inv rows per_row m k i j st -> st_graph st !! i = Some row ->
  x < m -> x ∉ row ->
  length avail' + placed' = k -> Forall (fun a => a < m) avail' ->
  inv rows per_row m k i (S j) (State (<[i := row ++ [x]]> (st_graph st)) avail' placed').
Proof.
  intros [Hb Hp Hd Hr] Hrow Hx Hfresh Hb' Hp'. split; simpl; auto.
  - intros i'. destruct (decide (i = i')) as [<-|Hne].
    + rewrite lookup_insert_eq. rewrite <- Hd, Hrow. split; eauto.
    + rewrite lookup_insert_ne by exact Hne. apply Hd.
  - intros i' row'. destruct (decide (i = i')) as [<-|Hne].
    + rewrite lookup_insert_eq. intros [= <-].
      destruct (Hr i row Hrow) as (Hnd & Hlt & Hlen).
      repeat split.
      * apply NoDup_app. repeat split; auto.
        -- intros y Hy Hy'. apply list_elem_of_singleton in Hy'. now subst.
        -- apply NoDup_singleton.
      * apply Forall_app. split; [exact Hlt | now constructor].
      * rewrite length_app, Hlen. simpl.
        repeat case_decide; try lia.
    + rewrite lookup_insert_ne by exact Hne. intros Hrow'.
      destruct (Hr i' row' Hrow') as (Hnd & Hlt & Hlen).
      repeat split; auto. rewrite Hlen.
      repeat case_decide; try reflexivity; lia.
Qed.

(** A placement keeps the invariant for any row weight, as long as there
    is an index to draw at all. *)
Lemma ensures_place_any i j st :
  0 < m -> i < rows -> inv rows per_row m k i j st ->
  ensures (place m k i st) (inv rows per_row m k i (S j)).
Proof.
  intros Hm Hi Hinv. pose proof Hinv as [Hb Hp Hd Hr].
  unfold place, get_row.
  destruct (st_graph st !! i) as [row|] eqn:Hrow.
  2:{ exfalso. apply Hd in Hi. rewrite Hrow in Hi. now destruct Hi. }
  destruct (Hr i row Hrow) as (Hnd & Hlt & Hlen).
  apply ensures_ret_bind.
  destruct (Nat.eqb_spec (scan row (available_indices st) + placed_entries st) k)
    as [Hfull|Hsome].
  - eapply ensures_bind; [apply ensures_choice_until; exact Hm |].
    intros x [Hx Hbad]. apply ensures_ret.
    apply append; auto.
    rewrite count_NoDup in Hbad by exact Hnd.
    case_decide; [discriminate | assumption].
  - pose proof (scan_le row (available_indices st)) as Hle.
    pose proof (scan_stops row (available_indices st)) as Hstop.
    set (avail := available_indices st) in *.
    assert (0 < length avail) as Hne by lia.
    eapply ensures_bind; [apply ensures_choice_until; exact Hne |].
    intros x [Hx Hbad]. apply ensures_ret.
    assert (nth x avail 0 ∈ avail) as Hmem.
    { apply list_elem_of_In, nth_In. exact Hx. }
    apply append; auto.
    + rewrite Forall_forall in Hp. now apply Hp.
    + apply andb_false_iff in Hbad as [Hfree|Hone].
      * apply negb_false_iff, Nat.eqb_eq in Hfree.
        rewrite count_NoDup in Hfree by exact Hnd.
        case_decide; [discriminate | assumption].
      * apply Nat.ltb_ge in Hone.
        assert (x = 0) as -> by lia.
        assert (scan row avail = 0) as Hz by lia.
        rewrite Hz in Hstop. specialize (Hstop Hne).
        rewrite count_NoDup in Hstop by exact Hnd.
        case_decide; [congruence | assumption].
    + rewrite length_delete by (apply lookup_lt_is_Some_2; exact Hx). lia.
    + apply Forall_delete. exact Hp.
Qed.
End Invariant.

Lemma ensures_populate_any rows per_row m k :
  rows = 0 \/ per_row = 0 \/ 0 < m -> k = 0 \/ 0 < m ->
  ensures (populate rows per_row m k) (PopulateResult.regular_rows rows per_row m).
Proof.
  intros Hfit Hkm. unfold populate.
  destruct (PopulateResult.fill_available_ok k m Hkm) as (avail & Hfill & Hlen & Hpool).
  apply (ensures_lift_bind _ _ _ _ Hfill).
  apply (ensures_bind _ _ (fun st => inv rows per_row m k rows 0 st));
    [| intros st Hst; apply ensures_ret, (PopulateResult.inv_end _ _ _ _ _ Hst)].
  apply (ensures_for_range _ (fun i st => inv rows per_row m k i 0 st)).
  { now apply PopulateResult.inv_start. }
  intros i st Hi Hinv.
  eapply ensures_weaken; [| intros st'; apply next_row].
  apply (ensures_for_range _ (fun j st => inv rows per_row m k i j st)); [exact Hinv |].
  intros j st' Hj Hinv'. apply ensures_place_any; auto. lia.
Qed.

(** The height the float division gives is zero when there is nothing
    to divide. *)
Lemma int_div_positive a r h : int_div a r = Done h -> 0 < h -> 0 < a.
Proof.
  destruct a as [|a]; [| lia]. unfold int_div, Float64.truediv.
  change (Z.of_nat 0) with 0%Z. destruct (Z.of_nat r =? 0)%Z; [discriminate |].
  cbn. intros [= <-]. lia.
Qed.

End PopulateAlways.

Ltac run_height n c r :=
  unfold mbind, rnd_bind, bind, lift;
  destruct (int_div (n * c) r) as [h| |] eqn:Hh; [| reflexivity | exact I].

(** X16: the populate-rows construction on any arguments: whenever it returns,
    the graph has [int(n * c / r)] rows, each with exactly [r] distinct
    indices below [n]; the only errors are those of the height
    computation; and for [r <= n] with [n * c = h * r] (exact doubles)
    some sequence of draws makes it return. *)
Theorem populate_rows_always_regular (n r c : nat) :
  (forall tape,
     match RegularLDPC.get_parity_check_graph n r c "populate-rows" tape with
     | Done (g, _) =>
         exists h, int_div (n * c) r = Done h /\
           (forall i, is_Some (g !! i) <-> i < h) /\
           (forall i row, g !! i = Some row ->
              length row = r /\ NoDup row /\ Forall (fun x => x < n) row)
     | Raise e => int_div (n * c) r = Raise e
     | Starved => True
     end) /\
  (forall h, 0 < r -> r <= n -> n * c = h * r -> (Z.of_nat (n * c) < 2 ^ 53)%Z ->
     exists tape g rest,
       RegularLDPC.get_parity_check_graph n r c "populate-rows" tape = Done (g, rest) /\
       forall i, is_Some (g !! i) <-> i < h).
Proof.
  change (RegularLDPC.get_parity_check_graph n r c "populate-rows")
    with (RegularLDPC.populate_rows n r c).
  split.
  - intros tape. unfold RegularLDPC.populate_rows. run_height n c r.
    assert (h = 0 \/ r = 0 \/ 0 < n) as Hfit.
    { destruct h as [|h]; [now left |]. right. right.
      pose proof (PopulateAlways.int_div_positive _ _ _ Hh ltac:(lia)). nia. }
    pose proof (PopulateAlways.ensures_populate_any h r n (n * c) Hfit ltac:(lia) tape)
      as Hsafe.
    destruct (RegularLDPC.populate h r n (n * c) tape) as [[g rest]| |];
      [| contradiction | exact I].
    exists h. split; [reflexivity | exact Hsafe].
  - intros h Hr Hrn Hnc Hbound.
    assert (int_div (n * c) r = Done h) as Hh.
    { rewrite Hnc. apply int_div_exact; [exact Hr | nia]. }
    destruct (PopulateResult.populate_rows_with_height n r c h Hh ltac:(lia))
      as [_ Hfin].
    destruct (can_finish_run _ _ Hfin) as (tape & g & rest & Hrun & Hkeys & _).
    now exists tape, g, rest.
Qed.

Lemma populate_rows_always_regular_witness :
  (0 < 4 /\ 4 <= 6 /\ 6 * 2 = 3 * 4 /\ (Z.of_nat (6 * 2) < 2 ^ 53)%Z) /\
  exists tape g rest,
    RegularLDPC.get_parity_check_graph 6 4 2 "populate-rows" tape = Done (g, rest) /\
    forall i, is_Some (g !! i) <-> i < 3.
Proof.
  assert (0 < 4 /\ 4 <= 6 /\ 6 * 2 = 3 * 4 /\ (Z.of_nat (6 * 2) < 2 ^ 53)%Z) as H.
  { split; [lia | split; [lia | split; reflexivity]]. }
  split; [exact H |].
  destruct H as (H1 & H2 & H3 & H4).
  exact (proj2 (populate_rows_always_regular 6 4 2) 3 H1 H2 H3 H4).
Defined.

(** X17: the populate-columns construction on any arguments: whenever it
    returns, the graph has [h = int(n * c / r)] check nodes, each a
    duplicate-free list of variable nodes below [n], and every variable
    node lies in exactly [c] of them; the only errors are those of the
    height computation and the division by a height of zero; and for
    [c <= h] with [n * c = h * r] (exact doubles) some sequence of draws
    makes it return. *)
Theorem populate_columns_always_regular (n r c : nat) :
  (forall tape,
     match RegularLDPC.get_parity_check_graph n r c "populate-columns" tape with
     | Done (g, _) =>
         exists h, int_div (n * c) r = Done h /\
           (forall i, is_Some (g !! i) <-> i < h) /\
           (forall i row, g !! i = Some row ->
              NoDup row /\ Forall (fun x => x < n) row) /\
           (forall x, x < n -> column_weight g h x = c)
     | Raise e =>
         int_div (n * c) r = Raise e \/
         (e = ZeroDivisionError /\ int_div (n * c) r = Done 0 /\ 0 < n * c)
     | Starved => True
     end) /\
  (forall h, 0 < r -> c <= h -> n * c = h * r -> (Z.of_nat (n * c) < 2 ^ 53)%Z ->
     exists tape g rest,
       RegularLDPC.get_parity_check_graph n r c "populate-columns" tape
       = Done (g, rest)).
Proof.
  change (RegularLDPC.get_parity_check_graph n r c "populate-columns")
    with (RegularLDPC.populate_columns n r c).
  split.
  - intros tape. unfold RegularLDPC.populate_columns.
    unfold mbind, rnd_bind, bind, lift.
    destruct (int_div (n * c) r) as [h| |] eqn:Hh; [| now left | exact I].
    destruct (Nat.eq_dec h 0) as [-> | Hpos].
    + destruct (Nat.eq_dec (n * c) 0) as [Hk | Hk].
      * pose proof (PopulateAlways.ensures_populate_any n c 0 (n * c)
                      ltac:(nia) ltac:(lia) tape) as Hsafe.
        destruct (RegularLDPC.populate n c 0 (n * c) tape) as [[g rest]| |];
          [| contradiction | exact I].
        exists 0. split; [reflexivity |].
        now apply (TransposeFacts.transpose_regular n c 0).
      * unfold RegularLDPC.populate, RegularLDPC.fill_available,
          mbind, rnd_bind, bind, lift.
        destruct (Nat.ltb_spec 0 (n * c)); [| lia]. cbn.
        right. repeat split. lia.
    + pose proof (PopulateAlways.ensures_populate_any n c h (n * c)
                    ltac:(lia) ltac:(lia) tape) as Hsafe.
      destruct (RegularLDPC.populate n c h (n * c) tape) as [[g rest]| |];
        [| contradiction | exact I].
      exists h. split; [reflexivity |].
      now apply (TransposeFacts.transpose_regular n c h).
  - intros h Hr Hch Hnc Hbound.
    assert (int_div (n * c) r = Done h) as Hh.
    { rewrite Hnc. apply int_div_exact; [exact Hr | nia]. }
    assert (n * c = 0 \/ 0 < h) as Hkm by nia.
    pose proof (PopulateResult.can_finish_populate n c h (n * c) ltac:(lia) Hkm) as Hfin.
    destruct (can_finish_run _ _ Hfin) as (tape & g & rest & Hrun & _).
    exists tape, (TannerGraph.transpose g h), rest.
    unfold RegularLDPC.populate_columns, mbind, rnd_bind, bind, lift.
    rewrite Hh, Hrun. reflexivity.
Qed.

Lemma populate_columns_always_regular_witness :
  (0 < 4 /\ 2 <= 3 /\ 6 * 2 = 3 * 4 /\ (Z.of_nat (6 * 2) < 2 ^ 53)%Z) /\
  exists tape g rest,
    RegularLDPC.get_parity_check_graph 6 4 2 "populate-columns" tape = Done (g, rest).
Proof.
  assert (0 < 4 /\ 2 <= 3 /\ 6 * 2 = 3 * 4 /\ (Z.of_nat (6 * 2) < 2 ^ 53)%Z) as H.
  { split; [lia | split; [lia | split; reflexivity]]. }
  split; [exact H |].
  destruct H as (H1 & H2 & H3 & H4).
  exact (proj2 (populate_columns_always_regular 6 4 2) 3 H1 H2 H3 H4).
Defined.

(** ** Degenerate sizes *)

Lemma int_div_zero r : 0 < r -> int_div 0 r = Done 0.
Proof.
  intros Hr. unfold int_div, Float64.truediv. change (Z.of_nat 0) with 0%Z.
  destruct (Z.eqb_spec (Z.of_nat r) 0); [lia | reflexivity].
Qed.

(** A loop whose body changes nothing. *)
Lemma for_each_idle {X S} (body : X -> S -> rnd S) (xs : list X) (s : S) :
  (forall x, yields (body x s) s) -> yields (for_each xs body s) s.
Proof.
  intros Hbody. induction xs as [|x xs IH]; cbn [for_each]; [apply yields_ret |].
  eapply yields_bind; [apply Hbody | exact IH].
Qed.

Lemma transpose_to_nothing g : TannerGraph.transpose g 0 = ∅.
Proof. reflexivity. Qed.

Module Degenerate.
Import RegularLDPC.

Lemma yields_SubGraph_empty r : 0 < r -> yields (SubGraph 0 r) ∅.
Proof.
  intros Hr. unfold SubGraph.
  eapply yields_bind; [apply yields_lift, int_div_zero, Hr |].
  intros tape. reflexivity.
Qed.

Lemma yields_empty_blocks r c :
  0 < r ->
  exists subs,
    yields (for_each (range c) (fun _ acc => sub ← SubGraph 0 r; ret (acc ++ [sub])) [])
      subs /\
    length subs = c.
Proof.
  intros Hr.
  apply (yields_for_range _ (fun i (acc : list graph) => length acc = i)); [reflexivity |].
  intros i acc _ Hlen. exists (acc ++ [∅]). split.
  - eapply yields_bind; [now apply yields_SubGraph_empty | apply yields_ret].
  - rewrite length_app. cbn. lia.
Qed.

Lemma yields_merge_nothing r (subs : list graph) :
  0 < r -> yields (merge subs 0 r) ∅.
Proof.
  intros Hr. unfold merge.
  destruct (yields_for_range
              (fun i merged =>
                 rows ← lift (int_div 0 r);
                 match subs !! i with
                 | Some sub => for_each (range rows) (merge_row 0 r i sub) merged
                 | None => raise IndexError
                 end)
              (fun _ (merged : graph) => merged = ∅) (length subs) ∅ eq_refl)
    as (merged & Hrun & ->); [| exact Hrun].
  intros i merged Hi ->. exists ∅. split; [| reflexivity].
  eapply yields_bind; [apply yields_lift, int_div_zero, Hr |].
  destruct (lookup_lt_is_Some_2 subs i Hi) as [sub ->]. apply yields_ret.
Qed.

Lemma yields_gallager_nothing n r c :
  0 < r -> n * c = 0 -> yields (gallager n r c) ∅.
Proof.
  intros Hr Hnc. unfold gallager. destruct (Nat.eqb_spec r 0); [lia |].
  destruct (Nat.eq_dec n 0) as [-> | Hn].
  - destruct (yields_empty_blocks r c Hr) as (subs & Hrun & _).
    eapply yields_bind; [exact Hrun | now apply yields_merge_nothing].
  - assert (c = 0) as -> by nia. intros tape. reflexivity.
Qed.

Lemma yields_populate_rows_nothing n r c :
  0 < r -> n * c = 0 -> yields (populate_rows n r c) ∅.
Proof.
  intros Hr Hnc. unfold populate_rows. rewrite Hnc.
  eapply yields_bind; [apply yields_lift, int_div_zero, Hr |].
  intros tape. reflexivity.
Qed.

Lemma yields_populate_columns_nothing n r c :
  0 < r -> n * c = 0 -> yields (populate_columns n r c) ∅.
Proof.
  intros Hr Hnc. unfold populate_columns. rewrite Hnc.
  eapply yields_bind; [apply yields_lift, int_div_zero, Hr |].
  destruct (Nat.eq_dec n 0) as [-> | Hn]; [intros tape; reflexivity |].
  assert (c = 0) as -> by nia.
  eapply yields_bind; [| apply yields_ret].
  unfold populate. eapply yields_bind; [apply yields_lift; reflexivity |].
  eapply yields_bind; [| apply yields_ret].
  apply for_each_idle. intros i. apply yields_ret.
Qed.

End Degenerate.

(** X18: with no edge to place, [n * c = 0], every regular construction
    returns the empty dictionary and draws nothing. *)
Theorem degenerate_sizes_give_empty_graph (name : string) (n r c : nat) :
  name ∈ regular_constructions -> 0 < r -> n * c = 0 ->
  forall tape, RegularLDPC.get_parity_check_graph n r c name tape = Done (∅, tape).
Proof.
  intros Hname Hr Hnc. unfold regular_constructions in Hname.
  repeat (apply elem_of_cons in Hname as [-> | Hname]);
    [| | | now apply elem_of_nil in Hname].
  - now apply Degenerate.yields_gallager_nothing.
  - now apply Degenerate.yields_populate_rows_nothing.
  - now apply Degenerate.yields_populate_columns_nothing.
Qed.

Lemma degenerate_sizes_give_empty_graph_witness :
  ((("gallager" : string) ∈ regular_constructions) /\ 0 < 3 /\ 0 * 2 = 0) /\
  RegularLDPC.get_parity_check_graph 0 3 2 "gallager" [4; 2] = Done (∅, [4; 2]).
Proof.
  assert ((("gallager" : string) ∈ regular_constructions) /\ 0 < 3 /\ 0 * 2 = 0) as H.
  { split; [apply list_elem_of_In; cbn; tauto | split; [lia | reflexivity]]. }
  split; [exact H |].
  destruct H as (H1 & H2 & H3).
  exact (degenerate_sizes_give_empty_graph "gallager" 0 3 2 H1 H2 H3 [4; 2]).
Defined.

(** X19: when the height [int(n * c / r)] comes out as zero although there are
    edges to place, the two populate constructions part ways:
    populate-rows returns the empty dictionary, populate-columns divides
    by the height and raises. *)
Theorem zero_height_parts_the_populates (n r c : nat) :
  int_div (n * c) r = Done 0 -> 0 < n * c ->
  (forall tape,
     RegularLDPC.get_parity_check_graph n r c "populate-rows" tape = Done (∅, tape)) /\
  (forall tape,
     RegularLDPC.get_parity_check_graph n r c "populate-columns" tape
     = Raise ZeroDivisionError).
Proof.
  intros Hh Hk. split; intros tape.
  - change (RegularLDPC.get_parity_check_graph n r c "populate-rows")
      with (RegularLDPC.populate_rows n r c).
    unfold RegularLDPC.populate_rows, mbind, rnd_bind, bind, lift. rewrite Hh.
    unfold RegularLDPC.populate, RegularLDPC.fill_available, mbind, rnd_bind, bind, lift.
    destruct (Nat.eqb_spec n 0); [nia |]. rewrite andb_false_r. reflexivity.
  - change (RegularLDPC.get_parity_check_graph n r c "populate-columns")
      with (RegularLDPC.populate_columns n r c).
    unfold RegularLDPC.populate_columns, mbind, rnd_bind, bind, lift. rewrite Hh.
    unfold RegularLDPC.populate, RegularLDPC.fill_available, mbind, rnd_bind, bind, lift.
    destruct (Nat.ltb_spec 0 (n * c)); [reflexivity | lia].
Qed.

Lemma zero_height_parts_the_populates_witness :
  (int_div (2 * 1) 5 = Done 0 /\ 0 < 2 * 1) /\
  RegularLDPC.get_parity_check_graph 2 5 1 "populate-rows" [] = Done (∅, []) /\
  RegularLDPC.get_parity_check_graph 2 5 1 "populate-columns" [] = Raise ZeroDivisionError.
Proof.
  assert (int_div (2 * 1) 5 = Done 0 /\ 0 < 2 * 1) as H.
  { split; [vm_compute; reflexivity | lia]. }
  split; [exact H |].
  destruct H as (H1 & H2).
  split.
  - exact (proj1 (zero_height_parts_the_populates 2 5 1 H1 H2) []).
  - exact (proj2 (zero_height_parts_the_populates 2 5 1 H1 H2) []).
Defined.

(** ** Gallager's construction on any input *)

Section ReturnSeq.
Context {S : Type}.

Lemma returns_for_seq (body : nat -> S -> rnd S) (I : nat -> S -> Prop) len :
  forall a s,
    I a s ->
    (forall i s, a <= i < a + len -> I i s -> returns (body i s) (I (1 + i))) ->
    returns (for_each (seq a len) body s) (I (a + len)).
Proof.
  induction len as [|len IH]; intros a s Hs Hbody; cbn [seq for_each].
  - rewrite Nat.add_0_r. now apply returns_ret.
  - eapply returns_bind.
    + apply Hbody; [lia | exact Hs].
    + intros s' Hs'. replace (a + Datatypes.S len) with (Datatypes.S a + len) by lia.
      apply IH; [exact Hs' |]. intros i s'' Hi. apply Hbody. lia.
Qed.

Lemma returns_for_range (body : nat -> S -> rnd S) (I : nat -> S -> Prop) len s :
  I 0 s ->
  (forall i s, i < len -> I i s -> returns (body i s) (I (1 + i))) ->
  returns (for_each (range len) body s) (I len).
Proof.
  intros H0 Hb. apply (returns_for_seq body I len 0 s H0).
  intros i s' Hi. apply Hb. lia.
Qed.
End ReturnSeq.

(** Rows of exactly [r] distinct indices below [n]. *)
Definition sound_rows (n r : nat) (g : graph) : Prop :=
  forall k row, g !! k = Some row ->
    length row = r /\ NoDup row /\ Forall (fun x => x < n) row.

Module GallagerAlways.
Import RegularLDPC GallagerFacts.

Section Fill.
Variables (cw : list nat) (r rows : nat).

(** While slot [j] of row [i] is about to be assigned. *)
Definition filling (i j : nat) (g : graph) : Prop :=
  forall i' row, g !! i' = Some row ->
    i' < rows /\
    if decide (i' < i) then row = chunk cw r i' /\ length row = r
    else if decide (i' = i) then row = take j (drop (i * r) cw) /\ length row = j
    else row = [].

Lemma returns_assign i j g :
  filling i j g -> returns (assign cw r i j g) (filling i (S j)).
Proof.
  intros Hinv. unfold assign.
  destruct (g !! i) as [row|] eqn:Hrow; [| apply returns_raise].
  destruct (cw !! (i * r + j)) as [x|] eqn:Hx; [| apply returns_raise].
  apply returns_ret. intros i' row'.
  destruct (decide (i = i')) as [<- | Hne].
  - rewrite lookup_insert_eq. intros [= <-].
    destruct (Hinv i row Hrow) as [Hi Hshape].
    rewrite decide_False, decide_True in Hshape by lia.
    destruct Hshape as [-> Hlen]. split; [exact Hi |].
    rewrite decide_False, decide_True by lia. split.
    + symmetry. apply take_S_r. now rewrite lookup_drop.
    + rewrite length_app, Hlen. cbn. lia.
  - rewrite lookup_insert_ne by exact Hne. intros Hrow'.
    destruct (Hinv i' row' Hrow') as [Hi Hshape]. split; [exact Hi |].
    repeat case_decide; try lia; exact Hshape.
Qed.

Lemma returns_fill :
  returns (for_each (range rows)
             (fun i g => for_each (range r) (assign cw r i) g) (empty_rows rows))
    (fun g => forall i row, g !! i = Some row -> row = chunk cw r i /\ length row = r).
Proof.
  eapply returns_weaken.
  - apply (returns_for_range _ (fun i g => filling i 0 g)).
    + intros i' row. rewrite lookup_empty_rows. case_decide; [| done].
      intros [= <-]. split; [assumption |]. repeat case_decide; auto; lia.
    + intros i g Hi Hinv.
      eapply returns_weaken.
      * apply (returns_for_range _ (fun j g => filling i j g)); [exact Hinv |].
        intros j g' _. apply returns_assign.
      * intros g' Hg' i' row Hrow. destruct (Hg' i' row Hrow) as [Hi' Hshape].
        split; [exact Hi' |]. cbn [Nat.add].
        repeat case_decide; try lia; subst; auto.
  - intros g Hg i row Hrow. destruct (Hg i row Hrow) as [Hi Hshape].
    now rewrite decide_True in Hshape by exact Hi.
Qed.
End Fill.

Lemma returns_SubGraph n r : returns (SubGraph n r) (sound_rows n r).
Proof.
  unfold SubGraph.
  eapply returns_bind; [apply returns_any |]. intros rows _.
  eapply returns_bind; [apply ensures_returns, ShuffleFacts.ensures_shuffle |].
  intros cw Hperm. eapply returns_weaken; [apply returns_fill |].
  intros g Hg k row Hrow. destruct (Hg k row Hrow) as [-> Hlen].
  assert (chunk cw r k `sublist_of` cw) as Hsub.
  { unfold chunk. etransitivity; [apply sublist_take | apply sublist_drop]. }
  split; [exact Hlen |]. split.
  - apply (sublist_NoDup _ cw); [| exact Hsub]. rewrite Hperm. apply NoDup_seq.
  - apply Forall_forall. intros x Hx. apply (elem_of_sublist _ cw) in Hx; [| exact Hsub].
    rewrite Hperm in Hx. apply elem_of_seq in Hx. lia.
Qed.

Lemma returns_merge n r (subs : list graph) :
  Forall (sound_rows n r) subs -> returns (merge subs n r) (sound_rows n r).
Proof.
  intros Hsubs. unfold merge.
  apply (returns_for_each _ _ (sound_rows n r)).
  2:{ intros k row. now rewrite lookup_empty. }
  intros i merged _ Hmerged.
  eapply returns_bind; [apply returns_any |]. intros rows _.
  destruct (subs !! i) as [sub|] eqn:Hsub; [| apply returns_raise].
  pose proof (proj1 (Forall_lookup _ _) Hsubs i sub Hsub) as Hsound.
  apply (returns_for_each _ _ (sound_rows n r)); [| exact Hmerged].
  intros j merged' _ Hmerged'. unfold merge_row.
  destruct (sub !! j) as [row|] eqn:Hrow; [| apply returns_raise].
  eapply returns_bind; [apply returns_any |]. intros key _.
  apply returns_ret. intros k row'.
  destruct (decide (key = k)) as [<- | Hne].
  - rewrite lookup_insert_eq. intros [= <-]. exact (Hsound j row Hrow).
  - rewrite lookup_insert_ne by exact Hne. apply Hmerged'.
Qed.

Lemma returns_gallager n r c : returns (gallager n r c) (sound_rows n r).
Proof.
  unfold gallager. destruct (r =? 0); [apply returns_raise |].
  eapply returns_bind.
  - apply (returns_for_each _ _ (Forall (sound_rows n r))); [| constructor].
    intros _ acc _ Hacc.
    eapply returns_bind; [apply returns_SubGraph |].
    intros sub Hsub. apply returns_ret.
    apply Forall_app. split; [exact Hacc | now constructor].
  - intros subs Hsubs. now apply returns_merge.
Qed.

End GallagerAlways.

(** X20: Gallager's construction on any arguments, also when [r] does not
    divide [n]: whenever it returns, every row of the graph has exactly
    [r] distinct indices below [n].  What irregular arguments cost is the
    numbering of the rows: with [n = 5], [r = 2] and three blocks the
    graph has the six keys 0, 1, 2, 3, 5 and 6. *)
Theorem gallager_rows_always_regular :
  (forall n r c tape g rest,
     RegularLDPC.get_parity_check_graph n r c "gallager" tape = Done (g, rest) ->
     forall k row, g !! k = Some row ->
       length row = r /\ NoDup row /\ Forall (fun x => x < n) row) /\
  (exists g rest,
     RegularLDPC.get_parity_check_graph 5 2 3 "gallager" (repeat 0 12) = Done (g, rest) /\
     size g = 6 /\ g !! 4 = None /\ is_Some (g !! 5) /\ is_Some (g !! 6)).
Proof.
  split.
  - intros n r c tape g rest Hrun.
    exact (GallagerAlways.returns_gallager n r c tape g rest Hrun).
  - destruct (RegularLDPC.get_parity_check_graph 5 2 3 "gallager" (repeat 0 12))
      as [[g rest]| |] eqn:Hrun; [| vm_compute in Hrun; discriminate ..].
    exists g, rest. split; [reflexivity |].
    vm_compute in Hrun. injection Hrun as <- <-.
    repeat split; vm_compute; eauto.
Qed.

Lemma gallager_rows_always_regular_witness :
  exists g rest,
    RegularLDPC.get_parity_check_graph 5 2 3 "gallager" (repeat 0 12) = Done (g, rest) /\
    forall k row, g !! k = Some row ->
      length row = 2 /\ NoDup row /\ Forall (fun x => x < 5) row.
Proof.
  destruct (RegularLDPC.get_parity_check_graph 5 2 3 "gallager" (repeat 0 12))
    as [[g rest]| |] eqn:Hrun; [| vm_compute in Hrun; discriminate ..].
  exists g, rest. split; [reflexivity |].
  exact (proj1 gallager_rows_always_regular 5 2 3 (repeat 0 12) g rest Hrun).
Defined.

(** ** The blocks of the lift *)

(** An [f]-by-[f] block of row weight [v]: rows [0 .. f-1], each with
    exactly [v] distinct indices below [f]. *)
Definition block_ok (f v : nat) (sub : graph) : Prop :=
  (forall i, is_Some (sub !! i) <-> i < f) /\
  (forall i row, sub !! i = Some row ->
     length row = v /\ NoDup row /\ Forall (fun x => x < f) row).

Module BlockWeights.
Import ProtographLDPC SpliceFacts.

Lemma block_ok_sub_ok f v sub : block_ok f v sub -> sub_ok f sub.
Proof.
  intros [Hkeys Hrows]. split; [exact Hkeys |].
  intros i row Hrow. destruct (Hrows i row Hrow) as (_ & Hnd & Hlt). auto.
Qed.

Lemma block_ok_intro f v sub :
  sub_ok f sub -> (forall i row, sub !! i = Some row -> length row = v) ->
  block_ok f v sub.
Proof.
  intros [Hkeys Hrows] Hlen. split; [exact Hkeys |].
  intros i row Hrow. destruct (Hrows i row Hrow) as (Hnd & Hlt).
  split; [now apply (Hlen i) | auto].
Qed.

Lemma block_ok_stacked f j g :
  PermutationFacts.stacked f j g -> block_ok f j (TannerGraph.tanner_graph g).
Proof. intros [_ _ Hkeys Hrows _]. now split. Qed.

Lemma block_ok_circulant f v L g :
  0 < f -> QuasiCyclicFacts.seed f v L -> QuasiCyclicFacts.circulant f L g ->
  block_ok f v (TannerGraph.tanner_graph g).
Proof.
  intros Hf Hseed Hcirc. apply block_ok_intro.
  - now apply (BlockFacts.sub_ok_circulant f v L).
  - intros i row Hrow. destruct Hcirc as (_ & _ & Hrows & Hnone).
    destruct Hseed as (Hlen & _).
    destruct (decide (i < f)) as [Hi | Hi].
    + rewrite Hrows in Hrow by exact Hi.
      assert (row = CyclicFacts.shifted_by f L i) as -> by congruence.
      now rewrite CyclicFacts.length_shifted_by.
    + rewrite Hnone in Hrow by lia. discriminate.
Qed.

Lemma permuted_rows_weight f v g (perm : list nat) :
  block_ok f v g -> perm ≡ₚ range f ->
  block_ok f v (map_seq 0 (map (fun src => default [] (g !! src)) perm)).
Proof.
  intros Hg Hperm. apply block_ok_intro.
  - apply BlockFacts.permuted_rows_ok; [now apply (block_ok_sub_ok f v) | exact Hperm].
  - destruct Hg as [Hkeys Hrows].
    intros i row. rewrite lookup_map_seq_0. intros Hrow.
    apply list_lookup_fmap_Some in Hrow as (src & -> & Hsrc).
    assert (src < f) as Hlt.
    { apply list_elem_of_lookup_2 in Hsrc. rewrite Hperm in Hsrc.
      apply elem_of_seq in Hsrc. lia. }
    destruct (proj2 (Hkeys src) Hlt) as [row Hrow]. rewrite Hrow. cbn.
    now apply (Hrows src).
Qed.

Lemma permuted_columns_weight f v (g : graph) (perm : list nat) :
  block_ok f v g -> perm ≡ₚ range f ->
  block_ok f v (map (fun x => nth x perm x) <$> g).
Proof.
  intros Hg Hperm. apply block_ok_intro.
  - apply BlockFacts.permuted_columns_ok; [now apply (block_ok_sub_ok f v) | exact Hperm].
  - destruct Hg as [Hkeys Hrows].
    intros i row. rewrite lookup_fmap. intros Hrow.
    apply fmap_Some in Hrow as (row0 & Hrow0 & ->).
    rewrite length_map. now apply (Hrows i).
Qed.

Lemma ensures_permuted_quasi_cyclic f v :
  0 < v -> v <= f ->
  ensures (permuted_quasi_cyclic f v) (fun g => block_ok f v (TannerGraph.tanner_graph g)).
Proof.
  intros Hv Hvf. unfold permuted_quasi_cyclic.
  destruct (QuasiCyclicFacts.construct_on_empty f (range v)) as (g0 & -> & Hcirc).
  pose proof (block_ok_circulant f v _ g0 ltac:(lia) (BlockFacts.seed_range f v Hvf) Hcirc)
    as Hok0.
  pose proof Hcirc as (Hw0 & _).
  assert (TannerGraph.len g0 = f) as Hlen0 by (apply LiftFacts.len_keys, Hok0).
  apply ensures_ret_bind.
  eapply (ensures_bind _ _ (fun g => TannerGraph.width g = Some f /\
                                     block_ok f v (TannerGraph.tanner_graph g))).
  - unfold TannerGraph.permute_rows. rewrite Hlen0.
    eapply ensures_bind; [apply ShuffleFacts.ensures_shuffle |].
    intros perm Hperm. apply ensures_ret. split; [exact Hw0 |]. cbn.
    now apply permuted_rows_weight.
  - intros g [Hw Hg]. unfold TannerGraph.permute_columns. rewrite Hw.
    eapply ensures_bind; [apply ShuffleFacts.ensures_shuffle |].
    intros perm Hperm. apply ensures_ret. cbn. now apply permuted_columns_weight.
Qed.

Lemma ensures_regular f v :
  0 < v -> v <= f -> (Z.of_nat f < 2 ^ 53)%Z ->
  ensures (RegularLDPC.init [f; f; v] "populate-rows")
    (fun x => block_ok f v (RegularLDPC.tanner_graph x)).
Proof.
  intros Hv Hvf Hbound. unfold RegularLDPC.init.
  assert (int_div_mul f f v = Done v) as Hr by (apply row_weight_of_square; lia).
  change (RegularLDPC.get_parity_check_graph f v v "populate-rows")
    with (RegularLDPC.populate_rows f v v).
  assert (int_div (f * v) v = Done f) as Hh by (apply int_div_exact; lia).
  destruct (PopulateResult.populate_rows_with_height f v v f Hh ltac:(lia))
    as [Hsafe _].
  apply (ensures_lift_bind _ _ _ _ Hr).
  eapply ensures_bind; [exact Hsafe |]. intros g Hg. now apply ensures_ret.
Qed.

(** Every recognised construction yields a block of row weight [v]. *)
Lemma ensures_submatrix name f v :
  name ∈ submatrix_constructions -> 0 < v -> v <= f -> (Z.of_nat f < 2 ^ 53)%Z ->
  ensures (submatrix name f v) (fun code => block_ok f v (graph_of code)).
Proof.
  intros Hname Hv Hvf Hbound. unfold submatrix_constructions in Hname.
  repeat (apply elem_of_cons in Hname as [-> | Hname]); [| | | | now apply elem_of_nil in Hname].
  - change (submatrix "permutation" f v)
      with (g ← permutation f v; ret (Graph g)).
    eapply ensures_bind; [apply (PermutationRuns.ensures_permutation f v Hv) |].
    intros g Hg. apply ensures_ret. cbn. now apply block_ok_stacked.
  - change (submatrix "regular" f v)
      with (x ← RegularLDPC.init [f; f; v] "populate-rows"; ret (Regular x)).
    eapply ensures_bind; [apply (ensures_regular f v Hv Hvf Hbound) |].
    intros x Hx. now apply ensures_ret.
  - change (submatrix "quasi-cyclic" f v)
      with (g ← quasi_cyclic f v; ret (Graph g)).
    eapply ensures_bind; [apply (QuasiCyclicFacts.ensures_quasi_cyclic f v Hvf) |].
    intros g (L & Hseed & Hg). apply ensures_ret. cbn.
    apply (block_ok_circulant f v L); auto. lia.
  - change (submatrix "permuted-quasi-cyclic" f v)
      with (g ← permuted_quasi_cyclic f v; ret (Graph g)).
    eapply ensures_bind; [apply (ensures_permuted_quasi_cyclic f v Hv Hvf) |].
    intros g Hg. now apply ensures_ret.
Qed.

End BlockWeights.

(** X21: whatever the recognised construction, the block built for a
    protograph entry [v] with [0 < v <= f] has the rows [0 .. f-1], each
    with exactly [v] distinct indices below [f]; the construction never
    raises and some sequence of draws makes it return. *)
Theorem submatrix_rows_have_weight (name : string) (f v : nat) :
  name ∈ submatrix_constructions -> 0 < v -> v <= f -> (Z.of_nat f < 2 ^ 53)%Z ->
  (forall tape,
     match ProtographLDPC.submatrix name f v tape with
     | Done (code, _) =>
         let g := ProtographLDPC.graph_of code in
         (forall i, is_Some (g !! i) <-> i < f) /\
         (forall i row, g !! i = Some row ->
            length row = v /\ NoDup row /\ Forall (fun x => x < f) row)
     | Raise _ => False
     | Starved => True
     end) /\
  (exists tape code rest, ProtographLDPC.submatrix name f v tape = Done (code, rest)).
Proof.
  intros Hname Hv Hvf Hbound. split.
  - intros tape.
    pose proof (BlockWeights.ensures_submatrix name f v Hname Hv Hvf Hbound tape) as Hsafe.
    destruct (ProtographLDPC.submatrix name f v tape) as [[code rest]| |]; auto.
  - destruct (BlockFacts.submatrix_ok name f v Hname Hv Hvf Hbound) as [_ Hfin].
    destruct (can_finish_run _ _ Hfin) as (tape & code & rest & Hrun & _).
    now exists tape, code, rest.
Qed.

Lemma submatrix_rows_have_weight_witness :
  ((("permuted-quasi-cyclic" : string) ∈ submatrix_constructions) /\ 0 < 2 /\ 2 <= 5 /\
   (Z.of_nat 5 < 2 ^ 53)%Z) /\
  exists tape code rest,
    ProtographLDPC.submatrix "permuted-quasi-cyclic" 5 2 tape = Done (code, rest).
Proof.
  assert ((("permuted-quasi-cyclic" : string) ∈ submatrix_constructions) /\ 0 < 2 /\
          2 <= 5 /\ (Z.of_nat 5 < 2 ^ 53)%Z) as H.
  { split; [apply list_elem_of_In; cbn; tauto |].
    split; [lia | split; [lia | reflexivity]]. }
  split; [exact H |].
  destruct H as (H1 & H2 & H3 & H4).
  exact (proj2 (submatrix_rows_have_weight "permuted-quasi-cyclic" 5 2 H1 H2 H3 H4)).
Defined.

(** ** The rows of the lifted graph *)

Lemma filter_none {A} (P : A -> Prop) `{!forall x, Decision (P x)} (l : list A) :
  Forall (fun x => ~ P x) l -> filter P l = [].
Proof.
  induction 1 as [|x l Hx _ IH]; [reflexivity |].
  now rewrite filter_cons_False by exact Hx.
Qed.

Lemma filter_all {A} (P : A -> Prop) `{!forall x, Decision (P x)} (l : list A) :
  Forall P l -> filter P l = l.
Proof.
  induction 1 as [|x l Hx _ IH]; [reflexivity |].
  rewrite filter_cons_True by exact Hx. now f_equal.
Qed.

Section StridedEnsures.
Context {S : Type}.
Variable h : nat -> nat.

Lemma ensures_for_strided (body : nat -> S -> rnd S) (I : nat -> S -> Prop) len :
  forall a s,
    I a s ->
    (forall i s, a <= i < a + len -> I i s -> ensures (body (h i) s) (I (1 + i))) ->
    ensures (for_each (map h (seq a len)) body s) (I (a + len)).
Proof.
  induction len as [|len IH]; intros a s Hs Hbody; cbn [seq map for_each].
  - rewrite Nat.add_0_r. now apply ensures_ret.
  - eapply ensures_bind.
    + apply Hbody; [lia | exact Hs].
    + intros s' Hs'. replace (a + Datatypes.S len) with (Datatypes.S a + len) by lia.
      apply IH; [exact Hs' |]. intros i s'' Hi. apply Hbody. lia.
Qed.
End StridedEnsures.

(** The protograph entry at [(i, j)], zero outside the matrix. *)
Definition multiplicity (p : Protograph.t) (i j : nat) : nat := default 0 (cell p i j).

(** The part of a lifted row that lies in block column [j]. *)
Definition block_part (f j : nat) (row : list nat) : list nat :=
  filter (fun x => j * f <= x < (j + 1) * f) row.

Module LiftWeights.
Import ProtographLDPC SpliceFacts LiftFacts.

(** *** What a splice writes *)

Section Splice.
Variables (f r0 c0 : nat) (g : TannerGraph.t) (sub : graph).
Hypothesis block : sub_ok f sub.
Hypothesis band :
  forall i, i < f ->
    exists old, TannerGraph.tanner_graph g !! (i + r0) = Some old /\
                NoDup old /\ Forall (fun x => x < c0) old.

(** Row [k] of the target with row [k - r0] of the block appended. *)
Definition joined (k : nat) : option (list nat) :=
  match TannerGraph.tanner_graph g !! k, sub !! (k - r0) with
  | Some old, Some row => Some (old ++ map (fun x => x + c0) row)
  | _, _ => None
  end.

Definition spliced (visited : list (nat * list nat)) (acc : graph) : Prop :=
  forall k, acc !! k =
    if decide (r0 <= k /\ k - r0 ∈ visited.*1) then joined k
    else TannerGraph.tanner_graph g !! k.

Lemma spliced_start : spliced [] (TannerGraph.tanner_graph g).
Proof.
  intros k. rewrite decide_False; [reflexivity |].
  intros [_ Hin]. cbn in Hin. now apply elem_of_nil in Hin.
Qed.

Lemma spliced_step before i row after acc :
  map_to_list sub = before ++ (i, row) :: after ->
  spliced before acc ->
  exists acc',
    yields (for_each row (TannerGraph.insert_edge r0 c0 i) acc) acc' /\
    spliced (before ++ [(i, row)]) acc'.
Proof.
  intros Hsplit Hinv. destruct block as [Hsubkeys Hsubrows].
  assert (sub !! i = Some row) as Hrow.
  { apply elem_of_map_to_list. rewrite Hsplit. apply elem_of_app. right. left. }
  assert (i < f) as Hi by (apply Hsubkeys; eauto).
  destruct (Hsubrows i row Hrow) as [Hnd Hlt].
  assert (i ∉ before.*1) as Hfresh.
  { pose proof (NoDup_fst_map_to_list sub) as Hnodup.
    rewrite Hsplit, fmap_app, fmap_cons in Hnodup. cbn in Hnodup.
    apply NoDup_app in Hnodup as (_ & Hdisj & _).
    intros Hin. apply (Hdisj i Hin). left. }
  destruct (band i Hi) as (old & Hold & Hndold & Hltold).
  assert (acc !! (i + r0) = Some old) as Hacc.
  { rewrite Hinv, decide_False; [exact Hold |]. intros [_ Hin]. apply Hfresh.
    now replace (i + r0 - r0) with i in Hin by lia. }
  rewrite Forall_forall in Hltold.
  eexists. split.
  - apply (yields_insert_row r0 c0 i row old acc Hacc Hnd).
    intros y Hy Hin. specialize (Hltold _ Hin). lia.
  - intros k. destruct (decide (i + r0 = k)) as [<- | Hne].
    + rewrite lookup_insert_eq, decide_True.
      * unfold joined. rewrite Hold. replace (i + r0 - r0) with i by lia.
        now rewrite Hrow.
      * split; [lia |]. rewrite fmap_app. apply elem_of_app. right.
        replace (i + r0 - r0) with i by lia. cbn. left.
    + rewrite lookup_insert_ne, Hinv by exact Hne.
      destruct (decide (r0 <= k /\ k - r0 ∈ before.*1)) as [[Hk Hin] | Hno].
      * rewrite decide_True; [reflexivity |]. split; [exact Hk |].
        rewrite fmap_app. apply elem_of_app. now left.
      * rewrite decide_False; [reflexivity |]. intros [Hk Hin].
        rewrite fmap_app in Hin. apply elem_of_app in Hin as [Hin | Hin].
        -- apply Hno. auto.
        -- cbn in Hin. apply list_elem_of_singleton in Hin. lia.
Qed.

(** The splice appends, to every row of the band, the matching row of
    the block moved to column [c0], and leaves the other rows alone. *)
Lemma yields_insert_content :
  exists g',
    yields (TannerGraph.insert g sub (r0, c0)) g' /\
    forall k, TannerGraph.tanner_graph g' !! k =
      if decide (r0 <= k < r0 + f) then joined k
      else TannerGraph.tanner_graph g !! k.
Proof.
  destruct (yields_for_each_prefix
              (fun '(i, row) acc => for_each row (TannerGraph.insert_edge r0 c0 i) acc)
              spliced (map_to_list sub) (TannerGraph.tanner_graph g)
              spliced_start)
    as (acc & Hrun & Hinv).
  { intros before [i row] after acc Hsplit Hacc. now apply (spliced_step _ _ _ after). }
  eexists. split.
  - unfold TannerGraph.insert. eapply yields_bind; [exact Hrun | apply yields_ret].
  - cbn. intros k. rewrite Hinv. destruct block as [Hsubkeys _].
    assert (k - r0 ∈ (map_to_list sub).*1 <-> k - r0 < f) as Hmem.
    { rewrite <- Hsubkeys. split.
      - intros Hin. apply list_elem_of_fmap in Hin as ([i row] & Heq & Hin).
        apply elem_of_map_to_list in Hin. cbn in Heq. subst i. eauto.
      - intros [row Hrow]. apply list_elem_of_fmap. exists (k - r0, row).
        split; [reflexivity |]. now apply elem_of_map_to_list. }
    destruct (decide (r0 <= k /\ k - r0 ∈ (map_to_list sub).*1)) as [[Hk Hin] | Hno],
             (decide (r0 <= k < r0 + f)) as [[Hk1 Hk2] | Hno']; try reflexivity; exfalso.
    + apply Hmem in Hin. lia.
    + apply Hno. split; [exact Hk1 |]. apply Hmem. lia.
Qed.
End Splice.

(** *** The invariant of the lift *)

Section Lift.
Variables (p : Protograph.t) (f : nat) (name : string).
Let h := Protograph.height p.
Let w := Protograph.width p.

(** A row of block row [i] once the block columns below [jmax] are in. *)
Record row_ok (i jmax : nat) (row : list nat) : Prop := {
  ro_nodup : NoDup row;
  ro_below : Forall (fun x => x < jmax * f) row;
  ro_length : length row = sum_list_with (multiplicity p i) (seq 0 jmax);
  ro_parts : forall j, j < jmax -> length (block_part f j row) = multiplicity p i j
}.

Lemma row_ok_nil i : row_ok i 0 [].
Proof. split; [constructor | constructor | reflexivity | intros j Hj; lia]. Qed.

Lemma part_before j (row : list nat) :
  Forall (fun x => x < j * f) row -> block_part f j row = [].
Proof.
  intros Hlt. apply filter_none. eapply Forall_impl; [exact Hlt |].
  cbn. intros x Hx. lia.
Qed.

Lemma row_ok_skip i j row :
  multiplicity p i j = 0 -> row_ok i j row -> row_ok i (S j) row.
Proof.
  intros Hzero [Hnd Hlt Hlen Hparts]. split.
  - exact Hnd.
  - eapply Forall_impl; [exact Hlt |]. cbn. intros x Hx. lia.
  - rewrite seq_S, sum_list_with_app, <- Hlen. cbn. lia.
  - intros j' Hj'. destruct (decide (j' = j)) as [-> | Hne].
    + rewrite part_before by exact Hlt. now rewrite Hzero.
    + apply Hparts. lia.
Qed.

Lemma row_ok_extend i j row srow :
  row_ok i j row -> length srow = multiplicity p i j -> NoDup srow ->
  Forall (fun x => x < f) srow ->
  row_ok i (S j) (row ++ map (fun x => x + j * f) srow).
Proof.
  intros [Hnd Hlt Hlen Hparts] Hslen Hsnd Hslt.
  rewrite Forall_forall in Hlt. rewrite Forall_forall in Hslt.
  split.
  - apply NoDup_app. repeat split; [exact Hnd | |].
    + intros y Hy Hin. apply list_elem_of_fmap in Hin as (x & -> & Hx).
      specialize (Hlt _ Hy). lia.
    + apply NoDup_fmap_2; [| exact Hsnd]. intros a b. lia.
  - apply Forall_app. split; apply Forall_forall.
    + intros y Hy. specialize (Hlt _ Hy). lia.
    + intros y Hy. apply list_elem_of_fmap in Hy as (x & -> & Hx).
      specialize (Hslt _ Hx). cbn in Hslt. lia.
  - rewrite length_app, length_map, Hlen, Hslen.
    rewrite seq_S, sum_list_with_app. cbn. lia.
  - intros j' Hj'. unfold block_part. rewrite filter_app, length_app.
    destruct (decide (j' = j)) as [-> | Hne].
    + fold (block_part f j row). rewrite part_before by now apply Forall_forall.
      rewrite filter_all; [now rewrite length_map |].
      apply Forall_forall. intros y Hy. apply list_elem_of_fmap in Hy as (x & -> & Hx).
      specialize (Hslt _ Hx). cbn in Hslt. lia.
    + fold (block_part f j' row). rewrite Hparts by lia.
      rewrite filter_none; [cbn; lia |].
      apply Forall_forall. intros y Hy. apply list_elem_of_fmap in Hy as (x & -> & Hx).
      assert ((j' + 1) * f <= j * f) by nia. lia.
Qed.

(** While the block at [(i, j)] is about to be built. *)
Record lift_rows (i j : nat) (g : TannerGraph.t) : Prop := {
  lr_keys : forall k, is_Some (TannerGraph.tanner_graph g !! k) <-> k < h * f;
  lr_done : forall k row, TannerGraph.tanner_graph g !! k = Some row ->
            k < i * f -> row_ok (k / f) w row;
  lr_band : forall k row, TannerGraph.tanner_graph g !! k = Some row ->
            i * f <= k < (i + 1) * f -> row_ok i j row;
  lr_later : forall k row, TannerGraph.tanner_graph g !! k = Some row ->
             (i + 1) * f <= k -> row = []
}.

Lemma lift_rows_start g : blank (h * f) g -> lift_rows 0 0 g.
Proof.
  intros (_ & _ & Hrows). split.
  - intros k. rewrite Hrows. case_decide; split; intros H'; done.
  - intros k row _ Hk. lia.
  - intros k row. rewrite Hrows. case_decide; [| congruence].
    intros [= <-] _. apply row_ok_nil.
  - intros k row. rewrite Hrows. case_decide; congruence.
Qed.

Lemma lift_rows_next_row i g : lift_rows i w g -> lift_rows (S i) 0 g.
Proof.
  intros [Hkeys Hdone Hband Hlater]. split.
  - exact Hkeys.
  - intros k row Hrow Hk. destruct (decide (k < i * f)) as [Hlt | Hge].
    + now apply Hdone.
    + assert (i * f <= k < (i + 1) * f) as Hin by lia.
      replace (k / f) with i; [now apply (Hband k) |].
      apply (Nat.div_unique _ _ _ (k - i * f)); lia.
  - intros k row Hrow Hk. rewrite (Hlater k row Hrow) by lia. apply row_ok_nil.
  - intros k row Hrow Hk. apply (Hlater k row Hrow). lia.
Qed.

Lemma lift_rows_skip i j g :
  multiplicity p i j = 0 -> lift_rows i j g -> lift_rows i (S j) g.
Proof.
  intros Hzero [Hkeys Hdone Hband Hlater]. split; auto.
  intros k row Hrow Hk. apply row_ok_skip; [exact Hzero |]. now apply (Hband k).
Qed.

Lemma lift_rows_insert i j g sub :
  i < h -> lift_rows i j g -> block_ok f (multiplicity p i j) sub ->
  exists g',
    yields (TannerGraph.insert g sub (i * f, j * f)) g' /\ lift_rows i (S j) g' /\
    (forall k, i * f <= k < i * f + f ->
       exists old srow,
         TannerGraph.tanner_graph g !! k = Some old /\ sub !! (k - i * f) = Some srow /\
         TannerGraph.tanner_graph g' !! k
         = Some (old ++ map (fun x => x + j * f) srow)) /\
    (forall k, ~ (i * f <= k < i * f + f) ->
       TannerGraph.tanner_graph g' !! k = TannerGraph.tanner_graph g !! k).
Proof.
  intros Hi [Hkeys Hdone Hband Hlater] Hsub.
  pose proof Hsub as [Hsubkeys Hsubrows].
  destruct (yields_insert_content f (i * f) (j * f) g sub)
    as (g' & Hrun & Hcontent).
  { now apply (BlockWeights.block_ok_sub_ok f (multiplicity p i j)). }
  { intros i0 Hi0.
    destruct (proj2 (Hkeys (i0 + i * f))) as [old Hold]; [nia |].
    exists old. split; [exact Hold |].
    destruct (Hband _ _ Hold ltac:(lia)) as [Hnd Hlt _ _]. auto. }
  assert (forall k, i * f <= k < i * f + f ->
            exists old srow,
              TannerGraph.tanner_graph g !! k = Some old /\ sub !! (k - i * f) = Some srow /\
              TannerGraph.tanner_graph g' !! k
              = Some (old ++ map (fun x => x + j * f) srow)) as Hin.
  { intros k Hk.
    destruct (proj2 (Hkeys k)) as [old Hold]; [nia |].
    destruct (proj2 (Hsubkeys (k - i * f))) as [srow Hsrow]; [lia |].
    exists old, srow. repeat split; auto.
    rewrite Hcontent, decide_True by exact Hk. unfold joined.
    now rewrite Hold, Hsrow. }
  assert (forall k, ~ (i * f <= k < i * f + f) ->
            TannerGraph.tanner_graph g' !! k = TannerGraph.tanner_graph g !! k) as Hout.
  { intros k Hk. now rewrite Hcontent, decide_False by exact Hk. }
  exists g'. split; [exact Hrun |]. split; [| split; [exact Hin | exact Hout]]. split.
  - intros k. destruct (decide (i * f <= k < i * f + f)) as [Hk | Hk].
    + destruct (Hin k Hk) as (old & srow & _ & _ & ->). split; [intros _; nia | eauto].
    + rewrite (Hout k Hk). apply Hkeys.
  - intros k row Hrow Hk. rewrite Hout in Hrow by lia. now apply (Hdone k).
  - intros k row Hrow Hk.
    destruct (Hin k ltac:(lia)) as (old & srow & Hold & Hsrow & Hnew).
    rewrite Hnew in Hrow. injection Hrow as <-.
    destruct (Hsubrows _ _ Hsrow) as (Hlen & Hnd & Hlt).
    apply row_ok_extend; auto. apply (Hband k old Hold). lia.
  - intros k row Hrow Hk. rewrite Hout in Hrow by lia. now apply (Hlater k).
Qed.

Hypothesis f_pos : 0 < f.
Hypothesis shape : well_formed p.
Hypothesis sizes : small p f.
Hypothesis known : name ∈ submatrix_constructions.
Hypothesis fitting : forall i j v, cell p i j = Some v -> v <= f.

Lemma ensures_block i j g :
  i < h -> j < w -> lift_rows i j g ->
  ensures (block p f name (i * f) (j * f) g) (lift_rows i (S j)).
Proof.
  intros Hi Hj Hinv. destruct sizes as (Hh & Hw & Hfs).
  destruct (LiftRuns.cell_well_formed p i j shape Hi Hj) as [v Hcell].
  assert (entry p f (i * f) (j * f) = Done v) as Hentry.
  { rewrite LiftRuns.entry_exact, Hcell by (unfold h, w in *; lia). reflexivity. }
  assert (multiplicity p i j = v) as Hmult by (unfold multiplicity; now rewrite Hcell).
  pose proof (fitting i j v Hcell) as Hle.
  unfold block. apply (ensures_lift_bind _ _ _ _ Hentry).
  destruct (Nat.ltb_spec f v); [lia |].
  destruct (Nat.eqb_spec v 0) as [-> | Hnz].
  - apply ensures_ret. now apply lift_rows_skip.
  - eapply ensures_bind.
    + apply (BlockWeights.ensures_submatrix name f v known ltac:(lia) Hle Hfs).
    + intros sub Hsub. rewrite <- Hmult in Hsub.
      destruct (lift_rows_insert i j g (graph_of sub) Hi Hinv Hsub)
        as (g' & Hrun & Hg' & _).
      now apply (yields_ensures _ g').
Qed.

Lemma ensures_expanded_protograph :
  ensures (expanded_protograph p f name)
    (fun g => (forall k, is_Some (g !! k) <-> k < h * f) /\
              forall k row, g !! k = Some row -> row_ok (k / f) w row).
Proof.
  unfold expanded_protograph. fold h w.
  pose proof (addRow_iter (h * f)) as Hblank.
  set (g0 := Nat.iter (h * f) TannerGraph.addRow TannerGraph.empty) in *.
  pose proof (lift_rows_start g0 Hblank) as Hstart.
  assert (TannerGraph.len g0 = h * f) as Hlen by (apply len_keys, Hstart).
  rewrite Hlen.
  pose proof (range_step_multiple h f f_pos) as Hrows.
  pose proof (range_step_multiple w f f_pos) as Hcols.
  unfold range in Hrows, Hcols.
  apply (ensures_lift_bind _ _ _ _ Hrows).
  eapply ensures_bind.
  - apply (ensures_for_strided (fun i => i * f) _
             (fun i g => lift_rows i 0 g) h 0 g0 Hstart).
    intros i g [_ Hi] Hg. cbn in Hi.
    apply (ensures_lift_bind _ _ _ _ Hcols).
    eapply ensures_weaken; [| intros g'; apply lift_rows_next_row].
    apply (ensures_for_strided (fun j => j * f)
             (block p f name (i * f)) (fun j g => lift_rows i j g) w 0 g Hg).
    intros j g' [_ Hj] Hg'. cbn in Hj. now apply ensures_block.
  - intros g [Hkeys Hdone _ _]. apply ensures_ret. cbn. split; [exact Hkeys |].
    intros k row Hrow. apply (Hdone k row Hrow). apply Hkeys. eauto.
Qed.
End Lift.

End LiftWeights.

(** X22: the lifted graph follows the protograph row by row: for a recognised
    construction, a positive lift factor and a well-formed protograph
    whose entries do not exceed [f] (sizes being exact doubles) the lift
    never raises and, whenever it returns, each of the [f] check nodes of
    block row [i] is a duplicate-free list of variable nodes below
    [n_p * f] that holds exactly [P[i][j]] nodes of block column [j], so
    that its weight is the sum of row [i] of the protograph. *)
Theorem lift_rows_follow_protograph (p : Protograph.t) (f : nat) (name : string) :
  name ∈ submatrix_constructions -> 0 < f -> well_formed p -> small p f ->
  (forall i j v, cell p i j = Some v -> v <= f) ->
  forall tape,
    match ProtographLDPC.init p f name tape with
    | Done (x, _) =>
        forall i t, i < Protograph.height p -> t < f ->
          exists row,
            ProtographLDPC.tanner_graph x !! (i * f + t) = Some row /\
            NoDup row /\
            Forall (fun y => y < Protograph.width p * f) row /\
            (forall j v, cell p i j = Some v -> length (block_part f j row) = v) /\
            length row = sum_list_with (multiplicity p i) (range (Protograph.width p))
    | Raise _ => False
    | Starved => True
    end.
Proof.
  intros Hname Hf Hshape Hsizes Hcells tape.
  pose proof (LiftWeights.ensures_expanded_protograph p f name Hf Hshape Hsizes Hname
                Hcells tape) as Hsafe.
  unfold ProtographLDPC.init, mbind, rnd_bind, bind.
  destruct (ProtographLDPC.expanded_protograph p f name tape) as [[g rest]| |]; auto.
  cbn. destruct Hsafe as [Hkeys Hrows]. intros i t Hi Ht.
  destruct (proj2 (Hkeys (i * f + t))) as [row Hrow]; [nia |].
  exists row. split; [exact Hrow |].
  pose proof (Hrows _ _ Hrow) as Hok.
  replace ((i * f + t) / f) with i in Hok
    by (apply (Nat.div_unique _ _ _ t); lia).
  destruct Hok as [Hnd Hlt Hlen Hparts]. repeat split; auto.
  intros j v Hcell.
  assert (j < Protograph.width p) as Hj.
  { unfold cell in Hcell. destruct Hshape as [_ Hwidths].
    destruct (Protograph.entries p !! i) as [r|] eqn:Hr; [| discriminate].
    rewrite Forall_forall in Hwidths. rewrite <- (Hwidths r).
    - now apply lookup_lt_Some in Hcell.
    - eapply list_elem_of_lookup_2, Hr. }
  rewrite (Hparts j Hj). unfold multiplicity. now rewrite Hcell.
Qed.

Lemma lift_rows_follow_protograph_witness :
  ((("regular" : string) ∈ submatrix_constructions) /\ 0 < 3 /\
   well_formed scenario /\ small scenario 3 /\
   (forall i j v, cell scenario i j = Some v -> v <= 3)) /\
  match ProtographLDPC.init scenario 3 "regular" (repeat 0 40) with
  | Done (x, _) =>
      exists row, ProtographLDPC.tanner_graph x !! (1 * 3 + 2) = Some row /\
                  length row = 3 /\ length (block_part 3 1 row) = 2
  | Raise _ => False
  | Starved => True
  end.
Proof.
  assert ((("regular" : string) ∈ submatrix_constructions) /\ 0 < 3 /\
          well_formed scenario /\ small scenario 3 /\
          (forall i j v, cell scenario i j = Some v -> v <= 3)) as H.
  { split; [apply list_elem_of_In; cbn; tauto |].
    split; [lia |]. split; [split; [reflexivity | repeat constructor] |].
    split; [repeat split |].
    intros [|[|i]] [|[|j]] v; cbn; intros [=]; subst; lia. }
  split; [exact H |].
  destruct H as (H1 & H2 & H3 & H4 & H5).
  pose proof (lift_rows_follow_protograph scenario 3 "regular" H1 H2 H3 H4 H5
                (repeat 0 40)) as Hrun.
  destruct (ProtographLDPC.init scenario 3 "regular" (repeat 0 40)) as [[x rest]| |];
    auto.
  destruct (Hrun 1 2 ltac:(cbn; lia) ltac:(lia)) as (row & Hrow & _ & _ & Hparts & Hlen).
  exists row. split; [exact Hrow |]. split; [exact Hlen |].
  exact (Hparts 1 2 eq_refl).
Defined.

(** ** The columns of the blocks and of the lifted graph *)

(** The constructions whose blocks are regular in their columns. *)
Definition column_regular_constructions : list string :=
  ["permutation"; "quasi-cyclic"; "permuted-quasi-cyclic"]%string.

Module BlockColumns.
Import ProtographLDPC.

Lemma sum_over_lookups {A} (u : A -> nat) (d : A) (l : list A) :
  sum_list_with (fun i => u (default d (l !! i))) (seq 0 (length l))
  = sum_list_with u l.
Proof.
  induction l as [|a l IH]; [reflexivity |].
  cbn [length seq sum_list_with]. rewrite <- fmap_S_seq.
  rewrite PermutationFacts.sum_list_with_fmap. cbn. f_equal. exact IH.
Qed.

Lemma count_map_inj (pi : nat -> nat) (row : list nat) x :
  (forall a, a ∈ row -> pi a = pi x -> a = x) ->
  count (map pi row) (pi x) = count row x.
Proof.
  intros Hinj. rewrite Counting.count_map.
  transitivity (count (map (fun a => a) row) x); [| now rewrite map_id].
  rewrite Counting.count_map.
  apply PermutationFacts.sum_list_with_ext. intros a Ha.
  destruct (decide (pi a = pi x)) as [Heq | Hne], (decide (a = x)) as [Hax | Hax];
    try reflexivity.
  - exfalso. apply Hax. now apply Hinj.
  - subst. contradiction.
Qed.

(** Permuting the rows keeps every column weight. *)
Lemma permuted_rows_columns f v (g : graph) (perm : list nat) :
  columns_ok f v g -> perm ≡ₚ range f ->
  columns_ok f v (map_seq 0 (map (fun src => default [] (g !! src)) perm)).
Proof.
  intros Hcols Hperm x Hx. rewrite <- (Hcols x Hx).
  assert (length perm = f) as Hlen.
  { rewrite Hperm. unfold range. apply length_seq. }
  unfold column_weight, range.
  transitivity (sum_list_with (fun row => count row x)
                  (map (fun src => default [] (g !! src)) perm)).
  - rewrite <- (sum_over_lookups (fun row => count row x) []).
    rewrite length_map, Hlen.
    apply PermutationFacts.sum_list_with_ext. intros i _.
    now rewrite lookup_map_seq_0.
  - change (map (fun src => default [] (g !! src)) perm)
      with ((fun src => default [] (g !! src)) <$> perm).
    rewrite PermutationFacts.sum_list_with_fmap.
    now rewrite Hperm.
Qed.

(** Renaming the columns by a permutation keeps the set of column weights. *)
Lemma permuted_columns_columns f v (g : graph) (perm : list nat) :
  SpliceFacts.sub_ok f g -> columns_ok f v g -> perm ≡ₚ range f ->
  columns_ok f v (map (fun x => nth x perm x) <$> g).
Proof.
  intros [Hkeys Hrows] Hcols Hperm y Hy.
  assert (length perm = f) as Hlen.
  { rewrite Hperm. unfold range. apply length_seq. }
  assert (NoDup perm) as Hnd by (rewrite Hperm; apply NoDup_seq).
  assert (forall a, a < f -> perm !! a = Some (nth a perm a)) as Hnth.
  { intros a Ha. destruct (lookup_lt_is_Some_2 perm a ltac:(lia)) as [b Hb].
    now rewrite (nth_lookup_Some _ _ _ _ Hb). }
  assert (y ∈ perm) as Hin by (rewrite Hperm; apply elem_of_seq; lia).
  apply list_elem_of_lookup in Hin as [x0 Hx0].
  assert (x0 < f) as Hx0f by (apply lookup_lt_Some in Hx0; lia).
  assert (nth x0 perm x0 = y) as Hy0 by now apply nth_lookup_Some.
  rewrite <- (Hcols x0 Hx0f). unfold column_weight, range.
  apply PermutationFacts.sum_list_with_ext. intros i _.
  rewrite lookup_fmap. destruct (g !! i) as [row|] eqn:Hrow; [| reflexivity].
  cbn [fmap option_fmap option_map default]. rewrite <- Hy0.
  apply (count_map_inj (fun x => nth x perm x)).
  intros a Ha Heq. destruct (Hrows i row Hrow) as [_ Hlt].
  rewrite Forall_forall in Hlt. specialize (Hlt a Ha). cbn in Hlt.
  pose proof (Hnth a Hlt) as Hla. pose proof (Hnth x0 Hx0f) as Hlx.
  rewrite Heq in Hla. exact (NoDup_lookup _ _ _ _ Hnd Hla Hlx).
Qed.

(** A block that is regular in its rows and in its columns. *)
Definition biregular (f v : nat) (sub : graph) : Prop :=
  block_ok f v sub /\ columns_ok f v sub.

Lemma ensures_permuted_biregular f v :
  0 < v -> v <= f ->
  ensures (permuted_quasi_cyclic f v) (fun g => biregular f v (TannerGraph.tanner_graph g)).
Proof.
  intros Hv Hvf. unfold permuted_quasi_cyclic.
  destruct (QuasiCyclicFacts.construct_on_empty f (range v)) as (g0 & -> & Hcirc).
  pose proof (BlockFacts.seed_range f v Hvf) as Hseed.
  pose proof (BlockWeights.block_ok_circulant f v _ g0 ltac:(lia) Hseed Hcirc) as Hok0.
  pose proof (circulant_columns f v _ g0 Hseed Hcirc) as Hcols0.
  pose proof Hcirc as (Hw0 & _).
  assert (TannerGraph.len g0 = f) as Hlen0 by (apply LiftFacts.len_keys, Hok0).
  apply ensures_ret_bind.
  eapply (ensures_bind _ _ (fun g => TannerGraph.width g = Some f /\
                                     biregular f v (TannerGraph.tanner_graph g))).
  - unfold TannerGraph.permute_rows. rewrite Hlen0.
    eapply ensures_bind; [apply ShuffleFacts.ensures_shuffle |].
    intros perm Hperm. apply ensures_ret. split; [exact Hw0 |]. cbn. split.
    + now apply BlockWeights.permuted_rows_weight.
    + now apply permuted_rows_columns.
  - intros g [Hw [Hg Hcols]]. unfold TannerGraph.permute_columns. rewrite Hw.
    eapply ensures_bind; [apply ShuffleFacts.ensures_shuffle |].
    intros perm Hperm. apply ensures_ret. cbn. split.
    + now apply BlockWeights.permuted_columns_weight.
    + apply permuted_columns_columns; auto.
      now apply (BlockWeights.block_ok_sub_ok f v).
Qed.

Lemma ensures_submatrix_biregular name f v :
  name ∈ column_regular_constructions -> 0 < v -> v <= f ->
  ensures (submatrix name f v) (fun code => biregular f v (graph_of code)).
Proof.
  intros Hname Hv Hvf. unfold column_regular_constructions in Hname.
  repeat (apply elem_of_cons in Hname as [-> | Hname]); [| | | now apply elem_of_nil in Hname].
  - change (submatrix "permutation" f v)
      with (g ← permutation f v; ret (Graph g)).
    eapply ensures_bind; [apply (PermutationRuns.ensures_permutation f v Hv) |].
    intros g Hg. apply ensures_ret. cbn. split.
    + now apply BlockWeights.block_ok_stacked.
    + destruct Hg as [_ _ _ _ Hcols]. exact Hcols.
  - change (submatrix "quasi-cyclic" f v)
      with (g ← quasi_cyclic f v; ret (Graph g)).
    eapply ensures_bind; [apply (QuasiCyclicFacts.ensures_quasi_cyclic f v Hvf) |].
    intros g (L & Hseed & Hg). apply ensures_ret. cbn. split.
    + apply (BlockWeights.block_ok_circulant f v L); auto. lia.
    + now apply (circulant_columns f v L).
  - change (submatrix "permuted-quasi-cyclic" f v)
      with (g ← permuted_quasi_cyclic f v; ret (Graph g)).
    eapply ensures_bind; [apply (ensures_permuted_biregular f v Hv Hvf) |].
    intros g Hg. now apply ensures_ret.
Qed.

Lemma column_regular_known name :
  name ∈ column_regular_constructions -> name ∈ submatrix_constructions.
Proof.
  unfold column_regular_constructions, submatrix_constructions. intros Hname.
  repeat (apply elem_of_cons in Hname as [-> | Hname]);
    [| | | now apply elem_of_nil in Hname]; apply list_elem_of_In; cbn; tauto.
Qed.

End BlockColumns.

(** X23: a permuted quasi-cyclic block is regular in its rows and in its
    columns: for [0 < v <= f] the construction never raises and,
    whenever it returns, each of the [f] rows has exactly [v] distinct
    indices below [f] and every variable node below [f] lies in exactly
    [v] rows. *)
Theorem permuted_quasi_cyclic_biregular (f v : nat) :
  0 < v -> v <= f ->
  forall tape,
    match ProtographLDPC.submatrix "permuted-quasi-cyclic" f v tape with
    | Done (code, _) =>
        let g := ProtographLDPC.graph_of code in
        (forall i row, g !! i = Some row ->
           length row = v /\ NoDup row /\ Forall (fun x => x < f) row) /\
        (forall x, x < f -> column_weight g f x = v)
    | Raise _ => False
    | Starved => True
    end.
Proof.
  intros Hv Hvf tape.
  change (ProtographLDPC.submatrix "permuted-quasi-cyclic" f v)
    with (g ← ProtographLDPC.permuted_quasi_cyclic f v; ret (ProtographLDPC.Graph g)).
  pose proof (BlockColumns.ensures_permuted_biregular f v Hv Hvf tape) as Hsafe.
  unfold mbind, rnd_bind, bind.
  destruct (ProtographLDPC.permuted_quasi_cyclic f v tape) as [[g rest]| |]; auto.
  destruct Hsafe as [[_ Hrows] Hcols]. cbn. split; [exact Hrows | exact Hcols].
Qed.

Lemma permuted_quasi_cyclic_biregular_witness :
  (0 < 2 /\ 2 <= 4) /\
  match ProtographLDPC.submatrix "permuted-quasi-cyclic" 4 2 [1; 2; 0; 3; 1; 1] with
  | Done (code, _) =>
      forall x, x < 4 -> column_weight (ProtographLDPC.graph_of code) 4 x = 2
  | Raise _ => False
  | Starved => True
  end.
Proof.
  assert (0 < 2 /\ 2 <= 4) as H by (split; lia).
  split; [exact H |].
  destruct H as (H1 & H2).
  pose proof (permuted_quasi_cyclic_biregular 4 2 H1 H2 [1; 2; 0; 3; 1; 1]) as Hrun.
  destruct (ProtographLDPC.submatrix "permuted-quasi-cyclic" 4 2 [1; 2; 0; 3; 1; 1])
    as [[code rest]| |]; auto.
  exact (proj2 Hrun).
Defined.

Module LiftColumns.
Import ProtographLDPC LiftFacts.

Section Lift.
Variables (p : Protograph.t) (f : nat) (name : string).
Let h := Protograph.height p.
Let w := Protograph.width p.

(** How often the rows of block row [i] list the variable node [y]. *)
Definition band_count (g : graph) (i y : nat) : nat :=
  sum_list_with (fun k => count (default [] (g !! k)) y) (seq (i * f) f).

Lemma band_count_ext g g' i y :
  (forall k, i * f <= k < i * f + f -> g' !! k = g !! k) ->
  band_count g' i y = band_count g i y.
Proof.
  intros Hsame. apply PermutationFacts.sum_list_with_ext. intros k Hk.
  apply elem_of_seq in Hk. now rewrite Hsame by lia.
Qed.

Lemma count_above (row : list nat) bound y :
  Forall (fun x => x < bound) row -> bound <= y -> count row y = 0.
Proof.
  intros Hlt Hy. apply count_occ_not_In. intros Hin.
  apply list_elem_of_In in Hin. rewrite Forall_forall in Hlt.
  specialize (Hlt y Hin). lia.
Qed.

Lemma count_shifted (srow : list nat) c0 y :
  count (map (fun x => x + c0) srow) y = if decide (c0 <= y) then count srow (y - c0) else 0.
Proof.
  destruct (decide (c0 <= y)) as [Hle | Hgt].
  - replace y with ((y - c0) + c0) at 1 by lia.
    apply (BlockColumns.count_map_inj (fun x => x + c0)). intros a _. lia.
  - apply count_occ_not_In. intros Hin. apply in_map_iff in Hin as (x & Hx & _). lia.
Qed.

(** While the block at [(i, j)] is about to be built. *)
Record lift_cols (i j : nat) (g : TannerGraph.t) : Prop := {
  lc_rows : LiftWeights.lift_rows p f i j g;
  lc_done : forall i' j' x, i' < i -> j' < w -> x < f ->
            band_count (TannerGraph.tanner_graph g) i' (j' * f + x) = multiplicity p i' j';
  lc_band : forall j' x, j' < j -> x < f ->
            band_count (TannerGraph.tanner_graph g) i (j' * f + x) = multiplicity p i j'
}.

Lemma lift_cols_start g : blank (h * f) g -> lift_cols 0 0 g.
Proof.
  intros Hblank. split.
  - now apply LiftWeights.lift_rows_start.
  - intros i' j' x Hi. lia.
  - intros j' x Hj. lia.
Qed.

Lemma lift_cols_next_row i g : lift_cols i w g -> lift_cols (S i) 0 g.
Proof.
  intros [Hrows Hdone Hband]. split.
  - now apply LiftWeights.lift_rows_next_row.
  - intros i' j' x Hi Hj Hx. destruct (decide (i' = i)) as [-> | Hne].
    + now apply Hband.
    + apply Hdone; auto. lia.
  - intros j' x Hj. lia.
Qed.

(** Before block column [j] is built no row of the band lists a node of it. *)
Lemma band_count_fresh i j g x :
  LiftWeights.lift_rows p f i j g -> band_count (TannerGraph.tanner_graph g) i (j * f + x) = 0.
Proof.
  intros [_ _ Hband _]. unfold band_count.
  erewrite PermutationFacts.sum_list_with_ext; [apply Counting.sum_list_with_zero |].
  intros k Hk. apply elem_of_seq in Hk. cbv beta.
  destruct (TannerGraph.tanner_graph g !! k) as [row|] eqn:Hrow; [| reflexivity].
  destruct (Hband k row Hrow ltac:(lia)) as [_ Hlt _ _].
  apply (count_above row (j * f)); [exact Hlt | lia].
Qed.

Lemma lift_cols_skip i j g :
  multiplicity p i j = 0 -> lift_cols i j g -> lift_cols i (S j) g.
Proof.
  intros Hzero [Hrows Hdone Hband]. split; auto.
  - now apply LiftWeights.lift_rows_skip.
  - intros j' x Hj Hx. destruct (decide (j' = j)) as [-> | Hne].
    + rewrite Hzero. now apply band_count_fresh.
    + apply Hband; auto. lia.
Qed.

Lemma lift_cols_insert i j g sub :
  i < h -> lift_cols i j g ->
  BlockColumns.biregular f (multiplicity p i j) sub ->
  exists g', yields (TannerGraph.insert g sub (i * f, j * f)) g' /\ lift_cols i (S j) g'.
Proof.
  intros Hi [Hrows Hdone Hband] [Hsub Hcols].
  destruct (LiftWeights.lift_rows_insert p f i j g sub Hi Hrows Hsub)
    as (g' & Hrun & Hrows' & Hin & Hout).
  exists g'. split; [exact Hrun |]. split; [exact Hrows' | |].
  - intros i' j' x Hi' Hj' Hx.
    rewrite (band_count_ext (TannerGraph.tanner_graph g)); [now apply Hdone |].
    intros k Hk. apply Hout. nia.
  - intros j' x Hj' Hx.
    assert (forall k, i * f <= k < i * f + f ->
              count (default [] (TannerGraph.tanner_graph g' !! k)) (j' * f + x)
              = count (default [] (TannerGraph.tanner_graph g !! k)) (j' * f + x)
                + if decide (j' = j)
                  then count (default [] (sub !! (k - i * f))) x else 0) as Hcount.
    { intros k Hk. destruct (Hin k Hk) as (old & srow & Hold & Hsrow & Hnew).
      rewrite Hnew, Hold, Hsrow. cbn [default from_option id].
      rewrite PermutationFacts.count_app, count_shifted. f_equal.
      destruct (decide (j' = j)) as [-> | Hne].
      - rewrite decide_True by lia. f_equal. lia.
      - destruct (decide (j * f <= j' * f + x)) as [Hle | _]; [| reflexivity].
        exfalso. assert ((j' + 1) * f <= j * f) by nia. lia. }
    unfold band_count.
    erewrite PermutationFacts.sum_list_with_ext.
    2:{ intros k Hk. apply elem_of_seq in Hk. apply Hcount. lia. }
    rewrite PermutationFacts.sum_list_with_add.
    fold (band_count (TannerGraph.tanner_graph g) i (j' * f + x)).
    destruct (decide (j' = j)) as [-> | Hne].
    + rewrite (band_count_fresh i j g x Hrows). cbn [Nat.add].
      rewrite <- (Hcols x Hx). unfold column_weight, range.
      assert (seq (i * f) f = Nat.add (i * f) <$> seq 0 f) as ->
        by now rewrite fmap_add_seq, Nat.add_0_r.
      rewrite PermutationFacts.sum_list_with_fmap.
      apply PermutationFacts.sum_list_with_ext. intros t _. cbv beta.
      now replace (i * f + t - i * f) with t by lia.
    + rewrite Counting.sum_list_with_zero, Nat.add_0_r. apply Hband; auto. lia.
Qed.

Hypothesis f_pos : 0 < f.
Hypothesis shape : well_formed p.
Hypothesis sizes : small p f.
Hypothesis known : name ∈ column_regular_constructions.
Hypothesis fitting : forall i j v, cell p i j = Some v -> v <= f.

Lemma ensures_block_columns i j g :
  i < h -> j < w -> lift_cols i j g ->
  ensures (block p f name (i * f) (j * f) g) (lift_cols i (S j)).
Proof.
  intros Hi Hj Hinv. destruct sizes as (Hh & Hw & Hfs).
  destruct (LiftRuns.cell_well_formed p i j shape Hi Hj) as [v Hcell].
  assert (entry p f (i * f) (j * f) = Done v) as Hentry.
  { rewrite LiftRuns.entry_exact, Hcell by (unfold h, w in *; lia). reflexivity. }
  assert (multiplicity p i j = v) as Hmult by (unfold multiplicity; now rewrite Hcell).
  pose proof (fitting i j v Hcell) as Hle.
  unfold block. apply (ensures_lift_bind _ _ _ _ Hentry).
  destruct (Nat.ltb_spec f v); [lia |].
  destruct (Nat.eqb_spec v 0) as [-> | Hnz].
  - apply ensures_ret. now apply lift_cols_skip.
  - eapply ensures_bind.
    + apply (BlockColumns.ensures_submatrix_biregular name f v known ltac:(lia) Hle).
    + intros sub Hsub. rewrite <- Hmult in Hsub.
      destruct (lift_cols_insert i j g (graph_of sub) Hi Hinv Hsub) as (g' & Hrun & Hg').
      now apply (yields_ensures _ g').
Qed.

Lemma ensures_expanded_columns :
  ensures (expanded_protograph p f name)
    (fun g => forall i j x, i < h -> j < w -> x < f ->
                band_count g i (j * f + x) = multiplicity p i j).
Proof.
  unfold expanded_protograph. fold h w.
  pose proof (addRow_iter (h * f)) as Hblank.
  set (g0 := Nat.iter (h * f) TannerGraph.addRow TannerGraph.empty) in *.
  pose proof (lift_cols_start g0 Hblank) as Hstart.
  assert (TannerGraph.len g0 = h * f) as Hlen.
  { apply len_keys. apply (LiftWeights.lr_keys _ _ _ _ _ (lc_rows _ _ _ Hstart)). }
  rewrite Hlen.
  pose proof (range_step_multiple h f f_pos) as Hrows.
  pose proof (range_step_multiple w f f_pos) as Hcols.
  unfold range in Hrows, Hcols.
  apply (ensures_lift_bind _ _ _ _ Hrows).
  eapply ensures_bind.
  - apply (ensures_for_strided (fun i => i * f) _
             (fun i g => lift_cols i 0 g) h 0 g0 Hstart).
    intros i g [_ Hi] Hg. cbn in Hi.
    apply (ensures_lift_bind _ _ _ _ Hcols).
    eapply ensures_weaken; [| intros g'; apply lift_cols_next_row].
    apply (ensures_for_strided (fun j => j * f)
             (block p f name (i * f)) (fun j g => lift_cols i j g) w 0 g Hg).
    intros j g' [_ Hj] Hg'. cbn in Hj. now apply ensures_block_columns.
  - intros g [_ Hdone _]. apply ensures_ret. cbn. exact Hdone.
Qed.
End Lift.

(** The weight of a column of the lifted graph, band by band. *)
Lemma column_weight_by_bands (g : graph) h f y :
  column_weight g (h * f) y = sum_list_with (fun i => band_count f g i y) (seq 0 h).
Proof.
  unfold column_weight, range. rewrite Counting.sum_by_blocks.
  apply PermutationFacts.sum_list_with_ext. intros i _. unfold band_count.
  assert (seq (i * f) f = Nat.add (i * f) <$> seq 0 f) as ->
    by now rewrite fmap_add_seq, Nat.add_0_r.
  now rewrite PermutationFacts.sum_list_with_fmap.
Qed.

End LiftColumns.

(** X24: the lifted graph follows the protograph column by column: for the
    permutation, quasi-cyclic and permuted quasi-cyclic constructions, a
    positive lift factor and a well-formed protograph whose entries do
    not exceed [f] (sizes being exact doubles) the lift never raises
    and, whenever it returns, each of the [f] variable nodes of block
    column [j] lies in exactly [P[0][j] + ... + P[m_p - 1][j]] check
    nodes, [P[i][j]] of them in block row [i]. *)
Theorem lift_columns_follow_protograph (p : Protograph.t) (f : nat) (name : string) :
  name ∈ column_regular_constructions -> 0 < f -> well_formed p -> small p f ->
  (forall i j v, cell p i j = Some v -> v <= f) ->
  forall tape,
    match ProtographLDPC.init p f name tape with
    | Done (x, _) =>
        forall j t, j < Protograph.width p -> t < f ->
          column_weight (ProtographLDPC.tanner_graph x) (Protograph.height p * f) (j * f + t)
          = sum_list_with (fun i => multiplicity p i j) (range (Protograph.height p))
    | Raise _ => False
    | Starved => True
    end.
Proof.
  intros Hname Hf Hshape Hsizes Hcells tape.
  pose proof (LiftColumns.ensures_expanded_columns p f name Hf Hshape Hsizes Hname
                Hcells tape) as Hsafe.
  unfold ProtographLDPC.init, mbind, rnd_bind, bind.
  destruct (ProtographLDPC.expanded_protograph p f name tape) as [[g rest]| |]; auto.
  cbn. intros j t Hj Ht.
  rewrite LiftColumns.column_weight_by_bands. unfold range.
  apply PermutationFacts.sum_list_with_ext. intros i Hi. apply elem_of_seq in Hi.
  apply Hsafe; auto. lia.
Qed.

Lemma lift_columns_follow_protograph_witness :
  ((("quasi-cyclic" : string) ∈ column_regular_constructions) /\ 0 < 3 /\
   well_formed scenario /\ small scenario 3 /\
   (forall i j v, cell scenario i j = Some v -> v <= 3)) /\
  match ProtographLDPC.init scenario 3 "quasi-cyclic" (repeat 0 6) with
  | Done (x, _) =>
      column_weight (ProtographLDPC.tanner_graph x) (2 * 3) (1 * 3 + 2) = 3
  | Raise _ => False
  | Starved => True
  end.
Proof.
  assert ((("quasi-cyclic" : string) ∈ column_regular_constructions) /\ 0 < 3 /\
          well_formed scenario /\ small scenario 3 /\
          (forall i j v, cell scenario i j = Some v -> v <= 3)) as H.
  { split; [apply list_elem_of_In; cbn; tauto |].
    split; [lia |]. split; [split; [reflexivity | repeat constructor] |].
    split; [repeat split |].
    intros [|[|i]] [|[|j]] v; cbn; intros [=]; subst; lia. }
  split; [exact H |].
  destruct H as (H1 & H2 & H3 & H4 & H5).
  pose proof (lift_columns_follow_protograph scenario 3 "quasi-cyclic" H1 H2 H3 H4 H5
                (repeat 0 6)) as Hrun.
  destruct (ProtographLDPC.init scenario 3 "quasi-cyclic"
              (repeat 0 6)) as [[x rest]| |];
    [| exact Hrun | exact I].
  exact (Hrun 1 2 ltac:(cbn; lia) ltac:(lia)).
Defined.

(** ** The code object when the height divides the width *)

Module AgreeingHeight.
Import RegularLDPC.

Section Sizes.
Variables q h c : nat.
Hypothesis h_pos : 0 < h.
Hypothesis q_pos : 0 < q.
Hypothesis c_pos : 0 < c.
Hypothesis sizes : (Z.of_nat (q * h * c) < 2 ^ 53)%Z.

Lemma height_recovered : int_div (q * h * c) (q * c) = Done h.
Proof.
  assert (0 < q * c) as Hqc by (apply Nat.mul_pos_pos; assumption).
  assert (q * h * c = h * (q * c)) as Heq by lia.
  pose proof sizes as Hsizes. rewrite Heq in Hsizes |- *.
  apply int_div_exact; [exact Hqc |].
  assert (h <= h * (q * c)) by (destruct (q * c); [lia | nia]). lia.
Qed.

Lemma ensures_rows :
  ensures (get_parity_check_graph (q * h) (q * c) c "populate-rows")
    (fun g => forall i, is_Some (g !! i) <-> i < h).
Proof.
  change (get_parity_check_graph (q * h) (q * c) c "populate-rows")
    with (populate_rows (q * h) (q * c) c).
  unfold populate_rows. apply (ensures_lift_bind _ _ _ _ height_recovered).
  assert (0 < q * h) as Hn by (apply Nat.mul_pos_pos; assumption).
  eapply ensures_weaken.
  - apply PopulateAlways.ensures_populate_any; right; [right |]; exact Hn.
  - intros g [Hkeys _]. exact Hkeys.
Qed.

Lemma ensures_columns :
  ensures (get_parity_check_graph (q * h) (q * c) c "populate-columns")
    (fun g => forall i, is_Some (g !! i) <-> i < h).
Proof.
  change (get_parity_check_graph (q * h) (q * c) c "populate-columns")
    with (populate_columns (q * h) (q * c) c).
  unfold populate_columns. apply (ensures_lift_bind _ _ _ _ height_recovered).
  eapply ensures_bind.
  - apply (PopulateAlways.ensures_populate_any (q * h) c h); right; [right |];
      exact h_pos.
  - intros g Hg. apply ensures_ret.
    exact (proj1 (TransposeFacts.transpose_regular (q * h) c h g Hg)).
Qed.

Lemma ensures_gallager :
  h mod c = 0 ->
  ensures (get_parity_check_graph (q * h) (q * c) c "gallager")
    (fun g => forall i, is_Some (g !! i) <-> i < h).
Proof.
  intros Hdiv.
  change (get_parity_check_graph (q * h) (q * c) c "gallager")
    with (gallager (q * h) (q * c) c).
  assert (h = h / c * c) as Hh by (pose proof (Nat.div_mod_eq h c); lia).
  assert (q * h = h / c * (q * c)) as Hn by (rewrite Hh at 1; lia).
  assert ((q * h) mod (q * c) = 0) as Hmod.
  { rewrite Hn. apply Nat.Div0.mod_mul. }
  assert (q * h / (q * c) = h / c) as Hquot.
  { rewrite Hn. apply Nat.div_mul. nia. }
  destruct (GallagerFacts.gallager_spec (q * h) (q * c) c ltac:(nia) Hmod sizes)
    as [Hsafe _].
  eapply ensures_weaken; [exact Hsafe |].
  intros g [Hkeys _] i. rewrite Hkeys, Hquot. nia.
Qed.
End Sizes.

End AgreeingHeight.

(** X25: when the height divides the width, [n = q * h], the code object
    has exactly [height] check nodes: for positive [q], [h] and [c]
    (sizes being exact doubles) the constructor never raises and,
    whenever it returns, the row weight is [q * c], the height attribute
    is [h] and the graph has the check nodes [0 .. h-1]; for Gallager's
    construction this needs [c] to divide [h]. *)
Theorem regular_init_height_agrees (q h c : nat) (name : string) :
  0 < q -> 0 < h -> 0 < c -> (Z.of_nat (q * h * c) < 2 ^ 53)%Z ->
  name ∈ regular_constructions ->
  (name = "gallager"%string -> h mod c = 0) ->
  forall tape,
    match RegularLDPC.init [q * h; h; c] name tape with
    | Done (x, _) =>
        RegularLDPC.r x = q * c /\ RegularLDPC.height x = h /\
        forall i, is_Some (RegularLDPC.tanner_graph x !! i) <-> i < h
    | Raise _ => False
    | Starved => True
    end.
Proof.
  intros Hq Hh Hc Hsizes Hname Hdiv tape.
  assert (int_div_mul (q * h) h c = Done (q * c)) as Hr.
  { apply int_div_mul_exact; [exact Hh | nia ..]. }
  assert (ensures (RegularLDPC.get_parity_check_graph (q * h) (q * c) c name)
            (fun g => forall i, is_Some (g !! i) <-> i < h)) as Hsafe.
  { unfold regular_constructions in Hname.
    repeat (apply elem_of_cons in Hname as [-> | Hname]);
      [| | | now apply elem_of_nil in Hname].
    - apply AgreeingHeight.ensures_gallager; auto.
    - now apply AgreeingHeight.ensures_rows.
    - now apply AgreeingHeight.ensures_columns. }
  unfold RegularLDPC.init, mbind, rnd_bind, bind, lift. rewrite Hr.
  specialize (Hsafe tape).
  destruct (RegularLDPC.get_parity_check_graph (q * h) (q * c) c name tape)
    as [[g rest]| |]; auto.
  cbn. auto.
Qed.

Lemma regular_init_height_agrees_witness :
  (0 < 2 /\ 0 < 4 /\ 0 < 2 /\ (Z.of_nat (2 * 4 * 2) < 2 ^ 53)%Z /\
   (("gallager" : string) ∈ regular_constructions) /\
   (("gallager" : string) = "gallager"%string -> 4 mod 2 = 0)) /\
  match RegularLDPC.init [2 * 4; 4; 2] "gallager" (repeat 0 14) with
  | Done (x, _) =>
      RegularLDPC.r x = 2 * 2 /\ RegularLDPC.height x = 4 /\
      forall i, is_Some (RegularLDPC.tanner_graph x !! i) <-> i < 4
  | Raise _ => False
  | Starved => True
  end.
Proof.
  assert (0 < 2 /\ 0 < 4 /\ 0 < 2 /\ (Z.of_nat (2 * 4 * 2) < 2 ^ 53)%Z /\
          (("gallager" : string) ∈ regular_constructions) /\
          (("gallager" : string) = "gallager"%string -> 4 mod 2 = 0)) as H.
  { split; [lia |]. split; [lia |]. split; [lia |]. split; [reflexivity |].
    split; [apply list_elem_of_In; cbn; tauto | reflexivity]. }
  split; [exact H |].
  destruct H as (H1 & H2 & H3 & H4 & H5 & H6).
  exact (regular_init_height_agrees 2 4 2 "gallager" H1 H2 H3 H4 H5 H6 (repeat 0 14)).
Defined.
